(** * Predator-prey aggregation solvers: the two notebooks, embedded

    [ProiePredateurContinu1D.ipynb] advances two densities on a 1-D grid with
    an upwind finite-volume scheme; [ProiePredateurDiscret2D.ipynb] advances
    two clouds of particles in the plane with explicit Euler steps.

    NumPy arrays of float64 are modelled by lists of real numbers and the
    arithmetic is exact: this is the real-number model of the two programs.
    The one way the programs leave the finite numbers without raising is a
    division by zero (NumPy answers [nan] or [inf] and goes on); the model
    reports it as the error [NonFinite].  Python exceptions are the other
    errors.  Plotting and file output are left out.

    Rounding, overflow and underflow are not in the real-number model.  The
    lines whose behaviour depends on them, the interaction matrices of the
    particle program and its count of time steps [int(T/dt)], are embedded a
    second time in binary64, with the primitive floats, in [Binary64]. *)

From Stdlib Require Import Reals List ZArith Lia Lra Bool.
From Stdlib Require Floats.
Import ListNotations.
Open Scope R_scope.

(** ** Results of fallible code *)

Inductive error : Type :=
| ValueError          (* raised by [np.linspace] on a negative count *)
| IndexError          (* raised by [a[1]] on an array that is too short *)
| ZeroDivisionError   (* raised by [/] on Python floats *)
| OverflowError       (* raised by [int] on an infinite float *)
| NonFinite.          (* a NumPy division by zero: nan or inf was produced *)

Inductive res (A : Type) : Type :=
| Ok (a : A)
| Err (e : error).
Arguments Ok {A} a.
Arguments Err {A} e.

Definition bind {A B : Type} (c : res A) (k : A -> res B) : res B :=
  match c with
  | Ok a => k a
  | Err e => Err e
  end.

Notation "x <- c ;; k" := (bind c (fun x => k))
  (at level 61, c at next level, right associativity).

Fixpoint mapM {A B : Type} (f : A -> res B) (l : list A) : res (list B) :=
  match l with
  | [] => Ok []
  | x :: l' => y <- f x ;; ys <- mapM f l' ;; Ok (y :: ys)
  end.

(** ** Numbers and arrays *)

(** A Python or NumPy boolean used as a number. *)
Definition b2r (b : bool) : R := if b then 1 else 0.

Definition Rgeb (x y : R) : bool := if Rge_dec x y then true else false.
Definition Rleb (x y : R) : bool := if Rle_dec x y then true else false.
Definition Rgtb (x y : R) : bool := if Rgt_dec x y then true else false.
Definition Rltb (x y : R) : bool := if Rlt_dec x y then true else false.
Definition Reqb (x y : R) : bool := if Req_dec_T x y then true else false.

(** [np.sign] *)
Definition np_sign (x : R) : R :=
  if Rlt_dec 0 x then 1 else if Rlt_dec x 0 then -1 else 0.

(** NumPy's [x / y] on float64: no exception, but nan or inf when [y] is 0. *)
Definition np_div (x y : R) : res R :=
  if Req_dec_T y 0 then Err NonFinite else Ok (x / y).

(** Python's [x / y] on floats. *)
Definition py_div (x y : R) : res R :=
  if Req_dec_T y 0 then Err ZeroDivisionError else Ok (x / y).

(** Python's [int(x)] on a float: truncation towards zero. *)
Definition py_int (x : R) : Z :=
  if Rle_dec 0 x then Zfloor x else Zceil x.

Definition vec := list R.
Definition mat := list (list R).

(** Elementwise operation on two arrays of the same shape. *)
Fixpoint map2 {A B C : Type} (f : A -> B -> C) (u : list A) (v : list B)
  : list C :=
  match u, v with
  | a :: u', b :: v' => f a b :: map2 f u' v'
  | _, _ => []
  end.

Definition vadd : vec -> vec -> vec := map2 Rplus.
Definition vsub : vec -> vec -> vec := map2 Rminus.
Definition vmul : vec -> vec -> vec := map2 Rmult.
Definition vscale (c : R) : vec -> vec := map (Rmult c).
Definition vneg : vec -> vec := map Ropp.

Definition mmap (f : R -> R) : mat -> mat := map (map f).
Definition mmap2 (f : R -> R -> R) : mat -> mat -> mat := map2 (map2 f).

(** Python's builtin [sum] and [np.sum] of a vector: a fold from 0. *)
Definition vsum (v : vec) : R := fold_left Rplus v 0.

(** [np.zeros(n)] *)
Definition zeros (n : nat) : vec := repeat 0 n.

(** [np.dot(M, v)] for a matrix and a vector. *)
Definition dot (M : mat) (v : vec) : vec := map (fun row => vsum (vmul row v)) M.

(** [np.sum(M, axis=1)]: the sum of every row. *)
Definition sum_axis1 (M : mat) : vec := map vsum M.

(** [M.T] for a matrix with [ncols] columns. *)
Definition transpose (ncols : nat) (M : mat) : mat :=
  map (fun j => map (fun row => nth j row 0) M) (seq 0 ncols).

(** [v / c] and [A / B] elementwise. *)
Definition vdiv_scalar (v : vec) (c : R) : res vec :=
  mapM (fun x => np_div x c) v.

Fixpoint vdiv (u v : vec) : res vec :=
  match u, v with
  | a :: u', b :: v' => q <- np_div a b ;; qs <- vdiv u' v' ;; Ok (q :: qs)
  | _, _ => Ok []
  end.

Fixpoint mdiv (A B : mat) : res mat :=
  match A, B with
  | r :: A', s :: B' => q <- vdiv r s ;; qs <- mdiv A' B' ;; Ok (q :: qs)
  | _, _ => Ok []
  end.

(** Slices [a[:-1]] and [a[1:]], and the slice assignments [buf[1:] = v] and
    [buf[:-1] = v] (the shapes agree: [v] is one shorter than [buf]). *)
Definition but_last (a : vec) : vec := removelast a.
Definition from_1 (a : vec) : vec := tl a.
Definition assign_from_1 (buf v : vec) : vec := firstn 1 buf ++ v.
Definition assign_but_last (buf v : vec) : vec :=
  v ++ skipn (length buf - 1) buf.

(** [np.linspace(a, b, num)]: [num] evenly spaced samples from [a] to [b],
    [ValueError] on a negative [num]. *)
Definition linspace (a b : R) (num : Z) : res vec :=
  if (num <? 0)%Z then Err ValueError
  else
    let n := Z.to_nat num in
    let step := match (n - 1)%nat with
                | O => b - a
                | S _ => (b - a) / INR (n - 1)
                end in
    Ok (map (fun i => a + INR i * step) (seq 0 n)).

(** [enumerate(l)] *)
Definition enumerate {A : Type} (l : list A) : list (nat * A) :=
  combine (seq 0 (length l)) l.

(** [a[1] - a[0]] *)
Definition second_minus_first (a : vec) : res R :=
  match a with
  | x0 :: x1 :: _ => Ok (x1 - x0)
  | _ => Err IndexError
  end.

(** [for x in l: body] on a state, stopping at the first error. *)
Fixpoint for_loop {S A : Type} (body : A -> S -> res S) (l : list A) (s : S)
  : res S :=
  match l with
  | [] => Ok s
  | x :: l' => s' <- body x s ;; for_loop body l' s'
  end.

(** ** The continuum model in one dimension *)

Module Continuum.

(** The parameter cell of the notebook. *)
Record config : Type := {
  dxW1 : R -> R;
  dxW2 : R -> R;
  dxK : R -> R;
  rho1_ini : R -> R;
  rho2_ini : R -> R;
  xmin : R;
  xmax : R;
  Nx : Z;
  Nt : Z;
  tf : R;
  beta : R
}.

(** The values of the notebook. *)
Definition notebook : config :=
  {| dxW1 := np_sign; dxW2 := np_sign; dxK := np_sign;
     rho1_ini := fun x => 1 * b2r (Rgtb x (-0.99)) * b2r (Rltb x (-0.98));
     rho2_ini := fun x => 1 * b2r (Rgtb x (-0.05)) * b2r (Rltb x 0.05);
     xmin := -1; xmax := 1; Nx := 256; Nt := 1000; tf := 2; beta := 0.3 |}.

(** What the set-up computes once and the loop only reads. *)
Record env : Type := {
  grid : vec;
  Dx : R;
  T : vec;
  Dt : R;
  e_beta : R
}.

(** The arrays the solver cell works on. *)
Record store : Type := {
  W1p : mat;
  W2p : mat;
  Kp : mat;
  rho1 : vec;
  rho2 : vec;
  a1 : vec;
  a2 : vec;
  rho1_dp : vec;
  rho1_gm : vec;
  rho2_dp : vec;
  rho2_gm : vec;
  cpt : nat;
  n_var : option nat   (* the loop variable [n], unbound before the loop *)
}.

(** [f(np.tile(grid.reshape((Nx, 1)), (1, Nx)) - grid)] *)
Definition tile_column (g : vec) (n : nat) : mat := map (fun x => repeat x n) g.

Definition kernel_matrix (f : R -> R) (g : vec) (n : nat) : mat :=
  mmap f (map (fun row => vsub row g) (tile_column g n)).

Definition setup (c : config) : res (env * store) :=
  g <- linspace (xmin c) (xmax c) (Nx c) ;;
  dx <- second_minus_first g ;;
  t <- linspace 0 (tf c) (Nt c) ;;
  dt <- second_minus_first t ;;
  let n := Z.to_nat (Nx c) in
  let r1 := map (rho1_ini c) g in
  r1 <- vdiv_scalar r1 (vsum r1) ;;
  let r2 := map (rho2_ini c) g in
  r2 <- vdiv_scalar r2 (vsum r2) ;;
  Ok ({| grid := g; Dx := dx; T := t; Dt := dt; e_beta := beta c |},
      {| W1p := kernel_matrix (dxW1 c) g n;
         W2p := kernel_matrix (dxW2 c) g n;
         Kp := kernel_matrix (dxK c) g n;
         rho1 := r1; rho2 := r2;
         a1 := zeros n; a2 := zeros n;
         rho1_dp := zeros n; rho1_gm := zeros n;
         rho2_dp := zeros n; rho2_gm := zeros n;
         cpt := 0; n_var := None |}).

(** [a*(a>=0)] and [-a*(a<=0)] *)
Definition pos_part (a : vec) : vec :=
  vmul a (map (fun x => b2r (Rgeb x 0)) a).
Definition neg_part (a : vec) : vec :=
  vmul (vneg a) (map (fun x => b2r (Rleb x 0)) a).

(** The two assignments to [a1] and [a2]. *)
Definition velocities (e : env) (s : store) : store :=
  {| W1p := W1p s; W2p := W2p s; Kp := Kp s;
     rho1 := rho1 s; rho2 := rho2 s;
     a1 := vneg (vadd (dot (W1p s) (rho1 s)) (dot (Kp s) (rho2 s)));
     a2 := vneg (vsub (dot (W2p s) (rho2 s))
                      (vscale (e_beta e) (dot (Kp s) (rho1 s))));
     rho1_dp := rho1_dp s; rho1_gm := rho1_gm s;
     rho2_dp := rho2_dp s; rho2_gm := rho2_gm s;
     cpt := cpt s; n_var := n_var s |}.

(** The upwind update of one density [rho] moved by [a], with its two shift
    buffers: the new buffers and the new density. *)
Definition upwind (e : env) (a rho dp gm : vec) : res (vec * vec * vec) :=
  let ap := pos_part a in
  let am := neg_part a in
  let dp' := assign_from_1 dp (vmul (but_last ap) (but_last rho)) in
  let gm' := assign_but_last gm (vmul (from_1 am) (from_1 rho)) in
  lam <- np_div (Dt e) (Dx e) ;;
  Ok (dp', gm',
      vsub rho (vscale lam
        (vsub (vsub (vadd (vmul ap rho) (vmul am rho)) dp') gm'))).

Definition update_rho1 (e : env) (s : store) : res store :=
  r <- upwind e (a1 s) (rho1 s) (rho1_dp s) (rho1_gm s) ;;
  let '(dp, gm, rho) := r in
  Ok {| W1p := W1p s; W2p := W2p s; Kp := Kp s;
        rho1 := rho; rho2 := rho2 s;
        a1 := a1 s; a2 := a2 s;
        rho1_dp := dp; rho1_gm := gm;
        rho2_dp := rho2_dp s; rho2_gm := rho2_gm s;
        cpt := cpt s; n_var := n_var s |}.

Definition update_rho2 (e : env) (s : store) : res store :=
  r <- upwind e (a2 s) (rho2 s) (rho2_dp s) (rho2_gm s) ;;
  let '(dp, gm, rho) := r in
  Ok {| W1p := W1p s; W2p := W2p s; Kp := Kp s;
        rho1 := rho1 s; rho2 := rho;
        a1 := a1 s; a2 := a2 s;
        rho1_dp := rho1_dp s; rho1_gm := rho1_gm s;
        rho2_dp := dp; rho2_gm := gm;
        cpt := cpt s; n_var := n_var s |}.

(** The end of the loop body: [n] is bound, and a figure is saved (and
    counted in [cpt]) when [n % 10] is 0. *)
Definition bookkeeping (n : nat) (s : store) : store :=
  {| W1p := W1p s; W2p := W2p s; Kp := Kp s;
     rho1 := rho1 s; rho2 := rho2 s;
     a1 := a1 s; a2 := a2 s;
     rho1_dp := rho1_dp s; rho1_gm := rho1_gm s;
     rho2_dp := rho2_dp s; rho2_gm := rho2_gm s;
     cpt := if (n mod 10 =? 0)%nat then S (cpt s) else cpt s;
     n_var := Some n |}.

(** One pass through the body of [for n,t in enumerate(T)]. *)
Definition step (e : env) (s : store) : res store :=
  s <- update_rho1 e (velocities e s) ;;
  update_rho2 e s.

Definition body (e : env) (it : nat * R) (s : store) : res store :=
  s <- step e s ;;
  Ok (bookkeeping (fst it) s).

Definition loop (e : env) (s : store) : res store :=
  for_loop (body e) (enumerate (T e)) s.

(** The first [k] iterations of the loop. *)
Definition iter (e : env) (k : nat) (s : store) : res store :=
  for_loop (body e) (firstn k (enumerate (T e))) s.

Definition run (c : config) : res store :=
  es <- setup c ;;
  loop (fst es) (snd es).

End Continuum.

(** ** The particle model in two dimensions *)

Module Discrete.

(** The parameter cell of the notebook.  The positions are drawn at random
    there; they are an input here.  The notebook draws the prey, as the
    predators, with [N1] rows: the arrays have the shapes the loop body
    expects when [N1 = N2], as in the notebook. *)
Record config : Type := {
  s1prime : R -> R;
  s2prime : R -> R;
  kprime : R -> R;
  N1 : nat;
  N2 : nat;
  alpha : R;
  dt : R;
  T : R
}.

(** The notebook's own potentials. *)
Definition s1prime_nb (r : R) : R := 0 * b2r (Reqb r 0) + 0.1 * b2r (Rgtb r 0).
Definition s2prime_nb (r : R) : R := 0 * b2r (Reqb r 0) + 0.1 * b2r (Rgtb r 0).
Definition kprime_nb (r : R) : R := 0 * b2r (Reqb r 0) + 1 * b2r (Rgtb r 0).

Definition notebook : config :=
  {| s1prime := s1prime_nb; s2prime := s2prime_nb; kprime := kprime_nb;
     N1 := 400; N2 := 400; alpha := 0.3; dt := 0.005; T := 5 |}.

(** [nT = int(T/(dt))], on the exact quotient.  The program truncates the
    rounded quotient of two floats, which is [Binary64.nT]; at the
    notebook's [T = 5.] and [dt = 0.005] both are 1000. *)
Definition nT (c : config) : res Z :=
  q <- py_div (T c) (dt c) ;; Ok (py_int q).

(** The column vectors of shape (N,1) and the counters of the solver cell. *)
Record store : Type := {
  x1 : vec;
  y1 : vec;
  x2 : vec;
  y2 : vec;
  dx1 : vec;
  dy1 : vec;
  dx2 : vec;
  dy2 : vec;
  cnt : nat;
  cnt_sav : nat;
  n_var : option nat   (* the loop variable [n], unbound before the loop *)
}.

Definition init (c : config) (px1 py1 px2 py2 : vec) : store :=
  {| x1 := px1; y1 := py1; x2 := px2; y2 := py2;
     dx1 := zeros (N1 c); dy1 := zeros (N1 c);
     dx2 := zeros (N2 c); dy2 := zeros (N2 c);
     cnt := 0; cnt_sav := 0; n_var := None |}.

(** [matl.repmat(x, 1, n)] for a column [x], and [matl.repmat(x.T, m, 1)]. *)
Definition repmat_cols (x : vec) (n : nat) : mat := map (fun xi => repeat xi n) x.
Definition repmat_rows (x : vec) (m : nat) : mat := repeat x m.

(** [r*(r>0)+1*(r==0)], the step that avoids the divisions by 0. *)
Definition avoid_zero (r : R) : R := r * b2r (Rgtb r 0) + 1 * b2r (Reqb r 0).

(** One block of the loop body: the two matrices of directional derivatives
    of the radial potential with derivative [fprime], between the [na] points
    [(xa, ya)] and the [nb] points [(xb, yb)]. *)
Definition interactions (fprime : R -> R) (xa ya : vec) (na : nat)
    (xb yb : vec) (nb : nat) : res (mat * mat) :=
  let xDiff := mmap2 Rminus (repmat_cols xa nb) (repmat_rows xb na) in
  let yDiff := mmap2 Rminus (repmat_cols ya nb) (repmat_rows yb na) in
  let normDiff :=
    mmap sqrt (mmap2 Rplus (mmap (fun d => d ^ 2) xDiff)
                           (mmap (fun d => d ^ 2) yDiff)) in
  let normDiff := mmap avoid_zero normDiff in
  dxS <- mdiv (mmap2 Rmult xDiff (mmap fprime normDiff)) normDiff ;;
  dyS <- mdiv (mmap2 Rmult yDiff (mmap fprime normDiff)) normDiff ;;
  Ok (dxS, dyS).

(** [- sum(dS, axis=1)/n1 - sum(dK, axis=1)/n2] *)
Definition predator_velocity (dS dK : mat) (n1 n2 : nat) : res vec :=
  a <- vdiv_scalar (vneg (sum_axis1 dS)) (INR n1) ;;
  b <- vdiv_scalar (sum_axis1 dK) (INR n2) ;;
  Ok (vsub a b).

(** [- sum(dS, axis=1)/n2 - alpha * sum(dK.T, axis=1)/n1] *)
Definition prey_velocity (al : R) (dS dK : mat) (n1 n2 : nat) : res vec :=
  a <- vdiv_scalar (vneg (sum_axis1 dS)) (INR n2) ;;
  b <- vdiv_scalar (vscale al (sum_axis1 (transpose n2 dK))) (INR n1) ;;
  Ok (vsub a b).

(** The four velocity vectors of one step. *)
Definition velocities (c : config) (s : store)
  : res (vec * vec * vec * vec) :=
  S1 <- interactions (s1prime c) (x1 s) (y1 s) (N1 c) (x1 s) (y1 s) (N1 c) ;;
  K <- interactions (kprime c) (x1 s) (y1 s) (N1 c) (x2 s) (y2 s) (N2 c) ;;
  S2 <- interactions (s2prime c) (x2 s) (y2 s) (N2 c) (x2 s) (y2 s) (N2 c) ;;
  vx1 <- predator_velocity (fst S1) (fst K) (N1 c) (N2 c) ;;
  vy1 <- predator_velocity (snd S1) (snd K) (N1 c) (N2 c) ;;
  vx2 <- prey_velocity (alpha c) (fst S2) (fst K) (N1 c) (N2 c) ;;
  vy2 <- prey_velocity (alpha c) (snd S2) (snd K) (N1 c) (N2 c) ;;
  Ok (vx1, vy1, vx2, vy2).

(** Velocities, then the explicit Euler update of the four columns. *)
Definition step (c : config) (s : store) : res store :=
  v <- velocities c s ;;
  let '(vx1, vy1, vx2, vy2) := v in
  Ok {| x1 := vadd (x1 s) (vscale (dt c) vx1);
        y1 := vadd (y1 s) (vscale (dt c) vy1);
        x2 := vadd (x2 s) (vscale (dt c) vx2);
        y2 := vadd (y2 s) (vscale (dt c) vy2);
        dx1 := vx1; dy1 := vy1; dx2 := vx2; dy2 := vy2;
        cnt := cnt s; cnt_sav := cnt_sav s; n_var := n_var s |}.

(** The end of the loop body: a figure is saved (and counted) when
    [cnt % sav] is 0, with [sav = 10]; then [cnt += 1]. *)
Definition bookkeeping (n : nat) (s : store) : store :=
  {| x1 := x1 s; y1 := y1 s; x2 := x2 s; y2 := y2 s;
     dx1 := dx1 s; dy1 := dy1 s; dx2 := dx2 s; dy2 := dy2 s;
     cnt := S (cnt s);
     cnt_sav := if (cnt s mod 10 =? 0)%nat then S (cnt_sav s) else cnt_sav s;
     n_var := Some n |}.

Definition body (c : config) (it : nat * R) (s : store) : res store :=
  s <- step c s ;;
  Ok (bookkeeping (fst it) s).

(** [for n,k in enumerate(linspace(0,T,nT+1))] *)
Definition times (c : config) : res vec :=
  n <- nT c ;; linspace 0 (T c) (n + 1).

Definition run (c : config) (px1 py1 px2 py2 : vec) : res store :=
  ts <- times c ;;
  for_loop (body c) (enumerate ts) (init c px1 py1 px2 py2).

End Discrete.

(** ** The statements of the specification, in its own words *)

Module ContinuumSpec.
Import Continuum.

(** The shapes the set-up establishes, and the two buffer cells that no
    iteration writes: cell 0 of [rho*_dp] and cell [n-1] of [rho*_gm]. *)
Record wf (n : nat) (s : store) : Prop := {
  wf_W1p : length (W1p s) = n;
  wf_W2p : length (W2p s) = n;
  wf_Kp : length (Kp s) = n;
  wf_rho1 : length (rho1 s) = n;
  wf_rho2 : length (rho2 s) = n;
  wf_rho1_dp : length (rho1_dp s) = n;
  wf_rho1_gm : length (rho1_gm s) = n;
  wf_rho2_dp : length (rho2_dp s) = n;
  wf_rho2_gm : length (rho2_gm s) = n;
  wf_rho1_dp_0 : nth 0 (rho1_dp s) 0 = 0;
  wf_rho1_gm_last : nth (n - 1) (rho1_gm s) 0 = 0;
  wf_rho2_dp_0 : nth 0 (rho2_dp s) 0 = 0;
  wf_rho2_gm_last : nth (n - 1) (rho2_gm s) 0 = 0
}.

(** The kernel matrices hold the kernel derivatives at the pairwise
    differences of the [n] grid points. *)
Definition kernels_from (c : config) (e : env) (n : nat) (s : store) : Prop :=
  length (grid e) = n /\
  W1p s = kernel_matrix (dxW1 c) (grid e) n /\
  W2p s = kernel_matrix (dxW2 c) (grid e) n /\
  Kp s = kernel_matrix (dxK c) (grid e) n.

(** Cell [i] of an array that is zero outside the domain. *)
Definition cell (v : vec) (i : Z) : R :=
  if (i <? 0)%Z then 0 else nth (Z.to_nat i) v 0.

(** The flux at the interface [i+1/2]:
    [F = max(a_i, 0) rho_i - max(-a_(i+1), 0) rho_(i+1)]. *)
Definition spec_flux (a rho : vec) (i : Z) : R :=
  Rmax (cell a i) 0 * cell rho i
  - Rmax (- cell a (i + 1)) 0 * cell rho (i + 1).

(** [rho_i - lam (F_(i+1/2) - F_(i-1/2))] on the [n] cells. *)
Definition spec_update (lam : R) (a rho : vec) (n : nat) : vec :=
  map (fun i => nth i rho 0
                - lam * (spec_flux a rho (Z.of_nat i)
                         - spec_flux a rho (Z.of_nat i - 1)))
      (seq 0 n).

(** [a1_i = - sum_l (rho1_l W1'(x_i - x_l) + rho2_l K'(x_i - x_l))] and
    [a2_i = - sum_l (rho2_l W2'(x_i - x_l) - beta rho1_l K'(x_i - x_l))]. *)
Definition spec_a1 (c : config) (g r1 r2 : vec) (i : nat) : R :=
  - vsum (map (fun l => nth l r1 0 * dxW1 c (nth i g 0 - nth l g 0)
                        + nth l r2 0 * dxK c (nth i g 0 - nth l g 0))
              (seq 0 (length g))).

Definition spec_a2 (c : config) (g r1 r2 : vec) (i : nat) : R :=
  - vsum (map (fun l => nth l r2 0 * dxW2 c (nth i g 0 - nth l g 0)
                        - beta c * (nth l r1 0 * dxK c (nth i g 0 - nth l g 0)))
              (seq 0 (length g))).

(** [max(|a|)], 0 on the empty array. *)
Definition max_abs (a : vec) : R := fold_right Rmax 0 (map Rabs a).

(** The CFL condition [Dt max(|a|) / Dx <= 1]. *)
Definition cfl (e : env) (a : vec) : Prop := Dt e * max_abs a / Dx e <= 1.

Definition nonneg (v : vec) : Prop := Forall (fun x => 0 <= x) v.

(** No density in the first and in the last cell. *)
Definition empty_boundary (n : nat) (rho : vec) : Prop :=
  nth 0 rho 0 = 0 /\ nth (n - 1) rho 0 = 0.

(** What leaves through the two ends in one step, per unit of [Dt/Dx]. *)
Definition outflow (n : nat) (a rho : vec) : R :=
  nth (n - 1) (pos_part a) 0 * nth (n - 1) rho 0
  + nth 0 (neg_part a) 0 * nth 0 rho 0.

(** A configuration the specification calls invalid. *)
Definition invalid (c : config) : Prop :=
  (Nx c <= 0)%Z \/ (Nt c <= 0)%Z \/ xmax c <= xmin c \/ tf c < 0.

(** The number of passes through the loop body of a finished run. *)
Definition steps_done (s : store) : nat :=
  match n_var s with
  | None => 0
  | Some n => S n
  end.

End ContinuumSpec.

Module DiscreteSpec.
Import Discrete.

Record wf (c : config) (s : store) : Prop := {
  wf_x1 : length (x1 s) = N1 c;
  wf_y1 : length (y1 s) = N1 c;
  wf_x2 : length (x2 s) = N2 c;
  wf_y2 : length (y2 s) = N2 c
}.

(** The gradient of a radial potential [S(v) = s(|v|)], first and second
    component: [v/|v| s'(|v|)], and 0 at [v = 0]. *)
Definition grad_x (fprime : R -> R) (vx vy : R) : R :=
  let r := sqrt (vx ^ 2 + vy ^ 2) in
  if Req_dec_T r 0 then 0 else vx / r * fprime r.

Definition grad_y (fprime : R -> R) (vx vy : R) : R :=
  let r := sqrt (vx ^ 2 + vy ^ 2) in
  if Req_dec_T r 0 then 0 else vy / r * fprime r.

(** One entry of [dxS] and of [dyS], as the array expressions of the loop
    body compute it from the two coordinate differences of a pair. *)
Definition entry_x (fprime : R -> R) (dx dy : R) : R :=
  let r := avoid_zero (sqrt (dx ^ 2 + dy ^ 2)) in dx * fprime r / r.

Definition entry_y (fprime : R -> R) (dx dy : R) : R :=
  let r := avoid_zero (sqrt (dx ^ 2 + dy ^ 2)) in dy * fprime r / r.

(** The matrix with entry [h p q] for [p] in [P] (rows), [q] in [Q]. *)
Definition outer {A B : Type} (h : A -> B -> R) (P : list A) (Q : list B)
  : mat :=
  map (fun p => map (h p) Q) P.

(** The sum over all the points [(xs, ys)] of a component of the gradient
    at [p - q], [p = (px, py)]. *)
Definition sum_grad (g : R -> R -> R) (px py : R) (xs ys : vec) : R :=
  vsum (map (fun q => g (px - fst q) (py - snd q)) (combine xs ys)).

(** The velocity of every predator and of every prey, written particle by
    particle from the entries [gS] (own species) and [gK] (other species) of
    the interaction matrices; [P1] are the predators, [P2] the prey. *)
Definition predator_cells (gS gK : R -> R -> R) (n1 n2 : nat)
    (P1 P2 : list (R * R)) : vec :=
  map (fun p =>
         - vsum (map (fun q => gS (fst p - fst q) (snd p - snd q)) P1) / INR n1
         - vsum (map (fun q => gK (fst p - fst q) (snd p - snd q)) P2) / INR n2)
      P1.

Definition prey_cells (al : R) (gS gK : R -> R -> R) (n1 n2 : nat)
    (P1 P2 : list (R * R)) : vec :=
  map (fun q =>
         - vsum (map (fun q' => gS (fst q - fst q') (snd q - snd q')) P2) / INR n2
         - al * vsum (map (fun p => gK (fst p - fst q) (snd p - snd q)) P1)
           / INR n1)
      P2.

End DiscreteSpec.

(** ** Concrete inputs *)

Module Examples.

(** A grid of three cells on [-1, 1] and two times, uniform initial
    densities, the potentials [|x|] of the notebook. *)
Definition small_grid : Continuum.config :=
  {| Continuum.dxW1 := np_sign; Continuum.dxW2 := np_sign;
     Continuum.dxK := np_sign;
     Continuum.rho1_ini := fun _ => 1; Continuum.rho2_ini := fun _ => 1;
     Continuum.xmin := -1; Continuum.xmax := 1; Continuum.Nx := 3;
     Continuum.Nt := 2; Continuum.tf := 1 / 4; Continuum.beta := 0.3 |}.

(** The same with the two bounds exchanged: [xmin >= xmax]. *)
Definition reversed_grid : Continuum.config :=
  {| Continuum.dxW1 := np_sign; Continuum.dxW2 := np_sign;
     Continuum.dxK := np_sign;
     Continuum.rho1_ini := fun _ => 1; Continuum.rho2_ini := fun _ => 1;
     Continuum.xmin := 1; Continuum.xmax := -1; Continuum.Nx := 3;
     Continuum.Nt := 2; Continuum.tf := 1 / 4; Continuum.beta := 0.3 |}.

(** The same with no cell at all: [Nx = 0]. *)
Definition no_cell : Continuum.config :=
  {| Continuum.dxW1 := np_sign; Continuum.dxW2 := np_sign;
     Continuum.dxK := np_sign;
     Continuum.rho1_ini := fun _ => 1; Continuum.rho2_ini := fun _ => 1;
     Continuum.xmin := -1; Continuum.xmax := 1; Continuum.Nx := 0;
     Continuum.Nt := 2; Continuum.tf := 1 / 4; Continuum.beta := 0.3 |}.

(** The potentials switched off. *)
Definition no_interaction : Continuum.config :=
  {| Continuum.dxW1 := fun _ => 0; Continuum.dxW2 := fun _ => 0;
     Continuum.dxK := fun _ => 0;
     Continuum.rho1_ini := fun _ => 1; Continuum.rho2_ini := fun _ => 1;
     Continuum.xmin := -1; Continuum.xmax := 1; Continuum.Nx := 3;
     Continuum.Nt := 2; Continuum.tf := 1 / 4; Continuum.beta := 0.3 |}.

(** The environment of [small_grid], and a store in the middle of a run:
    all of the first density in the middle cell, the second one in the
    middle and in the last cell. *)
Definition small_env : Continuum.env :=
  {| Continuum.grid := [-1; 0; 1]; Continuum.Dx := 1;
     Continuum.T := [0; 1 / 4]; Continuum.Dt := 1 / 4;
     Continuum.e_beta := 0.3 |}.

Definition small_store (f : R -> R) : Continuum.store :=
  {| Continuum.W1p := Continuum.kernel_matrix f [-1; 0; 1] 3;
     Continuum.W2p := Continuum.kernel_matrix f [-1; 0; 1] 3;
     Continuum.Kp := Continuum.kernel_matrix f [-1; 0; 1] 3;
     Continuum.rho1 := [0; 1; 0]; Continuum.rho2 := [0; 1 / 2; 1 / 2];
     Continuum.a1 := zeros 3; Continuum.a2 := zeros 3;
     Continuum.rho1_dp := zeros 3; Continuum.rho1_gm := zeros 3;
     Continuum.rho2_dp := zeros 3; Continuum.rho2_gm := zeros 3;
     Continuum.cpt := 0; Continuum.n_var := None |}.

(** Two predators at the same place and two prey, one of them on the
    predators. *)
Definition two_two : Discrete.config :=
  {| Discrete.s1prime := Discrete.s1prime_nb;
     Discrete.s2prime := Discrete.s2prime_nb;
     Discrete.kprime := Discrete.kprime_nb;
     Discrete.N1 := 2; Discrete.N2 := 2; Discrete.alpha := 0.3;
     Discrete.dt := 0.005; Discrete.T := 5 |}.

Definition two_two_free : Discrete.config :=
  {| Discrete.s1prime := fun _ => 0; Discrete.s2prime := fun _ => 0;
     Discrete.kprime := fun _ => 0;
     Discrete.N1 := 2; Discrete.N2 := 2; Discrete.alpha := 0.3;
     Discrete.dt := 0.005; Discrete.T := 5 |}.

Definition two_two_store (c : Discrete.config) : Discrete.store :=
  Discrete.init c [0; 0] [0; 0] [0; 3] [0; 4].

End Examples.

(** ** More vocabulary for statements *)

Module MoreSpec.

(** A function bounded by [M] in absolute value, and an odd function. *)
Definition bounded_by (M : R) (f : R -> R) : Prop :=
  forall x, Rabs (f x) <= M.

Definition odd (f : R -> R) : Prop := forall x, f (- x) = - f x.

(** How many [n] in [0 .. k-1] have [n % 10 == 0]. *)
Definition figures (k : nat) : nat := (k + 9) / 10.

(** The [n >= 2] samples [a + i (b - a)/(n - 1)] of [np.linspace(a, b, n)]. *)
Definition samples (a b : R) (n : nat) : vec :=
  map (fun i => a + INR i * ((b - a) / INR (n - 1))) (seq 0 n).

(** A density divided by its sum. *)
Definition normalised (v : vec) : vec := map (fun x => x / vsum v) v.

(** The particles of a store moved by the vector [(tx, ty)]. *)
Definition translate (tx ty : R) (s : Discrete.store) : Discrete.store :=
  {| Discrete.x1 := map (fun x => x + tx) (Discrete.x1 s);
     Discrete.y1 := map (fun y => y + ty) (Discrete.y1 s);
     Discrete.x2 := map (fun x => x + tx) (Discrete.x2 s);
     Discrete.y2 := map (fun y => y + ty) (Discrete.y2 s);
     Discrete.dx1 := Discrete.dx1 s; Discrete.dy1 := Discrete.dy1 s;
     Discrete.dx2 := Discrete.dx2 s; Discrete.dy2 := Discrete.dy2 s;
     Discrete.cnt := Discrete.cnt s; Discrete.cnt_sav := Discrete.cnt_sav s;
     Discrete.n_var := Discrete.n_var s |}.

(** The distance of two points. *)
Definition dist (ax ay bx b_y : R) : R := sqrt ((ax - bx) ^ 2 + (ay - b_y) ^ 2).

(** An array read backwards. *)
Definition mirror (v : vec) : vec := rev v.

(** A grid of [n] points that is symmetric about [C / 2]. *)
Definition symmetric_grid (g : vec) (n : nat) (C : R) : Prop :=
  forall i, (i < n)%nat -> nth (n - 1 - i) g 0 = C - nth i g 0.

(** Two species with the same odd kernel and no coupling, started as
    mirror images of each other on a grid of three cells. *)
Definition mirrored_pair : Continuum.config :=
  {| Continuum.dxW1 := np_sign; Continuum.dxW2 := np_sign;
     Continuum.dxK := fun _ => 0;
     Continuum.rho1_ini := fun x => x + 2; Continuum.rho2_ini := fun x => 2 - x;
     Continuum.xmin := -1; Continuum.xmax := 1; Continuum.Nx := 3;
     Continuum.Nt := 2; Continuum.tf := 1 / 4; Continuum.beta := 0.3 |}.

(** A grid reduced to the point 0. *)
Definition point_grid : Continuum.config :=
  {| Continuum.dxW1 := np_sign; Continuum.dxW2 := np_sign;
     Continuum.dxK := np_sign;
     Continuum.rho1_ini := fun _ => 1; Continuum.rho2_ini := fun _ => 1;
     Continuum.xmin := 0; Continuum.xmax := 0; Continuum.Nx := 3;
     Continuum.Nt := 2; Continuum.tf := 1 / 4; Continuum.beta := 0.3 |}.

(** Two prey and no predator. *)
Definition no_predator : Discrete.config :=
  {| Discrete.s1prime := Discrete.s1prime_nb;
     Discrete.s2prime := Discrete.s2prime_nb;
     Discrete.kprime := Discrete.kprime_nb;
     Discrete.N1 := 0; Discrete.N2 := 2; Discrete.alpha := 0.3;
     Discrete.dt := 0.005; Discrete.T := 5 |}.

(** Both densities of the three-cell grid in the middle cell. *)
Definition middle_store : Continuum.store :=
  {| Continuum.W1p := Continuum.kernel_matrix np_sign [-1; 0; 1] 3;
     Continuum.W2p := Continuum.kernel_matrix np_sign [-1; 0; 1] 3;
     Continuum.Kp := Continuum.kernel_matrix np_sign [-1; 0; 1] 3;
     Continuum.rho1 := [0; 1; 0]; Continuum.rho2 := [0; 1; 0];
     Continuum.a1 := zeros 3; Continuum.a2 := zeros 3;
     Continuum.rho1_dp := zeros 3; Continuum.rho1_gm := zeros 3;
     Continuum.rho2_dp := zeros 3; Continuum.rho2_gm := zeros 3;
     Continuum.cpt := 0; Continuum.n_var := None |}.

(** One predator and one prey. *)
Definition one_one : Discrete.config :=
  {| Discrete.s1prime := Discrete.s1prime_nb;
     Discrete.s2prime := Discrete.s2prime_nb;
     Discrete.kprime := Discrete.kprime_nb;
     Discrete.N1 := 1; Discrete.N2 := 1; Discrete.alpha := 0.3;
     Discrete.dt := 0.005; Discrete.T := 5 |}.

End MoreSpec.


(** ** The lines that depend on binary64, in binary64 *)

Module Binary64.
Import PrimFloat.
Local Open Scope float_scope.
Set Warnings "-inexact-float".

Definition fvec := list float.
Definition fmat := list (list float).

(** A NumPy boolean in an arithmetic expression: [True] is 1, [False] is 0.
    The integers 0 and 1 that [0*(r==0)] and [1*(r>0)] produce are converted
    to the floats of the same value when they meet a float. *)
Definition b2f (b : bool) : float := if b then 1 else 0.

(** The notebook's potentials. *)
Definition s1prime (r : float) : float := 0 * b2f (r =? 0) + 0.1 * b2f (0 <? r).
Definition s2prime (r : float) : float := 0 * b2f (r =? 0) + 0.1 * b2f (0 <? r).
Definition kprime (r : float) : float := 0 * b2f (r =? 0) + 1 * b2f (0 <? r).

Definition repmat_cols (x : fvec) (n : nat) : fmat := map (fun xi => repeat xi n) x.
Definition repmat_rows (x : fvec) (m : nat) : fmat := repeat x m.
Definition fmap (f : float -> float) : fmat -> fmat := map (map f).
Definition fmap2 (f : float -> float -> float) : fmat -> fmat -> fmat :=
  map2 (map2 f).

(** [r*(r>0)+1*(r==0)] *)
Definition avoid_zero (r : float) : float := r * b2f (0 <? r) + 1 * b2f (r =? 0).


(** One block of the loop body.  A division of floats never raises: it
    answers [nan] or an infinity. *)
Definition interactions (fprime : float -> float) (xa ya : fvec) (na : nat)
    (xb yb : fvec) (nb : nat) : fmat * fmat :=
  let xDiff := fmap2 sub (repmat_cols xa nb) (repmat_rows xb na) in
  let yDiff := fmap2 sub (repmat_cols ya nb) (repmat_rows yb na) in
  let normDiff :=
    fmap sqrt (fmap2 add (fmap (fun d => d * d) xDiff)
                         (fmap (fun d => d * d) yDiff)) in
  let normDiff := fmap avoid_zero normDiff in
  (fmap2 div (fmap2 mul xDiff (fmap fprime normDiff)) normDiff,
   fmap2 div (fmap2 mul yDiff (fmap fprime normDiff)) normDiff).

(** Python's [x / y] on floats. *)
Definition py_div (x y : float) : res float :=
  if y =? 0 then Err ZeroDivisionError else Ok (x / y).

(** Python's [int(x)] on a float: truncation towards zero, [ValueError] on
    [nan] and [OverflowError] on an infinity. *)
Definition py_int (x : float) : res Z :=
  match FloatOps.Prim2SF x with
  | SpecFloat.S754_nan => Err ValueError
  | SpecFloat.S754_infinity _ => Err OverflowError
  | SpecFloat.S754_zero _ => Ok 0%Z
  | SpecFloat.S754_finite s m e =>
      let a := if (0 <=? e)%Z then (Z.pos m * 2 ^ e)%Z
               else (Z.pos m / 2 ^ (- e))%Z in
      Ok (if s then (- a)%Z else a)
  end.

(** [nT = int(T/(dt))] *)
Definition nT (T dt : float) : res Z :=
  q <- py_div T dt ;; py_int q.

(** The parameter cell and the solver cell of the particle notebook with
    the count of passes computed in binary64 from the floats [T] and [dt].
    The loop body is the one of the real-number model; it reads the index
    [n] and not the time [k].  The prey are drawn with [N1] rows, as the
    predators are. *)
Definition run (c : Discrete.config) (T dt : float) (px1 py1 px2 py2 : vec)
  : res Discrete.store :=
  n <- nT T dt ;;
  ts <- linspace 0%R (Discrete.T c) (n + 1) ;;
  for_loop (Discrete.body c) (enumerate ts) (Discrete.init c px1 py1 px2 py2).


(** The clock of the notebook, and one whose quotient is rounded. *)
Definition notebook_T : float := 5.
Definition notebook_dt : float := 0.005.
Definition short_T : float := 0.3.
Definition short_dt : float := 0.1.
Definition huge : float := 1e308.
Definition minute : float := 1e-308.

Set Warnings "inexact-float".
End Binary64.
(** * Facts about the array operations *)

Section Arrays.

Lemma bind_ok {A B : Type} (c : res A) (k : A -> res B) (b : B) :
  bind c k = Ok b -> exists a, c = Ok a /\ k a = Ok b.
Proof. destruct c as [a|e]; simpl; [eauto | discriminate]. Qed.

Lemma np_div_ok (x y : R) : y <> 0 -> np_div x y = Ok (x / y).
Proof. intros H. unfold np_div. destruct (Req_dec_T y 0); [contradiction | reflexivity]. Qed.

Lemma map2_length {A B C : Type} (f : A -> B -> C) (u : list A) (v : list B) :
  length (map2 f u v) = Nat.min (length u) (length v).
Proof.
  revert v. induction u as [|a u IH]; intros [|b v]; simpl; auto.
Qed.

Lemma map2_length_eq {A B C : Type} (f : A -> B -> C) u v n :
  length u = n -> length v = n -> length (map2 f u v) = n.
Proof. intros. rewrite map2_length. lia. Qed.

Lemma nth_map2 {A B C : Type} (f : A -> B -> C) u v k da db dc :
  (k < length u)%nat -> (k < length v)%nat ->
  nth k (map2 f u v) dc = f (nth k u da) (nth k v db).
Proof.
  revert v k. induction u as [|a u IH]; intros [|b v] [|k]; simpl; intros;
    try lia; auto.
  apply IH; lia.
Qed.

Lemma fold_left_Rplus_acc (l : vec) (a : R) :
  fold_left Rplus l a = a + fold_left Rplus l 0.
Proof.
  revert a. induction l as [|x l IH]; intros a; simpl.
  - lra.
  - rewrite (IH (a + x)), (IH (0 + x)). lra.
Qed.

Lemma vsum_nil : vsum [] = 0.
Proof. reflexivity. Qed.

Lemma vsum_cons (x : R) (l : vec) : vsum (x :: l) = x + vsum l.
Proof. unfold vsum. simpl. rewrite fold_left_Rplus_acc. lra. Qed.

Lemma vsum_app (l l' : vec) : vsum (l ++ l') = vsum l + vsum l'.
Proof.
  induction l as [|x l IH]; simpl.
  - rewrite vsum_nil. lra.
  - rewrite !vsum_cons, IH. lra.
Qed.

Lemma vsum_vadd (u v : vec) :
  length u = length v -> vsum (vadd u v) = vsum u + vsum v.
Proof.
  unfold vadd. revert v.
  induction u as [|a u IH]; intros [|b v] H; simpl in *; try discriminate.
  - rewrite vsum_nil. lra.
  - rewrite !vsum_cons, IH by lia. lra.
Qed.

Lemma vsum_vsub (u v : vec) :
  length u = length v -> vsum (vsub u v) = vsum u - vsum v.
Proof.
  unfold vsub. revert v.
  induction u as [|a u IH]; intros [|b v] H; simpl in *; try discriminate.
  - rewrite vsum_nil. lra.
  - rewrite !vsum_cons, IH by lia. lra.
Qed.

Lemma vsum_vscale (c : R) (u : vec) : vsum (vscale c u) = c * vsum u.
Proof.
  unfold vscale. induction u as [|a u IH]; simpl.
  - rewrite vsum_nil. lra.
  - rewrite !vsum_cons, IH. lra.
Qed.

Lemma vsum_zeros (n : nat) : vsum (zeros n) = 0.
Proof.
  unfold zeros. induction n as [|n IH]; simpl; [reflexivity |].
  rewrite vsum_cons, IH. lra.
Qed.

Lemma vsum_firstn_1 (l : vec) : vsum (firstn 1 l) = nth 0 l 0.
Proof.
  destruct l as [|x l]; simpl; [reflexivity |].
  rewrite vsum_cons, vsum_nil. lra.
Qed.

Lemma nth_last_app (l : vec) (x : R) :
  nth (length (l ++ [x]) - 1) (l ++ [x]) 0 = x.
Proof.
  rewrite length_app. simpl. replace (length l + 1 - 1)%nat with (length l) by lia.
  rewrite app_nth2 by lia. rewrite Nat.sub_diag. reflexivity.
Qed.

Lemma vsum_skipn_last (l : vec) :
  vsum (skipn (length l - 1) l) = nth (length l - 1) l 0.
Proof.
  destruct l as [|x l _] using rev_ind; [reflexivity |].
  rewrite nth_last_app, length_app. simpl.
  replace (length l + 1 - 1)%nat with (length l + 0)%nat by lia.
  rewrite skipn_app, skipn_all2 by lia.
  replace (length l + 0 - length l)%nat with 0%nat by lia. simpl.
  rewrite vsum_cons, vsum_nil. lra.
Qed.

Lemma vsum_but_last (l : vec) :
  vsum (but_last l) = vsum l - nth (length l - 1) l 0.
Proof.
  unfold but_last. destruct l as [|x l _] using rev_ind.
  - simpl. rewrite vsum_nil. lra.
  - rewrite nth_last_app, removelast_last, vsum_app, vsum_cons, vsum_nil. lra.
Qed.

Lemma vsum_from_1 (l : vec) : vsum (from_1 l) = vsum l - nth 0 l 0.
Proof.
  destruct l as [|x l]; simpl.
  - rewrite vsum_nil. lra.
  - rewrite vsum_cons. lra.
Qed.

Lemma but_last_length (l : vec) : length (but_last l) = (length l - 1)%nat.
Proof.
  unfold but_last. induction l as [|x l IH]; simpl; [reflexivity |].
  destruct l as [|y l]; simpl in *; [reflexivity | lia].
Qed.

Lemma from_1_length (l : vec) : length (from_1 l) = (length l - 1)%nat.
Proof. destruct l; simpl; lia. Qed.

Lemma vmul_but_last (a b : vec) :
  length a = length b ->
  vmul (but_last a) (but_last b) = but_last (vmul a b).
Proof.
  unfold but_last, vmul. revert b.
  induction a as [|x a IH]; intros [|y b] H; simpl in *; try discriminate;
    auto.
  destruct a as [|x' a], b as [|y' b]; simpl in *; try discriminate; auto.
  f_equal. apply (IH (y' :: b)). simpl. lia.
Qed.

Lemma vmul_from_1 (a b : vec) :
  vmul (from_1 a) (from_1 b) = from_1 (vmul a b).
Proof. destruct a, b; simpl; auto. destruct a; reflexivity. Qed.

Lemma nth_vmul (a b : vec) (k : nat) :
  nth k (vmul a b) 0 = nth k a 0 * nth k b 0.
Proof.
  unfold vmul. revert b k.
  induction a as [|x a IH]; intros [|y b] [|k]; simpl; try lra; auto.
Qed.

Lemma nth_vsub (a b : vec) (k : nat) :
  length a = length b -> nth k (vsub a b) 0 = nth k a 0 - nth k b 0.
Proof.
  unfold vsub. revert b k.
  induction a as [|x a IH]; intros [|y b] [|k] H; simpl in *;
    try discriminate; try lra; auto.
Qed.

Lemma nth_vadd (a b : vec) (k : nat) :
  length a = length b -> nth k (vadd a b) 0 = nth k a 0 + nth k b 0.
Proof.
  unfold vadd. revert b k.
  induction a as [|x a IH]; intros [|y b] [|k] H; simpl in *;
    try discriminate; try lra; auto.
Qed.

Lemma nth_vscale (c : R) (a : vec) (k : nat) :
  nth k (vscale c a) 0 = c * nth k a 0.
Proof.
  unfold vscale. revert k.
  induction a as [|x a IH]; intros [|k]; simpl; try lra; auto.
Qed.

Lemma nth_vneg (a : vec) (k : nat) : nth k (vneg a) 0 = - nth k a 0.
Proof.
  unfold vneg. revert k.
  induction a as [|x a IH]; intros [|k]; simpl; try lra; auto.
Qed.

Lemma nth_map_seq (f : nat -> R) (n i : nat) :
  (i < n)%nat -> nth i (map f (seq 0 n)) 0 = f i.
Proof.
  intros Hi.
  rewrite (nth_indep _ 0 (f 0%nat)) by (rewrite length_map, length_seq; exact Hi).
  rewrite (map_nth f), seq_nth by exact Hi. reflexivity.
Qed.

Lemma map2_repeat_l {A B C : Type} (f : A -> B -> C) (x : A) (v : list B) :
  map2 f (repeat x (length v)) v = map (f x) v.
Proof. induction v as [|b v IH]; simpl; [reflexivity | now rewrite IH]. Qed.

Lemma nth_map_0 (h : R -> R) (g : vec) (l : nat) :
  (l < length g)%nat -> nth l (map h g) 0 = h (nth l g 0).
Proof.
  intros Hl. rewrite (nth_indep _ 0 (h 0)) by (rewrite length_map; exact Hl).
  apply map_nth.
Qed.

Lemma vmul_as_seq (u v : vec) (n : nat) :
  length u = n -> length v = n ->
  vmul u v = map (fun l => nth l u 0 * nth l v 0) (seq 0 n).
Proof.
  intros Hu Hv. apply (nth_ext _ _ 0 0).
  - unfold vmul. rewrite map2_length, length_map, length_seq. lia.
  - intros i Hi. unfold vmul in Hi. rewrite map2_length in Hi.
    rewrite nth_vmul, nth_map_seq by lia. reflexivity.
Qed.

Lemma vsum_map_add {A : Type} (f g : A -> R) (l : list A) :
  vsum (map f l) + vsum (map g l) = vsum (map (fun x => f x + g x) l).
Proof.
  induction l as [|x l IH]; simpl.
  - rewrite vsum_nil. lra.
  - rewrite !vsum_cons, <- IH. lra.
Qed.

Lemma vsum_map_sub {A : Type} (f g : A -> R) (l : list A) :
  vsum (map f l) - vsum (map g l) = vsum (map (fun x => f x - g x) l).
Proof.
  induction l as [|x l IH]; simpl.
  - rewrite vsum_nil. lra.
  - rewrite !vsum_cons, <- IH. lra.
Qed.

Lemma vsum_map_scale {A : Type} (c : R) (g : A -> R) (l : list A) :
  c * vsum (map g l) = vsum (map (fun x => c * g x) l).
Proof.
  induction l as [|x l IH]; simpl.
  - rewrite vsum_nil. lra.
  - rewrite !vsum_cons, <- IH. lra.
Qed.

Lemma vsum_map_zero {A : Type} (g : A -> R) (l : list A) :
  (forall x, g x = 0) -> vsum (map g l) = 0.
Proof.
  intros H. induction l as [|x l IH]; simpl.
  - apply vsum_nil.
  - rewrite vsum_cons, IH, H. lra.
Qed.

Lemma nth_dot (M : mat) (v : vec) (i : nat) :
  nth i (dot M v) 0 = vsum (vmul (nth i M []) v).
Proof.
  unfold dot. change 0 with ((fun row => vsum (vmul row v)) []) at 1.
  apply (map_nth (fun row => vsum (vmul row v))).
Qed.

Lemma mapM_length {A B : Type} (f : A -> res B) (l : list A) (l' : list B) :
  mapM f l = Ok l' -> length l' = length l.
Proof.
  revert l'. induction l as [|x l IH]; intros l' H; simpl in H.
  - injection H as <-. reflexivity.
  - destruct (f x) as [y|]; simpl in H; [| discriminate].
    destruct (mapM f l) as [ys|]; simpl in H; [| discriminate].
    injection H as <-. simpl. f_equal. apply IH. reflexivity.
Qed.

Lemma linspace_length (a b : R) (num : Z) (g : vec) :
  linspace a b num = Ok g -> (0 <= num)%Z /\ length g = Z.to_nat num.
Proof.
  unfold linspace. destruct (Z.ltb_spec num 0) as [Hneg | Hpos];
    [discriminate |].
  intros H. injection H as <-. rewrite length_map, length_seq. auto.
Qed.

Lemma second_minus_first_ok (a : vec) (d : R) :
  second_minus_first a = Ok d -> (2 <= length a)%nat.
Proof.
  destruct a as [|x0 [|x1 a]]; simpl; try discriminate. intros _. lia.
Qed.

Lemma map2_map_same {A B C D : Type} (f : B -> C -> D) (h1 : A -> B)
    (h2 : A -> C) (l : list A) :
  map2 f (map h1 l) (map h2 l) = map (fun x => f (h1 x) (h2 x)) l.
Proof. induction l as [|x l IH]; simpl; [reflexivity | now rewrite IH]. Qed.

Lemma fst_combine {A B : Type} (u : list A) (v : list B) :
  length u = length v -> map fst (combine u v) = u.
Proof.
  revert v. induction u as [|a u IH]; intros [|b v] H; simpl in *;
    try discriminate; auto.
  f_equal. apply IH. lia.
Qed.

Lemma snd_combine {A B : Type} (u : list A) (v : list B) :
  length u = length v -> map snd (combine u v) = v.
Proof.
  revert v. induction u as [|a u IH]; intros [|b v] H; simpl in *;
    try discriminate; auto.
  f_equal. apply IH. lia.
Qed.

Lemma map_nth_seq {A B : Type} (g : A -> B) (Q : list A) (d : A) :
  map (fun j => g (nth j Q d)) (seq 0 (length Q)) = map g Q.
Proof.
  induction Q as [|q Q IH]; simpl; [reflexivity |].
  f_equal. rewrite <- seq_shift, map_map. exact IH.
Qed.

Lemma vdiv_scalar_ok (v : vec) (c : R) :
  c <> 0 -> vdiv_scalar v c = Ok (map (fun x => x / c) v).
Proof.
  intros Hc. unfold vdiv_scalar. induction v as [|x v IH]; simpl;
    [reflexivity |].
  rewrite np_div_ok, IH by exact Hc. reflexivity.
Qed.

Lemma vdiv_map_same {A : Type} (h d : A -> R) (l : list A) :
  (forall x, d x <> 0) ->
  vdiv (map h l) (map d l) = Ok (map (fun x => h x / d x) l).
Proof.
  intros Hd. induction l as [|x l IH]; simpl; [reflexivity |].
  rewrite np_div_ok, IH by apply Hd. reflexivity.
Qed.

Lemma mdiv_map_same {A B : Type} (h d : A -> B -> R) (P : list A)
    (Q : list B) :
  (forall p q, d p q <> 0) ->
  mdiv (map (fun p => map (h p) Q) P) (map (fun p => map (d p) Q) P) =
  Ok (map (fun p => map (fun q => h p q / d p q) Q) P).
Proof.
  intros Hd. induction P as [|p P IH]; simpl; [reflexivity |].
  rewrite vdiv_map_same, IH by apply Hd. reflexivity.
Qed.

Lemma vsum_map_opp {A : Type} (g : A -> R) (l : list A) :
  vsum (map (fun x => - g x) l) = - vsum (map g l).
Proof.
  induction l as [|x l IH]; simpl.
  - rewrite vsum_nil. lra.
  - rewrite !vsum_cons, IH. lra.
Qed.

Lemma for_loop_app {S A : Type} (f : A -> S -> res S) (l l' : list A) (s : S) :
  for_loop f (l ++ l') s = (s' <- for_loop f l s ;; for_loop f l' s').
Proof.
  revert s. induction l as [|x l IH]; intros s; simpl; [reflexivity |].
  destruct (f x s) as [s1|err]; simpl; [apply IH | reflexivity].
Qed.

Lemma combine_snoc {A B : Type} (u : list A) (v : list B) (a : A) (b : B) :
  length u = length v ->
  combine (u ++ [a]) (v ++ [b]) = combine u v ++ [(a, b)].
Proof.
  revert v. induction u as [|x u IH]; intros [|y v] H; simpl in *;
    try discriminate; auto.
  f_equal. apply IH. lia.
Qed.

Lemma second_minus_first_err (a : vec) (e : error) :
  second_minus_first a = Err e -> e = IndexError.
Proof.
  destruct a as [|x0 [|x1 a]]; simpl; intros H; try discriminate;
    injection H as <-; reflexivity.
Qed.

End Arrays.

(** * The continuum scheme *)

Module ContinuumFacts.
Import Continuum ContinuumSpec.

Lemma pos_part_length (a : vec) : length (pos_part a) = length a.
Proof. unfold pos_part, vmul. rewrite map2_length, length_map. lia. Qed.

Lemma neg_part_length (a : vec) : length (neg_part a) = length a.
Proof.
  unfold neg_part, vmul, vneg. rewrite map2_length, !length_map. lia.
Qed.

Lemma nth_pos_part (a : vec) (i : nat) :
  nth i (pos_part a) 0 = Rmax (nth i a 0) 0.
Proof.
  unfold pos_part, vmul. revert i.
  induction a as [|x a IH]; intros [|i]; simpl; auto;
    try (rewrite Rmax_left; lra).
  unfold Rgeb, b2r. destruct (Rge_dec x 0).
  - rewrite Rmax_left; lra.
  - rewrite Rmax_right; lra.
Qed.

Lemma nth_neg_part (a : vec) (i : nat) :
  nth i (neg_part a) 0 = Rmax (- nth i a 0) 0.
Proof.
  unfold neg_part, vmul, vneg. revert i.
  induction a as [|x a IH]; intros [|i]; simpl; auto;
    try (rewrite Rmax_left; lra).
  unfold Rleb, b2r. destruct (Rle_dec x 0).
  - rewrite Rmax_left; lra.
  - rewrite Rmax_right; lra.
Qed.

Lemma pos_part_nonneg (a : vec) (i : nat) : 0 <= nth i (pos_part a) 0.
Proof. rewrite nth_pos_part. apply Rmax_r. Qed.

Lemma neg_part_nonneg (a : vec) (i : nat) : 0 <= nth i (neg_part a) 0.
Proof. rewrite nth_neg_part. apply Rmax_r. Qed.


Lemma nth_but_last (l : vec) (k : nat) :
  (k + 1 < length l)%nat -> nth k (but_last l) 0 = nth k l 0.
Proof.
  unfold but_last. destruct l as [|x l _] using rev_ind; simpl; [lia |].
  rewrite length_app, removelast_last. simpl. intros H.
  rewrite app_nth1 by lia. reflexivity.
Qed.

Lemma nth_from_1 (l : vec) (k : nat) : nth k (from_1 l) 0 = nth (S k) l 0.
Proof. destruct l; simpl; [destruct k |]; reflexivity. Qed.

Lemma nth_skipn_0 (l : vec) (m : nat) : nth 0 (skipn m l) 0 = nth m l 0.
Proof.
  revert l. induction m as [|m IH]; intros [|x l]; simpl; auto.
Qed.

(** One upwind update, on arrays of the same length [n]. *)
Lemma upwind_ok (e : env) (n : nat) (a rho dp gm : vec) :
  length a = n -> length rho = n -> length dp = n -> length gm = n ->
  Dx e <> 0 ->
  exists dp' gm' rho',
    upwind e a rho dp gm = Ok (dp', gm', rho') /\
    length dp' = n /\ length gm' = n /\ length rho' = n /\
    nth 0 dp' 0 = nth 0 dp 0 /\
    nth (n - 1) gm' 0 = nth (n - 1) gm 0 /\
    (forall i, (0 < i < n)%nat ->
       nth i dp' 0 = nth (i - 1) (pos_part a) 0 * nth (i - 1) rho 0) /\
    (forall i, (i + 1 < n)%nat ->
       nth i gm' 0 = nth (i + 1) (neg_part a) 0 * nth (i + 1) rho 0) /\
    (forall i, (i < n)%nat ->
       nth i rho' 0 =
       nth i rho 0
       - Dt e / Dx e * (nth i (pos_part a) 0 * nth i rho 0
                        + nth i (neg_part a) 0 * nth i rho 0
                        - nth i dp' 0 - nth i gm' 0)) /\
    vsum rho' =
    vsum rho
    - Dt e / Dx e * (outflow n a rho - nth 0 dp 0 - nth (n - 1) gm 0).
Proof.
  intros Ha Hrho Hdp Hgm HDx.
  unfold upwind. rewrite (np_div_ok _ _ HDx). simpl.
  set (ap := pos_part a). set (am := neg_part a).
  assert (Hap : length ap = n) by (unfold ap; rewrite pos_part_length; auto).
  assert (Ham : length am = n) by (unfold am; rewrite neg_part_length; auto).
  rewrite (vmul_but_last ap rho) by congruence.
  rewrite (vmul_from_1 am rho).
  set (u := vmul ap rho). set (w := vmul am rho).
  assert (Hu : length u = n) by (apply map2_length_eq; auto).
  assert (Hw : length w = n) by (apply map2_length_eq; auto).
  set (dp' := assign_from_1 dp (but_last u)).
  set (gm' := assign_but_last gm (from_1 w)).
  assert (Hdp' : length dp' = n).
  { unfold dp', assign_from_1. rewrite length_app, length_firstn, but_last_length.
    lia. }
  assert (Hgm' : length gm' = n).
  { unfold gm', assign_but_last. rewrite length_app, length_skipn, from_1_length.
    lia. }
  set (flux := vsub (vsub (vadd u w) dp') gm').
  assert (Huw : length (vadd u w) = n) by (apply map2_length_eq; auto).
  assert (Huwd : length (vsub (vadd u w) dp') = n)
    by (apply map2_length_eq; auto).
  assert (Hflux : length flux = n) by (apply map2_length_eq; auto).
  exists dp', gm', (vsub rho (vscale (Dt e / Dx e) flux)).
  split; [reflexivity |].
  split; [exact Hdp' |]. split; [exact Hgm' |].
  split.
  { apply map2_length_eq; auto. unfold vscale. rewrite length_map. auto. }
  assert (Hdp0 : nth 0 dp' 0 = nth 0 dp 0).
  { unfold dp', assign_from_1. destruct dp as [|d dp0]; simpl.
    - apply nth_overflow. rewrite but_last_length, Hu, <- Hdp. simpl. lia.
    - reflexivity. }
  assert (Hgml : nth (n - 1) gm' 0 = nth (n - 1) gm 0).
  { unfold gm', assign_but_last.
    rewrite app_nth2 by (rewrite from_1_length; lia).
    rewrite from_1_length, Hw, Hgm, Nat.sub_diag. apply nth_skipn_0. }
  split; [exact Hdp0 |]. split; [exact Hgml |].
  assert (Hdpi : forall i, (0 < i < n)%nat ->
            nth i dp' 0 = nth (i - 1) ap 0 * nth (i - 1) rho 0).
  { intros i Hi. unfold dp', assign_from_1.
    destruct dp as [|d dp0]; [simpl in Hdp; lia |].
    simpl firstn. destruct i as [|i]; [lia |]. simpl.
    rewrite Nat.sub_0_r, nth_but_last by lia. apply nth_vmul. }
  assert (Hgmi : forall i, (i + 1 < n)%nat ->
            nth i gm' 0 = nth (i + 1) am 0 * nth (i + 1) rho 0).
  { intros i Hi. unfold gm', assign_but_last.
    rewrite app_nth1 by (rewrite from_1_length; lia).
    rewrite nth_from_1. replace (S i) with (i + 1)%nat by lia. apply nth_vmul. }
  split; [exact Hdpi |]. split; [exact Hgmi |].
  split.
  - intros i Hi. rewrite nth_vsub, nth_vscale.
    2:{ unfold vscale. rewrite length_map. congruence. }
    unfold flux. rewrite !nth_vsub, nth_vadd by congruence.
    unfold u, w. rewrite !nth_vmul. reflexivity.
  - rewrite vsum_vsub, vsum_vscale.
    2:{ unfold vscale. rewrite length_map. congruence. }
    unfold flux. rewrite !vsum_vsub, vsum_vadd by congruence.
    unfold dp', gm', assign_from_1, assign_but_last.
    rewrite !vsum_app, vsum_firstn_1, vsum_but_last, vsum_from_1.
    rewrite <- Hgm at 1. rewrite vsum_skipn_last, Hu, Hgm.
    unfold outflow. fold ap am. unfold u, w. rewrite !nth_vmul. lra.
Qed.


Lemma cell_of_nat (v : vec) (i : nat) : cell v (Z.of_nat i) = nth i v 0.
Proof.
  unfold cell. destruct (Z.ltb_spec (Z.of_nat i) 0); [lia |].
  rewrite Nat2Z.id. reflexivity.
Qed.

Lemma cell_succ (v : vec) (i : nat) : cell v (Z.of_nat i + 1) = nth (i + 1) v 0.
Proof.
  replace (Z.of_nat i + 1)%Z with (Z.of_nat (i + 1)) by lia. apply cell_of_nat.
Qed.

Lemma cell_pred (v : vec) (i : nat) :
  cell v (Z.of_nat i - 1) = match i with O => 0 | S j => nth j v 0 end.
Proof.
  destruct i as [|j].
  - reflexivity.
  - replace (Z.of_nat (S j) - 1)%Z with (Z.of_nat j) by lia. apply cell_of_nat.
Qed.

Lemma nth_spec_update (lam : R) (a rho : vec) (n i : nat) :
  (i < n)%nat ->
  nth i (spec_update lam a rho n) 0 =
  nth i rho 0 - lam * (spec_flux a rho (Z.of_nat i)
                       - spec_flux a rho (Z.of_nat i - 1)).
Proof.
  intros Hi. unfold spec_update. rewrite nth_map_seq by exact Hi. reflexivity.
Qed.

(** With the two untouched buffer cells at 0, the update is the upwind
    formula of the specification and its sum changes by the outflow only. *)
Lemma upwind_closed (e : env) (n : nat) (a rho dp gm : vec) :
  length a = n -> length rho = n -> length dp = n -> length gm = n ->
  nth 0 dp 0 = 0 -> nth (n - 1) gm 0 = 0 ->
  Dx e <> 0 ->
  exists dp' gm',
    upwind e a rho dp gm = Ok (dp', gm', spec_update (Dt e / Dx e) a rho n) /\
    length dp' = n /\ length gm' = n /\
    nth 0 dp' 0 = 0 /\ nth (n - 1) gm' 0 = 0 /\
    vsum (spec_update (Dt e / Dx e) a rho n) =
    vsum rho - Dt e / Dx e * outflow n a rho.
Proof.
  intros Ha Hrho Hdp Hgm Hdp0 Hgml HDx.
  destruct (upwind_ok e n a rho dp gm Ha Hrho Hdp Hgm HDx)
    as (dp' & gm' & rho' & Hup & Ldp & Lgm & Lrho & Edp0 & Egml & Edp & Egm
        & Erho & Esum).
  assert (Heq : rho' = spec_update (Dt e / Dx e) a rho n).
  { apply (nth_ext _ _ 0 0).
    - unfold spec_update. rewrite length_map, length_seq. exact Lrho.
    - intros i Hi. rewrite Lrho in Hi.
      rewrite (Erho i Hi), (nth_spec_update _ _ _ _ _ Hi).
      unfold spec_flux.
      rewrite !cell_of_nat, !cell_succ, !cell_pred, <- !nth_pos_part,
        <- !nth_neg_part.
      replace (Z.of_nat i - 1 + 1)%Z with (Z.of_nat i) by lia.
      rewrite !cell_of_nat, <- nth_neg_part.
      assert (G : nth i gm' 0 =
                  nth (i + 1) (neg_part a) 0 * nth (i + 1) rho 0).
      { destruct (Nat.lt_ge_cases (i + 1) n) as [Hlt | Hge].
        - apply Egm. exact Hlt.
        - replace i with (n - 1)%nat at 1 by lia.
          rewrite Egml, Hgml, (nth_overflow rho) by lia. lra. }
      rewrite G. destruct i as [|j].
      + rewrite Edp0, Hdp0. simpl. lra.
      + rewrite (Edp (S j)) by lia. simpl. rewrite Nat.sub_0_r.
        rewrite <- nth_pos_part. lra. }
  subst rho'. exists dp', gm'.
  repeat split; auto; try congruence.
  rewrite Esum, Hdp0, Hgml. lra.
Qed.


Lemma vsum_spec_update (e : env) (n : nat) (a rho : vec) :
  length a = n -> length rho = n -> Dx e <> 0 ->
  vsum (spec_update (Dt e / Dx e) a rho n) =
  vsum rho - Dt e / Dx e * outflow n a rho.
Proof.
  intros Ha Hrho HDx.
  destruct (upwind_closed e n a rho (zeros n) (zeros n)) as (? & ? & H);
    auto; try apply repeat_length; try apply nth_repeat.
  apply H.
Qed.

Lemma spec_update_length (lam : R) (a rho : vec) (n : nat) :
  length (spec_update lam a rho n) = n.
Proof. unfold spec_update. rewrite length_map, length_seq. reflexivity. Qed.

Lemma dot_length (M : mat) (v : vec) : length (dot M v) = length M.
Proof. unfold dot. apply length_map. Qed.

Lemma velocities_length (e : env) (n : nat) (s : store) :
  wf n s ->
  length (a1 (velocities e s)) = n /\ length (a2 (velocities e s)) = n.
Proof.
  intros [].
  simpl. unfold vneg, vadd, vsub, vscale.
  rewrite !length_map, !map2_length, !length_map, !dot_length. lia.
Qed.

(** One pass through the numerical part of the loop body. *)
Lemma step_ok (e : env) (n : nat) (s : store) :
  wf n s -> Dx e <> 0 ->
  exists s',
    step e s = Ok s' /\ wf n s' /\
    W1p s' = W1p s /\ W2p s' = W2p s /\ Kp s' = Kp s /\
    cpt s' = cpt s /\ n_var s' = n_var s /\
    a1 s' = a1 (velocities e s) /\ a2 s' = a2 (velocities e s) /\
    rho1 s' = spec_update (Dt e / Dx e) (a1 (velocities e s)) (rho1 s) n /\
    rho2 s' = spec_update (Dt e / Dx e) (a2 (velocities e s)) (rho2 s) n.
Proof.
  intros Hwf HDx.
  destruct (velocities_length e n s Hwf) as [La1 La2].
  destruct Hwf.
  destruct (upwind_closed e n (a1 (velocities e s)) (rho1 s) (rho1_dp s)
              (rho1_gm s)) as (dp1 & gm1 & U1 & Ldp1 & Lgm1 & Zdp1 & Zgm1 & _);
    auto.
  destruct (upwind_closed e n (a2 (velocities e s)) (rho2 s) (rho2_dp s)
              (rho2_gm s)) as (dp2 & gm2 & U2 & Ldp2 & Lgm2 & Zdp2 & Zgm2 & _);
    auto.
  unfold step, update_rho1.
  change (rho1 (velocities e s)) with (rho1 s).
  change (rho1_dp (velocities e s)) with (rho1_dp s).
  change (rho1_gm (velocities e s)) with (rho1_gm s).
  rewrite U1. cbn [bind]. unfold update_rho2. cbn [a2 rho2 rho2_dp rho2_gm].
  change (rho2 (velocities e s)) with (rho2 s).
  change (rho2_dp (velocities e s)) with (rho2_dp s).
  change (rho2_gm (velocities e s)) with (rho2_gm s).
  rewrite U2. cbn [bind].
  eexists. split; [reflexivity |].
  split.
  { constructor; cbn; auto using spec_update_length. }
  cbn. repeat split; reflexivity.
Qed.

Lemma bookkeeping_wf (n k : nat) (s : store) : wf n s -> wf n (bookkeeping k s).
Proof. intros []. constructor; cbn; auto. Qed.

Lemma body_ok (e : env) (n : nat) (it : nat * R) (s : store) :
  wf n s -> Dx e <> 0 ->
  exists s', step e s = Ok s' /\ body e it s = Ok (bookkeeping (fst it) s').
Proof.
  intros Hwf HDx. destruct (step_ok e n s Hwf HDx) as (s' & Hs & _).
  exists s'. split; [exact Hs |]. unfold body. rewrite Hs. reflexivity.
Qed.

Lemma firstn_S_nth_error {A : Type} (l : list A) (k : nat) :
  firstn (S k) l =
  match nth_error l k with
  | Some x => firstn k l ++ [x]
  | None => firstn k l
  end.
Proof.
  revert k. induction l as [|a l IH]; intros k.
  - destruct k; reflexivity.
  - destruct k as [|k]; [reflexivity |].
    change (firstn (S (S k)) (a :: l)) with (a :: firstn (S k) l).
    rewrite IH. simpl. destruct (nth_error l k); reflexivity.
Qed.

Lemma iter_S (e : env) (k : nat) (s : store) :
  iter e (S k) s =
  match nth_error (enumerate (T e)) k with
  | Some it => (s' <- iter e k s ;; body e it s')
  | None => iter e k s
  end.
Proof.
  unfold iter. rewrite firstn_S_nth_error.
  destruct (nth_error (enumerate (T e)) k) as [it|]; [| reflexivity].
  rewrite for_loop_app. destruct (for_loop _ _ s) as [s'|err]; simpl;
    [| reflexivity].
  destruct (body e it s'); reflexivity.
Qed.

(** Every prefix of the loop goes through, keeps the shapes and the two
    untouched buffer cells, and leaves the kernel matrices alone. *)
Lemma iter_ok (e : env) (n : nat) (s0 : store) (k : nat) :
  wf n s0 -> Dx e <> 0 ->
  exists s, iter e k s0 = Ok s /\ wf n s /\
            W1p s = W1p s0 /\ W2p s = W2p s0 /\ Kp s = Kp s0.
Proof.
  intros Hwf HDx. induction k as [|k (s & Hs & Hwfs & M1 & M2 & M3)].
  - exists s0. split; [reflexivity | auto].
  - rewrite iter_S. destruct (nth_error _ k) as [it|].
    + rewrite Hs. cbn [bind].
      destruct (step_ok e n s Hwfs HDx)
        as (s' & Hstep & Hwf' & F1 & F2 & F3 & _).
      unfold body. rewrite Hstep. cbn [bind].
      eexists. split; [reflexivity |].
      split; [apply bookkeeping_wf; exact Hwf' |].
      cbn. repeat split; congruence.
    + exists s. auto.
Qed.

Lemma outflow_nonneg (n : nat) (a rho : vec) :
  0 <= nth 0 rho 0 -> 0 <= nth (n - 1) rho 0 -> 0 <= outflow n a rho.
Proof.
  intros H0 Hl. unfold outflow.
  pose proof (pos_part_nonneg a (n - 1)). pose proof (neg_part_nonneg a 0).
  nra.
Qed.

Lemma outflow_empty (n : nat) (a rho : vec) :
  empty_boundary n rho -> outflow n a rho = 0.
Proof. intros [H0 Hl]. unfold outflow. rewrite H0, Hl. lra. Qed.

(** C7.  In exact arithmetic one step changes the sum of each density by
    the outflow through the two end cells only:
    [sum rho' = sum rho - (Dt/Dx) (a+[n-1] rho[n-1] + a-[0] rho[0])] with
    [a+ = max(a, 0)] and [a- = max(-a, 0)];
    cell 0 of [rho*_dp] and cell [n-1] of [rho*_gm] are 0 again after the
    step; the sum does not grow when [Dt/Dx] and the two end cells of the
    density are non-negative. *)
Theorem mass_balance (e : env) (n : nat) (s : store) :
  wf n s -> Dx e <> 0 ->
  exists s',
    step e s = Ok s' /\
    (nth 0 (rho1_dp s') 0 = 0 /\ nth (n - 1) (rho1_gm s') 0 = 0 /\
     nth 0 (rho2_dp s') 0 = 0 /\ nth (n - 1) (rho2_gm s') 0 = 0) /\
    vsum (rho1 s') =
      vsum (rho1 s)
      - Dt e / Dx e
        * (Rmax (nth (n - 1) (a1 (velocities e s)) 0) 0 * nth (n - 1) (rho1 s) 0
           + Rmax (- nth 0 (a1 (velocities e s)) 0) 0 * nth 0 (rho1 s) 0) /\
    vsum (rho2 s') =
      vsum (rho2 s)
      - Dt e / Dx e
        * (Rmax (nth (n - 1) (a2 (velocities e s)) 0) 0 * nth (n - 1) (rho2 s) 0
           + Rmax (- nth 0 (a2 (velocities e s)) 0) 0 * nth 0 (rho2 s) 0) /\
    (0 <= Dt e / Dx e ->
     0 <= nth 0 (rho1 s) 0 -> 0 <= nth (n - 1) (rho1 s) 0 ->
     vsum (rho1 s') <= vsum (rho1 s)) /\
    (0 <= Dt e / Dx e ->
     0 <= nth 0 (rho2 s) 0 -> 0 <= nth (n - 1) (rho2 s) 0 ->
     vsum (rho2 s') <= vsum (rho2 s)).
Proof.
  intros Hwf HDx.
  destruct (step_ok e n s Hwf HDx)
    as (s' & Hs & Hwf' & _ & _ & _ & _ & _ & _ & _ & E1 & E2).
  destruct (velocities_length e n s Hwf) as [La1 La2].
  exists s'. split; [exact Hs |].
  split; [destruct Hwf'; auto |].
  assert (S1 := vsum_spec_update e n _ (rho1 s) La1 (wf_rho1 _ _ Hwf) HDx).
  assert (S2 := vsum_spec_update e n _ (rho2 s) La2 (wf_rho2 _ _ Hwf) HDx).
  rewrite <- E1 in S1. rewrite <- E2 in S2.
  pose proof (outflow_nonneg n (a1 (velocities e s)) (rho1 s)) as O1.
  pose proof (outflow_nonneg n (a2 (velocities e s)) (rho2 s)) as O2.
  unfold outflow in S1, S2, O1, O2.
  rewrite nth_pos_part, nth_neg_part in S1, S2, O1, O2.
  split; [exact S1 |]. split; [exact S2 |].
  split.
  - intros Hlam H0 Hl. rewrite S1. specialize (O1 H0 Hl). nra.
  - intros Hlam H0 Hl. rewrite S2. specialize (O2 H0 Hl). nra.
Qed.

(** C1.  At every time step [k] of a run, the update leaves the sum of a
    density unchanged when its first and last cells are empty, and cannot
    increase it when these two cells (and [Dt/Dx]) are non-negative. *)
Theorem mass_conserved_away_from_boundary (e : env) (n : nat) (s0 : store)
    (k : nat) :
  wf n s0 -> Dx e <> 0 ->
  exists s s',
    iter e k s0 = Ok s /\ step e s = Ok s' /\
    (empty_boundary n (rho1 s) -> vsum (rho1 s') = vsum (rho1 s)) /\
    (empty_boundary n (rho2 s) -> vsum (rho2 s') = vsum (rho2 s)) /\
    (0 <= Dt e / Dx e ->
     0 <= nth 0 (rho1 s) 0 -> 0 <= nth (n - 1) (rho1 s) 0 ->
     vsum (rho1 s') <= vsum (rho1 s)) /\
    (0 <= Dt e / Dx e ->
     0 <= nth 0 (rho2 s) 0 -> 0 <= nth (n - 1) (rho2 s) 0 ->
     vsum (rho2 s') <= vsum (rho2 s)).
Proof.
  intros Hwf0 HDx.
  destruct (iter_ok e n s0 k Hwf0 HDx) as (s & Hit & Hwf & _).
  destruct (step_ok e n s Hwf HDx)
    as (s' & Hs & _ & _ & _ & _ & _ & _ & _ & _ & E1 & E2).
  destruct (velocities_length e n s Hwf) as [La1 La2].
  assert (S1 := vsum_spec_update e n _ (rho1 s) La1 (wf_rho1 _ _ Hwf) HDx).
  assert (S2 := vsum_spec_update e n _ (rho2 s) La2 (wf_rho2 _ _ Hwf) HDx).
  rewrite <- E1 in S1. rewrite <- E2 in S2.
  exists s, s'. split; [exact Hit |]. split; [exact Hs |].
  repeat split.
  - intros Hb. rewrite S1, (outflow_empty _ _ _ Hb). lra.
  - intros Hb. rewrite S2, (outflow_empty _ _ _ Hb). lra.
  - intros Hlam H0 Hl. rewrite S1.
    pose proof (outflow_nonneg n (a1 (velocities e s)) (rho1 s) H0 Hl). nra.
  - intros Hlam H0 Hl. rewrite S2.
    pose proof (outflow_nonneg n (a2 (velocities e s)) (rho2 s) H0 Hl). nra.
Qed.

(** C2.  Every step replaces each density by
    [rho_i - (Dt/Dx) (F_(i+1/2) - F_(i-1/2))] with the donor-cell flux
    [F_(i+1/2) = max(a_i,0) rho_i - max(-a_(i+1),0) rho_(i+1)], the arrays
    being zero outside the domain; [a*(a>=0)] and [-a*(a<=0)] are
    [max(a,0)] and [max(-a,0)], both 0 where [a] is 0. *)
Theorem step_is_upwind (e : env) (n : nat) (s : store) :
  wf n s -> Dx e <> 0 ->
  exists s',
    step e s = Ok s' /\
    rho1 s' = spec_update (Dt e / Dx e) (a1 (velocities e s)) (rho1 s) n /\
    rho2 s' = spec_update (Dt e / Dx e) (a2 (velocities e s)) (rho2 s) n /\
    (forall a i, nth i (pos_part a) 0 = Rmax (nth i a 0) 0 /\
                 nth i (neg_part a) 0 = Rmax (- nth i a 0) 0 /\
                 (nth i a 0 = 0 ->
                  nth i (pos_part a) 0 = 0 /\ nth i (neg_part a) 0 = 0)) /\
    (forall a rho, spec_flux a rho (-1) = - Rmax (- nth 0 a 0) 0 * nth 0 rho 0) /\
    (forall a rho, length a = n -> length rho = n ->
       spec_flux a rho (Z.of_nat n - 1) =
       Rmax (nth (n - 1) a 0) 0 * nth (n - 1) rho 0).
Proof.
  intros Hwf HDx.
  destruct (step_ok e n s Hwf HDx)
    as (s' & Hs & _ & _ & _ & _ & _ & _ & _ & _ & E1 & E2).
  exists s'. split; [exact Hs |]. split; [exact E1 |]. split; [exact E2 |].
  split; [| split].
  - intros a i. split; [apply nth_pos_part |]. split; [apply nth_neg_part |].
    intros H. rewrite nth_pos_part, nth_neg_part, H, Ropp_0.
    split; apply Rmax_left; lra.
  - intros a rho. unfold spec_flux. change (-1 + 1)%Z with (Z.of_nat 0).
    rewrite !cell_of_nat. change (cell a (-1)) with 0.
    change (cell rho (-1)) with 0. lra.
  - intros a rho Ha Hrho. unfold spec_flux.
    replace (Z.of_nat n - 1 + 1)%Z with (Z.of_nat n) by lia.
    rewrite !cell_of_nat, !cell_pred.
    rewrite (nth_overflow rho) by lia. rewrite Rmult_0_r, Rminus_0_r.
    destruct n as [|m]; simpl.
    + destruct a, rho; simpl; try discriminate. lra.
    + rewrite Nat.sub_0_r. reflexivity.
Qed.


Lemma Rmax_parts (x : R) : Rmax x 0 + Rmax (- x) 0 = Rabs x.
Proof.
  unfold Rmax, Rabs.
  destruct (Rle_dec x 0), (Rle_dec (- x) 0), (Rcase_abs x); lra.
Qed.

Lemma max_abs_nonneg (a : vec) : 0 <= max_abs a.
Proof.
  unfold max_abs. destruct a as [|x a]; simpl; [lra |].
  eapply Rle_trans; [apply Rabs_pos | apply Rmax_l].
Qed.

Lemma max_abs_bound (a : vec) (i : nat) : Rabs (nth i a 0) <= max_abs a.
Proof.
  unfold max_abs. revert i. induction a as [|x a IH]; intros i.
  - destruct i; simpl; rewrite Rabs_R0; lra.
  - destruct i as [|i]; simpl.
    + apply Rmax_l.
    + eapply Rle_trans; [apply IH | apply Rmax_r].
Qed.

Lemma cfl_cell (e : env) (a : vec) (i : nat) :
  0 <= Dt e -> 0 < Dx e -> cfl e a -> Dt e / Dx e * Rabs (nth i a 0) <= 1.
Proof.
  intros HDt HDx H. unfold cfl in H.
  pose proof (max_abs_bound a i) as Hb.
  assert (Hl : 0 <= Dt e / Dx e).
  { apply Rmult_le_pos; [exact HDt |]. left. apply Rinv_0_lt_compat. exact HDx. }
  replace (Dt e * max_abs a / Dx e) with (Dt e / Dx e * max_abs a) in H
    by (field; lra).
  nra.
Qed.

Lemma cell_nonneg (rho : vec) (i : Z) : nonneg rho -> 0 <= cell rho i.
Proof.
  intros H. unfold cell. destruct (i <? 0)%Z; [lra |].
  destruct (Nat.lt_ge_cases (Z.to_nat i) (length rho)) as [Hlt | Hge].
  - unfold nonneg in H. rewrite Forall_forall in H. apply H, nth_In, Hlt.
  - rewrite nth_overflow by exact Hge. lra.
Qed.

(** The upwind formula keeps a density non-negative under the CFL bound. *)
Lemma spec_update_nonneg (lam : R) (a rho : vec) (n : nat) :
  0 <= lam -> (forall i, lam * Rabs (nth i a 0) <= 1) ->
  nonneg rho -> nonneg (spec_update lam a rho n).
Proof.
  intros Hlam Hcfl Hrho. unfold nonneg. apply Forall_forall. intros x Hx.
  apply (In_nth _ _ 0) in Hx. destruct Hx as (i & Hi & <-).
  rewrite spec_update_length in Hi. rewrite nth_spec_update by exact Hi.
  unfold spec_flux. replace (Z.of_nat i - 1 + 1)%Z with (Z.of_nat i) by lia.
  rewrite !cell_of_nat.
  pose proof (Rmax_parts (nth i a 0)) as Hp.
  pose proof (Hcfl i) as Hc.
  pose proof (Rmax_r (nth i a 0) 0) as P1.
  pose proof (Rmax_r (- nth i a 0) 0) as P2.
  pose proof (Rmax_r (- cell a (Z.of_nat i + 1)) 0) as P3.
  pose proof (Rmax_r (cell a (Z.of_nat i - 1)) 0) as P4.
  pose proof (cell_nonneg rho (Z.of_nat i + 1) Hrho) as R3.
  pose proof (cell_nonneg rho (Z.of_nat i - 1) Hrho) as R4.
  pose proof (cell_nonneg rho (Z.of_nat i) Hrho) as R0.
  rewrite cell_of_nat in R0.
  set (r := nth i rho 0) in *. set (p := Rmax (nth i a 0) 0) in *.
  set (m := Rmax (- nth i a 0) 0) in *.
  set (m' := Rmax (- cell a (Z.of_nat i + 1)) 0) in *.
  set (p' := Rmax (cell a (Z.of_nat i - 1)) 0) in *.
  set (r3 := cell rho (Z.of_nat i + 1)) in *.
  set (r4 := cell rho (Z.of_nat i - 1)) in *.
  rewrite <- Hp in Hc.
  assert (0 <= r * (1 - lam * (p + m))) by (apply Rmult_le_pos; lra).
  assert (0 <= lam * (m' * r3)) by (repeat apply Rmult_le_pos; lra).
  assert (0 <= lam * (p' * r4)) by (repeat apply Rmult_le_pos; lra).
  lra.
Qed.

(** C6.  If the two densities are non-negative at the start and the CFL
    condition [Dt max(|a|) / Dx <= 1] holds for the velocity fields of every
    step taken, for step sizes [Dt >= 0] and [Dx > 0], then the densities
    are non-negative after every step. *)
Theorem nonnegative_under_cfl (e : env) (n : nat) (s0 : store) (k : nat) :
  wf n s0 -> 0 <= Dt e -> 0 < Dx e ->
  nonneg (rho1 s0) -> nonneg (rho2 s0) ->
  (forall j s, (j < k)%nat -> iter e j s0 = Ok s ->
     cfl e (a1 (velocities e s)) /\ cfl e (a2 (velocities e s))) ->
  exists s, iter e k s0 = Ok s /\ nonneg (rho1 s) /\ nonneg (rho2 s).
Proof.
  intros Hwf0 HDt HDx H1 H2.
  assert (HDx' : Dx e <> 0) by lra.
  assert (Hlam : 0 <= Dt e / Dx e).
  { apply Rmult_le_pos; [exact HDt |]. left. apply Rinv_0_lt_compat. exact HDx. }
  induction k as [|k IH]; intros Hcfl.
  - exists s0. split; [reflexivity | auto].
  - destruct IH as (s & Hs & N1 & N2).
    { intros j s' Hj. apply Hcfl. lia. }
    rewrite iter_S. destruct (nth_error _ k) as [it|]; [| exists s; auto].
    destruct (iter_ok e n s0 k Hwf0 HDx') as (s_ & Hs_ & Hwf & _).
    assert (s_ = s) by congruence. subst s_.
    destruct (step_ok e n s Hwf HDx')
      as (s' & Hstep & _ & _ & _ & _ & _ & _ & _ & _ & E1 & E2).
    destruct (Hcfl k s (Nat.lt_succ_diag_r k) Hs) as [C1 C2].
    rewrite Hs. cbn [bind]. unfold body. rewrite Hstep. cbn [bind].
    eexists. split; [reflexivity |]. cbn [bookkeeping rho1 rho2].
    rewrite E1, E2. split; apply spec_update_nonneg; auto;
      intros i; apply cfl_cell; auto.
Qed.


Lemma kernel_matrix_row (f : R -> R) (g : vec) (n i : nat) :
  length g = n -> (i < n)%nat ->
  nth i (kernel_matrix f g n) [] = map (fun xl => f (nth i g 0 - xl)) g.
Proof.
  intros Hg Hi. unfold kernel_matrix, mmap, tile_column. rewrite !map_map.
  rewrite (nth_indep _ [] ((fun x => map f (vsub (repeat x n) g)) 0))
    by (rewrite length_map; lia).
  rewrite (map_nth (fun x => map f (vsub (repeat x n) g))).
  unfold vsub. rewrite <- Hg, map2_repeat_l, map_map. reflexivity.
Qed.

Lemma kernel_matrix_length (f : R -> R) (g : vec) (n : nat) :
  length (kernel_matrix f g n) = length g.
Proof. unfold kernel_matrix, mmap, tile_column. rewrite !length_map. reflexivity. Qed.

Lemma kernel_matrix_entry (f : R -> R) (g : vec) (n i j : nat) :
  length g = n -> (i < n)%nat -> (j < n)%nat ->
  nth j (nth i (kernel_matrix f g n) []) 0 = f (nth i g 0 - nth j g 0).
Proof.
  intros Hg Hi Hj. rewrite kernel_matrix_row by assumption.
  apply (nth_map_0 (fun xl => f (nth i g 0 - xl))). lia.
Qed.

(** A row of a kernel matrix times a density, as a sum over the grid. *)
Lemma kernel_dot (f : R -> R) (g rho : vec) (n i : nat) :
  length g = n -> length rho = n -> (i < n)%nat ->
  nth i (dot (kernel_matrix f g n) rho) 0 =
  vsum (map (fun l => nth l rho 0 * f (nth i g 0 - nth l g 0)) (seq 0 n)).
Proof.
  intros Hg Hrho Hi. rewrite nth_dot, kernel_matrix_row by assumption.
  rewrite (vmul_as_seq _ rho n) by (rewrite ?length_map; assumption).
  f_equal. apply map_ext_in. intros l Hl. apply in_seq in Hl.
  rewrite (nth_map_0 (fun xl => f (nth i g 0 - xl))) by lia. lra.
Qed.

(** The two velocity fields, cell by cell. *)
Lemma velocities_spec (c : config) (e : env) (n : nat) (s : store) (i : nat) :
  wf n s -> kernels_from c e n s -> e_beta e = beta c -> (i < n)%nat ->
  nth i (a1 (velocities e s)) 0 = spec_a1 c (grid e) (rho1 s) (rho2 s) i /\
  nth i (a2 (velocities e s)) 0 = spec_a2 c (grid e) (rho1 s) (rho2 s) i.
Proof.
  intros Hwf (Hg & EW1 & EW2 & EK) Hbeta Hi. cbn [velocities a1 a2].
  pose proof (wf_rho1 _ _ Hwf) as L1. pose proof (wf_rho2 _ _ Hwf) as L2.
  rewrite !nth_vneg, nth_vadd, nth_vsub, nth_vscale, EW1, EW2, EK.
  2, 3: unfold vscale; rewrite ?length_map, !dot_length; destruct Hwf;
          congruence.
  rewrite !kernel_dot by assumption.
  unfold spec_a1, spec_a2. rewrite Hg, Hbeta.
  rewrite vsum_map_add, vsum_map_scale, vsum_map_sub. auto.
Qed.

(** C3.  The kernel matrices hold the kernel derivatives at the pairwise
    grid differences; the velocities are [a1 = -(W1' @ rho1 + K' @ rho2)] and
    [a2 = -(W2' @ rho2 - beta K' @ rho1)], that is, cell by cell, the sums of
    the specification; computing them changes neither the densities nor the
    kernel matrices. *)
Theorem velocity_fields (c : config) (e : env) (n : nat) (s : store) :
  wf n s -> kernels_from c e n s -> e_beta e = beta c ->
  (forall i j, (i < n)%nat -> (j < n)%nat ->
     nth j (nth i (W1p s) []) 0 = dxW1 c (nth i (grid e) 0 - nth j (grid e) 0) /\
     nth j (nth i (W2p s) []) 0 = dxW2 c (nth i (grid e) 0 - nth j (grid e) 0) /\
     nth j (nth i (Kp s) []) 0 = dxK c (nth i (grid e) 0 - nth j (grid e) 0)) /\
  a1 (velocities e s) = vneg (vadd (dot (W1p s) (rho1 s)) (dot (Kp s) (rho2 s))) /\
  a2 (velocities e s) =
    vneg (vsub (dot (W2p s) (rho2 s)) (vscale (beta c) (dot (Kp s) (rho1 s)))) /\
  (forall i, (i < n)%nat ->
     nth i (a1 (velocities e s)) 0 = spec_a1 c (grid e) (rho1 s) (rho2 s) i /\
     nth i (a2 (velocities e s)) 0 = spec_a2 c (grid e) (rho1 s) (rho2 s) i) /\
  rho1 (velocities e s) = rho1 s /\ rho2 (velocities e s) = rho2 s /\
  W1p (velocities e s) = W1p s /\ W2p (velocities e s) = W2p s /\
  Kp (velocities e s) = Kp s.
Proof.
  intros Hwf HK Hbeta.
  split.
  { destruct HK as (Hg & EW1 & EW2 & EK). intros i j Hi Hj.
    rewrite EW1, EW2, EK. rewrite !kernel_matrix_entry by assumption. auto. }
  split; [reflexivity |].
  split; [cbn; rewrite Hbeta; reflexivity |].
  split; [| cbn; repeat split; reflexivity].
  intros i Hi. apply (velocities_spec c e n s i); assumption.
Qed.

(** What the set-up establishes. *)
Lemma setup_ok (c : config) (e : env) (s0 : store) :
  setup c = Ok (e, s0) ->
  wf (Z.to_nat (Nx c)) s0 /\ kernels_from c e (Z.to_nat (Nx c)) s0 /\
  e_beta e = beta c /\
  (2 <= Nx c)%Z /\ (2 <= Nt c)%Z /\ length (T e) = Z.to_nat (Nt c) /\
  n_var s0 = None.
Proof.
  unfold setup. intros H.
  apply bind_ok in H. destruct H as (g & Hg & H).
  apply bind_ok in H. destruct H as (dx & Hdx & H).
  apply bind_ok in H. destruct H as (t & Ht & H).
  apply bind_ok in H. destruct H as (dt & Hdt & H).
  apply bind_ok in H. destruct H as (r1 & Hr1 & H).
  apply bind_ok in H. destruct H as (r2 & Hr2 & H).
  injection H as <- <-.
  apply linspace_length in Hg. destruct Hg as [Hnx Lg].
  apply linspace_length in Ht. destruct Ht as [Hnt Lt].
  apply second_minus_first_ok in Hdx. apply second_minus_first_ok in Hdt.
  apply mapM_length in Hr1. apply mapM_length in Hr2.
  rewrite length_map in Hr1, Hr2.
  split.
  { constructor; cbn; rewrite ?kernel_matrix_length; unfold zeros;
      rewrite ?repeat_length; try congruence; apply nth_repeat. }
  split; [unfold kernels_from; cbn; auto |].
  cbn. repeat split; auto; lia.
Qed.


Lemma spec_update_still (lam : R) (a rho : vec) (n : nat) :
  length rho = n -> (forall i, nth i a 0 = 0) -> spec_update lam a rho n = rho.
Proof.
  intros Hrho Ha. apply (nth_ext _ _ 0 0).
  - rewrite spec_update_length. auto.
  - intros i Hi. rewrite spec_update_length in Hi.
    rewrite nth_spec_update by exact Hi.
    assert (Hc : forall j, cell a j = 0).
    { intros j. unfold cell. destruct (j <? 0)%Z; auto. }
    unfold spec_flux. rewrite !Hc, Ropp_0, Rmax_left by lra. lra.
Qed.

(** With kernels that vanish everywhere both velocity fields are 0. *)
Lemma velocities_zero (c : config) (e : env) (n : nat) (s : store) :
  wf n s -> kernels_from c e n s -> e_beta e = beta c ->
  (forall x, dxW1 c x = 0) -> (forall x, dxW2 c x = 0) ->
  (forall x, dxK c x = 0) ->
  forall i, nth i (a1 (velocities e s)) 0 = 0 /\
            nth i (a2 (velocities e s)) 0 = 0.
Proof.
  intros Hwf HK Hbeta Z1 Z2 ZK i.
  destruct (velocities_length e n s Hwf) as [La1 La2].
  destruct (Nat.lt_ge_cases i n) as [Hi | Hi].
  - destruct (velocities_spec c e n s i Hwf HK Hbeta Hi) as [-> ->].
    unfold spec_a1, spec_a2.
    rewrite !vsum_map_zero; [lra | |]; intros l; rewrite ?Z1, ?Z2, ?ZK; lra.
  - rewrite !nth_overflow by lia. auto.
Qed.

(** The loop of a run binds [n] to every index of [T] in turn. *)
Lemma iter_steps (e : env) (n : nat) (s0 : store) (k : nat) :
  wf n s0 -> Dx e <> 0 -> n_var s0 = None -> (k <= length (T e))%nat ->
  exists s, iter e k s0 = Ok s /\ steps_done s = k.
Proof.
  intros Hwf HDx Hn0 Hk. induction k as [|k IH].
  - exists s0. split; [reflexivity |]. unfold steps_done. rewrite Hn0. auto.
  - destruct IH as (s & Hs & Hd); [lia |].
    rewrite iter_S.
    destruct (nth_error (enumerate (T e)) k) as [it|] eqn:Hit.
    + destruct (iter_ok e n s0 k Hwf HDx) as (s_ & Hs_ & Hwfs & _).
      assert (s_ = s) by congruence. subst s_.
      destruct (body_ok e n it s Hwfs HDx) as (s' & _ & Hb).
      rewrite Hs. cbn [bind]. rewrite Hb. eexists. split; [reflexivity |].
      unfold steps_done. cbn. f_equal.
      unfold enumerate in Hit.
      apply nth_error_nth with (d := (0%nat, 0)) in Hit.
      rewrite combine_nth in Hit by (rewrite length_seq; reflexivity).
      rewrite seq_nth in Hit by lia. subst it. reflexivity.
    + apply nth_error_None in Hit. unfold enumerate in Hit.
      rewrite length_combine, length_seq in Hit. lia.
Qed.

Lemma iter_all (e : env) (s : store) : iter e (length (T e)) s = loop e s.
Proof.
  unfold iter, loop. rewrite firstn_all2; [reflexivity |].
  unfold enumerate. rewrite length_combine, length_seq. lia.
Qed.


(** With kernels that vanish everywhere no prefix of the loop changes the
    densities. *)
Lemma iter_still (c : config) (e : env) (n : nat) (s0 : store) (k : nat) :
  wf n s0 -> kernels_from c e n s0 -> e_beta e = beta c -> Dx e <> 0 ->
  (forall x, dxW1 c x = 0) -> (forall x, dxW2 c x = 0) ->
  (forall x, dxK c x = 0) ->
  exists s, iter e k s0 = Ok s /\ rho1 s = rho1 s0 /\ rho2 s = rho2 s0.
Proof.
  intros Hwf0 HK0 Hbeta HDx Z1 Z2 ZK.
  induction k as [|k (s & Hs & R1 & R2)].
  - exists s0. split; [reflexivity | auto].
  - rewrite iter_S. destruct (nth_error _ k) as [it|]; [| exists s; auto].
    destruct (iter_ok e n s0 k Hwf0 HDx) as (s_ & Hs_ & Hwf & M1 & M2 & M3).
    assert (s_ = s) by congruence. subst s_.
    assert (HK : kernels_from c e n s).
    { destruct HK0 as (Hg & E1 & E2 & E3). unfold kernels_from.
      rewrite M1, M2, M3. auto. }
    destruct (step_ok e n s Hwf HDx)
      as (s' & Hstep & _ & _ & _ & _ & _ & _ & _ & _ & E1 & E2).
    rewrite Hs. cbn [bind]. unfold body. rewrite Hstep. cbn [bind].
    eexists. split; [reflexivity |]. cbn [bookkeeping rho1 rho2].
    rewrite E1, E2, !spec_update_still; auto using wf_rho1, wf_rho2;
      intros i; apply (velocities_zero c e n s); assumption.
Qed.

(** A run whose set-up goes through on a grid with [Dx <> 0] passes through
    the loop body once for every one of the [Nt] times. *)
Lemma run_steps (c : config) (e : env) (s0 : store) :
  setup c = Ok (e, s0) -> Dx e <> 0 ->
  exists s, run c = Ok s /\
            steps_done s = Z.to_nat (Nt c) /\
            n_var s = Some (Z.to_nat (Nt c) - 1)%nat.
Proof.
  intros Hsetup HDx.
  destruct (setup_ok c e s0 Hsetup) as (Hwf & _ & _ & _ & HNt & LT & Hn0).
  destruct (iter_steps e _ s0 (length (T e)) Hwf HDx Hn0 (Nat.le_refl _))
    as (s & Hs & Hd).
  rewrite iter_all in Hs. exists s.
  unfold run. rewrite Hsetup. cbn [bind fst snd].
  split; [exact Hs |]. rewrite <- LT. split; [exact Hd |].
  unfold steps_done in Hd. destruct (n_var s) as [m|]; [| lia].
  f_equal. lia.
Qed.

End ContinuumFacts.

(** * The particle scheme *)

Module DiscreteFacts.
Import Discrete DiscreteSpec.

Lemma avoid_zero_pos (r : R) : 0 <= r -> 0 < avoid_zero r.
Proof.
  intros Hr. unfold avoid_zero, Rgtb, Reqb, b2r.
  destruct (Rgt_dec r 0), (Req_dec_T r 0); lra.
Qed.

Lemma avoid_zero_sqrt (x : R) : avoid_zero (sqrt x) <> 0.
Proof. pose proof (avoid_zero_pos (sqrt x) (sqrt_pos x)). lra. Qed.

Lemma avoid_zero_0 : avoid_zero 0 = 1.
Proof.
  unfold avoid_zero, Rgtb, Reqb, b2r.
  destruct (Rgt_dec 0 0), (Req_dec_T 0 0); lra.
Qed.

Lemma avoid_zero_id (r : R) : 0 < r -> avoid_zero r = r.
Proof.
  intros Hr. unfold avoid_zero, Rgtb, Reqb, b2r.
  destruct (Rgt_dec r 0), (Req_dec_T r 0); lra.
Qed.

Lemma norm_zero (dx dy : R) : sqrt (dx ^ 2 + dy ^ 2) = 0 -> dx = 0 /\ dy = 0.
Proof.
  intros H. apply sqrt_eq_0 in H; [| nra]. split; nra.
Qed.

(** The entries computed by the arrays are the gradient of the radial
    potential, 0 on a coincident pair whatever [fprime] is. *)
Lemma entry_x_grad (fprime : R -> R) (dx dy : R) :
  entry_x fprime dx dy = grad_x fprime dx dy.
Proof.
  unfold entry_x, grad_x.
  destruct (Req_dec_T (sqrt (dx ^ 2 + dy ^ 2)) 0) as [H0 | Hn].
  - destruct (norm_zero dx dy H0) as [-> _]. rewrite H0, avoid_zero_0.
    field.
  - pose proof (sqrt_pos (dx ^ 2 + dy ^ 2)).
    rewrite avoid_zero_id by lra. field. exact Hn.
Qed.

Lemma entry_y_grad (fprime : R -> R) (dx dy : R) :
  entry_y fprime dx dy = grad_y fprime dx dy.
Proof.
  unfold entry_y, grad_y.
  destruct (Req_dec_T (sqrt (dx ^ 2 + dy ^ 2)) 0) as [H0 | Hn].
  - destruct (norm_zero dx dy H0) as [_ ->]. rewrite H0, avoid_zero_0.
    field.
  - pose proof (sqrt_pos (dx ^ 2 + dy ^ 2)).
    rewrite avoid_zero_id by lra. field. exact Hn.
Qed.

Lemma diff_matrix (xa xb : vec) (na nb : nat) :
  length xa = na -> length xb = nb ->
  mmap2 Rminus (repmat_cols xa nb) (repmat_rows xb na) =
  outer (fun a b => a - b) xa xb.
Proof.
  intros <- <-. unfold mmap2, repmat_cols, repmat_rows, outer.
  induction xa as [|a xa IH]; simpl; [reflexivity |].
  rewrite map2_repeat_l, IH. reflexivity.
Qed.

Lemma outer_fst {A B : Type} (h : R -> R -> R) (xa : vec) (ya : list A)
    (xb : vec) (yb : list B) :
  length xa = length ya -> length xb = length yb ->
  outer h xa xb =
  outer (fun p q => h (fst p) (fst q)) (combine xa ya) (combine xb yb).
Proof.
  intros Ha Hb. unfold outer.
  rewrite <- (fst_combine xa ya Ha) at 1. rewrite map_map.
  apply map_ext. intros p.
  rewrite <- (fst_combine xb yb Hb) at 1. rewrite map_map. reflexivity.
Qed.

Lemma outer_snd {A B : Type} (h : R -> R -> R) (xa : list A) (ya : vec)
    (xb : list B) (yb : vec) :
  length xa = length ya -> length xb = length yb ->
  outer h ya yb =
  outer (fun p q => h (snd p) (snd q)) (combine xa ya) (combine xb yb).
Proof.
  intros Ha Hb. unfold outer.
  rewrite <- (snd_combine xa ya Ha) at 1. rewrite map_map.
  apply map_ext. intros p.
  rewrite <- (snd_combine xb yb Hb) at 1. rewrite map_map. reflexivity.
Qed.

Lemma mmap_outer {A B : Type} (g : R -> R) (h : A -> B -> R) P Q :
  mmap g (outer h P Q) = outer (fun p q => g (h p q)) P Q.
Proof.
  unfold mmap, outer. rewrite map_map. apply map_ext. intros p.
  apply map_map.
Qed.

Lemma mmap2_outer {A B : Type} (f : R -> R -> R) (h1 h2 : A -> B -> R) P Q :
  mmap2 f (outer h1 P Q) (outer h2 P Q) =
  outer (fun p q => f (h1 p q) (h2 p q)) P Q.
Proof.
  unfold mmap2, outer.
  rewrite (map2_map_same (map2 f) (fun p => map (h1 p) Q)
             (fun p => map (h2 p) Q) P).
  apply map_ext. intros p. apply map2_map_same.
Qed.

(** One block of interactions never divides by 0, and its two matrices hold
    [entry_x] and [entry_y] of the coordinate differences of every pair. *)
Lemma interactions_ok (fprime : R -> R) (xa ya : vec) (na : nat)
    (xb yb : vec) (nb : nat) :
  length xa = na -> length ya = na -> length xb = nb -> length yb = nb ->
  interactions fprime xa ya na xb yb nb =
  Ok (outer (fun p q => entry_x fprime (fst p - fst q) (snd p - snd q))
            (combine xa ya) (combine xb yb),
      outer (fun p q => entry_y fprime (fst p - fst q) (snd p - snd q))
            (combine xa ya) (combine xb yb)).
Proof.
  intros Hxa Hya Hxb Hyb. unfold interactions.
  rewrite (diff_matrix xa xb na nb Hxa Hxb), (diff_matrix ya yb na nb Hya Hyb).
  rewrite (outer_fst _ xa ya xb yb) by congruence.
  rewrite (outer_snd _ xa ya xb yb) by congruence.
  rewrite !mmap_outer, !mmap2_outer, !mmap_outer, !mmap2_outer.
  unfold outer at 1 2.
  rewrite (mdiv_map_same _ _ _ _) by (intros; apply avoid_zero_sqrt).
  cbn [bind]. unfold outer at 1 2.
  rewrite (mdiv_map_same _ _ _ _) by (intros; apply avoid_zero_sqrt).
  reflexivity.
Qed.


Lemma sum_axis1_outer {A B : Type} (h : A -> B -> R) P Q :
  sum_axis1 (outer h P Q) = map (fun p => vsum (map (h p) Q)) P.
Proof. unfold sum_axis1, outer. apply map_map. Qed.

Lemma transpose_outer {A B : Type} (h : A -> B -> R) P Q :
  transpose (length Q) (outer h P Q) = outer (fun q p => h p q) Q P.
Proof.
  unfold transpose, outer. destruct Q as [|d Q']; [reflexivity |].
  set (Q := d :: Q').
  rewrite <- (map_nth_seq (fun q => map (fun p => h p q) P) Q d).
  apply map_ext_in. intros j Hj. apply in_seq in Hj.
  rewrite map_map. apply map_ext. intros p.
  rewrite (nth_indep _ 0 (h p d)) by (rewrite length_map; lia).
  apply (map_nth (h p)).
Qed.

Lemma INR_pos_neq (n : nat) : (0 < n)%nat -> INR n <> 0.
Proof. intros H. apply not_0_INR. lia. Qed.

Lemma predator_velocity_ok {A B : Type} (hS : A -> A -> R) (hK : A -> B -> R)
    (P1 : list A) (P2 : list B) (n1 n2 : nat) :
  (0 < n1)%nat -> (0 < n2)%nat ->
  predator_velocity (outer hS P1 P1) (outer hK P1 P2) n1 n2 =
  Ok (map (fun p => - vsum (map (hS p) P1) / INR n1
                    - vsum (map (hK p) P2) / INR n2) P1).
Proof.
  intros H1 H2. unfold predator_velocity.
  rewrite !sum_axis1_outer. unfold vneg. rewrite map_map.
  rewrite !vdiv_scalar_ok by (apply INR_pos_neq; assumption).
  cbn [bind]. rewrite !map_map. unfold vsub.
  rewrite map2_map_same. reflexivity.
Qed.

Lemma prey_velocity_ok {A B : Type} (al : R) (hS : B -> B -> R)
    (hK : A -> B -> R) (P1 : list A) (P2 : list B) (n1 n2 : nat) :
  (0 < n1)%nat -> length P2 = n2 -> (0 < n2)%nat ->
  prey_velocity al (outer hS P2 P2) (outer hK P1 P2) n1 n2 =
  Ok (map (fun q => - vsum (map (hS q) P2) / INR n2
                    - al * vsum (map (fun p => hK p q) P1) / INR n1) P2).
Proof.
  intros H1 <- H2. unfold prey_velocity. rewrite transpose_outer.
  rewrite !sum_axis1_outer. unfold vneg, vscale. rewrite !map_map.
  rewrite !vdiv_scalar_ok by (apply INR_pos_neq; assumption).
  cbn [bind]. rewrite !map_map. unfold vsub.
  rewrite map2_map_same. reflexivity.
Qed.

(** The four velocity vectors of a step, particle by particle. *)
Lemma velocities_ok (c : config) (s : store) :
  wf c s -> (0 < N1 c)%nat -> (0 < N2 c)%nat ->
  velocities c s =
  Ok (predator_cells (entry_x (s1prime c)) (entry_x (kprime c)) (N1 c) (N2 c)
        (combine (x1 s) (y1 s)) (combine (x2 s) (y2 s)),
      predator_cells (entry_y (s1prime c)) (entry_y (kprime c)) (N1 c) (N2 c)
        (combine (x1 s) (y1 s)) (combine (x2 s) (y2 s)),
      prey_cells (alpha c) (entry_x (s2prime c)) (entry_x (kprime c))
        (N1 c) (N2 c) (combine (x1 s) (y1 s)) (combine (x2 s) (y2 s)),
      prey_cells (alpha c) (entry_y (s2prime c)) (entry_y (kprime c))
        (N1 c) (N2 c) (combine (x1 s) (y1 s)) (combine (x2 s) (y2 s))).
Proof.
  intros [Hx1 Hy1 Hx2 Hy2] H1 H2. unfold velocities.
  rewrite !interactions_ok by assumption. cbn [bind fst snd].
  rewrite !(predator_velocity_ok _ _ _ _ _ _ H1 H2). cbn [bind].
  assert (L2 : length (combine (x2 s) (y2 s)) = N2 c)
    by (rewrite length_combine; lia).
  rewrite !(prey_velocity_ok _ _ _ _ _ _ _ H1 L2 H2). cbn [bind].
  reflexivity.
Qed.


Lemma nth_map_default {A : Type} (f : A -> R) (l : list A) (i : nat) (d : A) :
  (i < length l)%nat -> nth i (map f l) 0 = f (nth i l d).
Proof.
  intros Hi. rewrite (nth_indep _ 0 (f d)) by (rewrite length_map; exact Hi).
  apply map_nth.
Qed.

Lemma nth_outer {A B : Type} (h : A -> B -> R) P Q (i j : nat) (dp : A)
    (dq : B) :
  (i < length P)%nat -> (j < length Q)%nat ->
  nth j (nth i (outer h P Q) []) 0 = h (nth i P dp) (nth j Q dq).
Proof.
  intros Hi Hj. unfold outer.
  rewrite (nth_indep _ [] ((fun p => map (h p) Q) dp))
    by (rewrite length_map; exact Hi).
  rewrite (map_nth (fun p => map (h p) Q)).
  apply nth_map_default. exact Hj.
Qed.

Lemma nth_points (xs ys : vec) (i : nat) :
  length xs = length ys ->
  nth i (combine xs ys) (0, 0) = (nth i xs 0, nth i ys 0).
Proof. intros H. apply combine_nth. exact H. Qed.

Lemma entry_coincident (fprime : R -> R) :
  entry_x fprime 0 0 = 0 /\ entry_y fprime 0 0 = 0.
Proof.
  unfold entry_x, entry_y.
  split; field; apply avoid_zero_sqrt.
Qed.



Lemma grad_x_odd (fprime : R -> R) (vx vy : R) :
  grad_x fprime (- vx) (- vy) = - grad_x fprime vx vy.
Proof.
  unfold grad_x. replace ((- vx) ^ 2 + (- vy) ^ 2) with (vx ^ 2 + vy ^ 2) by ring.
  destruct (Req_dec_T (sqrt (vx ^ 2 + vy ^ 2)) 0); [lra | field; assumption].
Qed.

Lemma grad_y_odd (fprime : R -> R) (vx vy : R) :
  grad_y fprime (- vx) (- vy) = - grad_y fprime vx vy.
Proof.
  unfold grad_y. replace ((- vx) ^ 2 + (- vy) ^ 2) with (vx ^ 2 + vy ^ 2) by ring.
  destruct (Req_dec_T (sqrt (vx ^ 2 + vy ^ 2)) 0); [lra | field; assumption].
Qed.

(** Summing the entries of a column of the cross matrix, built from
    predator-minus-prey differences, gives minus the sum of the gradients at
    the prey-minus-predator differences. *)
Lemma cross_column (g e : R -> R -> R) (qx qy : R) (P1 : list (R * R)) :
  (forall vx vy, e vx vy = g vx vy) ->
  (forall vx vy, g (- vx) (- vy) = - g vx vy) ->
  vsum (map (fun p => e (fst p - qx) (snd p - qy)) P1) =
  - vsum (map (fun p => g (qx - fst p) (qy - snd p)) P1).
Proof.
  intros Heg Hodd. rewrite <- vsum_map_opp. f_equal. apply map_ext.
  intros p. rewrite Heg, <- Hodd. f_equal; lra.
Qed.

Lemma nth_predator_cells (gS gK eS eK : R -> R -> R) (n1 n2 : nat)
    (xs1 ys1 xs2 ys2 : vec) (i : nat) :
  (forall vx vy, eS vx vy = gS vx vy) -> (forall vx vy, eK vx vy = gK vx vy) ->
  length xs1 = length ys1 -> (i < length xs1)%nat ->
  nth i (predator_cells eS eK n1 n2 (combine xs1 ys1) (combine xs2 ys2)) 0 =
  - sum_grad gS (nth i xs1 0) (nth i ys1 0) xs1 ys1 / INR n1
  - sum_grad gK (nth i xs1 0) (nth i ys1 0) xs2 ys2 / INR n2.
Proof.
  intros HS HK L1 Hi. unfold predator_cells.
  rewrite (nth_map_default _ _ i (0, 0)) by (rewrite length_combine; lia).
  rewrite nth_points by exact L1. cbn [fst snd]. unfold sum_grad.
  f_equal; f_equal; [f_equal |]; f_equal; apply map_ext; intros q; auto.
Qed.

Lemma nth_prey_cells (al : R) (gS gK eS eK : R -> R -> R) (n1 n2 : nat)
    (xs1 ys1 xs2 ys2 : vec) (j : nat) :
  (forall vx vy, eS vx vy = gS vx vy) -> (forall vx vy, eK vx vy = gK vx vy) ->
  (forall vx vy, gK (- vx) (- vy) = - gK vx vy) ->
  length xs2 = length ys2 -> (j < length xs2)%nat ->
  nth j (prey_cells al eS eK n1 n2 (combine xs1 ys1) (combine xs2 ys2)) 0 =
  - sum_grad gS (nth j xs2 0) (nth j ys2 0) xs2 ys2 / INR n2
  + al * sum_grad gK (nth j xs2 0) (nth j ys2 0) xs1 ys1 / INR n1.
Proof.
  intros HS HK Hodd L2 Hj. unfold prey_cells.
  rewrite (nth_map_default _ _ j (0, 0)) by (rewrite length_combine; lia).
  rewrite nth_points by exact L2. cbn [fst snd]. unfold sum_grad.
  rewrite (cross_column gK eK _ _ _ HK Hodd).
  rewrite (map_ext _ (fun q => gS (nth j xs2 0 - fst q) (nth j ys2 0 - snd q)))
    by (intros; apply HS).
  unfold Rdiv. ring.
Qed.

(** One step of the particle scheme. *)
Lemma euler_step_ok (c : config) (s : store) :
  wf c s -> (0 < N1 c)%nat -> (0 < N2 c)%nat ->
  exists s',
    step c s = Ok s' /\ wf c s' /\
    cnt s' = cnt s /\ cnt_sav s' = cnt_sav s /\ n_var s' = n_var s /\
    velocities c s = Ok (dx1 s', dy1 s', dx2 s', dy2 s') /\
    x1 s' = vadd (x1 s) (vscale (dt c) (dx1 s')) /\
    y1 s' = vadd (y1 s) (vscale (dt c) (dy1 s')) /\
    x2 s' = vadd (x2 s) (vscale (dt c) (dx2 s')) /\
    y2 s' = vadd (y2 s) (vscale (dt c) (dy2 s')).
Proof.
  intros Hwf H1 H2. unfold step.
  rewrite (velocities_ok c s Hwf H1 H2). cbn [bind].
  eexists. split; [reflexivity |].
  split.
  { destruct Hwf as [Hx1 Hy1 Hx2 Hy2].
    constructor; cbn; unfold vadd, vscale, predator_cells, prey_cells;
      rewrite map2_length, !length_map, length_combine; lia. }
  cbn. repeat split; reflexivity.
Qed.

(** C5.  A step moves every predator with the velocity
    [-(sum of grad S1 (x_i - x_k))/N1 - (sum of grad K (x_i - y_h))/N2] and
    every prey with
    [-(sum of grad S2 (y_j - y_h))/N2 + alpha (sum of grad K (y_j - x_k))/N1];
    the term [- alpha * sum(dxK.T, axis=1)/N1] of the program, with [dxK]
    built from predator-minus-prey differences, is that last term. *)
Theorem velocities_are_mean_gradients (c : config) (s : store) :
  wf c s -> (0 < N1 c)%nat -> (0 < N2 c)%nat ->
  exists s' dxK dyK,
    step c s = Ok s' /\
    x1 s' = vadd (x1 s) (vscale (dt c) (dx1 s')) /\
    y1 s' = vadd (y1 s) (vscale (dt c) (dy1 s')) /\
    x2 s' = vadd (x2 s) (vscale (dt c) (dx2 s')) /\
    y2 s' = vadd (y2 s) (vscale (dt c) (dy2 s')) /\
    (forall i, (i < N1 c)%nat ->
       nth i (dx1 s') 0 =
         - sum_grad (grad_x (s1prime c)) (nth i (x1 s) 0) (nth i (y1 s) 0)
             (x1 s) (y1 s) / INR (N1 c)
         - sum_grad (grad_x (kprime c)) (nth i (x1 s) 0) (nth i (y1 s) 0)
             (x2 s) (y2 s) / INR (N2 c) /\
       nth i (dy1 s') 0 =
         - sum_grad (grad_y (s1prime c)) (nth i (x1 s) 0) (nth i (y1 s) 0)
             (x1 s) (y1 s) / INR (N1 c)
         - sum_grad (grad_y (kprime c)) (nth i (x1 s) 0) (nth i (y1 s) 0)
             (x2 s) (y2 s) / INR (N2 c)) /\
    (forall j, (j < N2 c)%nat ->
       nth j (dx2 s') 0 =
         - sum_grad (grad_x (s2prime c)) (nth j (x2 s) 0) (nth j (y2 s) 0)
             (x2 s) (y2 s) / INR (N2 c)
         + alpha c
           * sum_grad (grad_x (kprime c)) (nth j (x2 s) 0) (nth j (y2 s) 0)
               (x1 s) (y1 s) / INR (N1 c) /\
       nth j (dy2 s') 0 =
         - sum_grad (grad_y (s2prime c)) (nth j (x2 s) 0) (nth j (y2 s) 0)
             (x2 s) (y2 s) / INR (N2 c)
         + alpha c
           * sum_grad (grad_y (kprime c)) (nth j (x2 s) 0) (nth j (y2 s) 0)
               (x1 s) (y1 s) / INR (N1 c)) /\
    interactions (kprime c) (x1 s) (y1 s) (N1 c) (x2 s) (y2 s) (N2 c)
      = Ok (dxK, dyK) /\
    (forall j, (j < N2 c)%nat ->
       - (alpha c * nth j (sum_axis1 (transpose (N2 c) dxK)) 0 / INR (N1 c)) =
         alpha c
         * sum_grad (grad_x (kprime c)) (nth j (x2 s) 0) (nth j (y2 s) 0)
             (x1 s) (y1 s) / INR (N1 c) /\
       - (alpha c * nth j (sum_axis1 (transpose (N2 c) dyK)) 0 / INR (N1 c)) =
         alpha c
         * sum_grad (grad_y (kprime c)) (nth j (x2 s) 0) (nth j (y2 s) 0)
             (x1 s) (y1 s) / INR (N1 c)).
Proof.
  intros Hwf H1 H2.
  destruct (euler_step_ok c s Hwf H1 H2)
    as (s' & Hs & _ & _ & _ & _ & Hv & Ex1 & Ey1 & Ex2 & Ey2).
  rewrite (velocities_ok c s Hwf H1 H2) in Hv.
  injection Hv as Vx1 Vy1 Vx2 Vy2.
  destruct Hwf as [Hx1 Hy1 Hx2 Hy2].
  do 3 eexists. split; [exact Hs |].
  split; [exact Ex1 |]. split; [exact Ey1 |].
  split; [exact Ex2 |]. split; [exact Ey2 |].
  split.
  { intros i Hi. rewrite <- Vx1, <- Vy1.
    split; apply nth_predator_cells;
      auto using entry_x_grad, entry_y_grad; lia. }
  split.
  { intros j Hj. rewrite <- Vx2, <- Vy2.
    split; apply nth_prey_cells;
      auto using entry_x_grad, entry_y_grad, grad_x_odd, grad_y_odd; lia. }
  split; [apply interactions_ok; assumption |].
  intros j Hj.
  assert (L2 : length (combine (x2 s) (y2 s)) = N2 c)
    by (rewrite length_combine; lia).
  rewrite <- L2 at 1 2. rewrite !transpose_outer, !sum_axis1_outer.
  rewrite !(nth_map_default _ _ j (0, 0)) by lia.
  rewrite nth_points by lia. cbn [fst snd]. unfold sum_grad.
  rewrite (cross_column (grad_x (kprime c)) _ _ _ _
             (entry_x_grad (kprime c)) (grad_x_odd (kprime c))).
  rewrite (cross_column (grad_y (kprime c)) _ _ _ _
             (entry_y_grad (kprime c)) (grad_y_odd (kprime c))).
  split; unfold Rdiv; ring.
Qed.


Lemma entry_zero_kernel (fprime : R -> R) (dx dy : R) :
  (forall r, fprime r = 0) ->
  entry_x fprime dx dy = 0 /\ entry_y fprime dx dy = 0.
Proof.
  intros H. unfold entry_x, entry_y. rewrite H. unfold Rdiv. split; ring.
Qed.

Lemma predator_cells_zero (eS eK : R -> R -> R) (n1 n2 : nat) P1 P2 :
  (forall vx vy, eS vx vy = 0) -> (forall vx vy, eK vx vy = 0) ->
  predator_cells eS eK n1 n2 P1 P2 = map (fun _ => 0) P1.
Proof.
  intros HS HK. unfold predator_cells. apply map_ext. intros p.
  rewrite !vsum_map_zero by auto. unfold Rdiv. ring.
Qed.

Lemma prey_cells_zero (al : R) (eS eK : R -> R -> R) (n1 n2 : nat) P1 P2 :
  (forall vx vy, eS vx vy = 0) -> (forall vx vy, eK vx vy = 0) ->
  prey_cells al eS eK n1 n2 P1 P2 = map (fun _ => 0) P2.
Proof.
  intros HS HK. unfold prey_cells. apply map_ext. intros p.
  rewrite !vsum_map_zero by auto. unfold Rdiv. ring.
Qed.

Lemma euler_still {A : Type} (h : R) (x : vec) (l : list A) :
  length x = length l -> vadd x (vscale h (map (fun _ => 0) l)) = x.
Proof.
  unfold vadd, vscale. revert l.
  induction x as [|a x IH]; intros [|b l] H; simpl in *; try discriminate;
    auto.
  rewrite IH by lia. f_equal. lra.
Qed.

Lemma counters_wf (c : config) (n : nat) (s : store) :
  wf c s -> wf c (bookkeeping n s).
Proof. intros []. constructor; cbn; auto. Qed.

(** With potentials whose derivatives vanish everywhere no sequence of
    passes through the loop body moves a particle. *)
Lemma loop_still (c : config) (l : list (nat * R)) (s0 : store) :
  wf c s0 -> (0 < N1 c)%nat -> (0 < N2 c)%nat ->
  (forall r, s1prime c r = 0) -> (forall r, s2prime c r = 0) ->
  (forall r, kprime c r = 0) ->
  exists s, for_loop (body c) l s0 = Ok s /\
            x1 s = x1 s0 /\ y1 s = y1 s0 /\ x2 s = x2 s0 /\ y2 s = y2 s0.
Proof.
  intros Hwf0 H1 H2 Z1 Z2 ZK. revert s0 Hwf0.
  induction l as [|it l IH]; intros s0 Hwf0.
  - exists s0. split; [reflexivity | auto].
  - destruct (euler_step_ok c s0 Hwf0 H1 H2)
      as (s' & Hs & Hwf' & _ & _ & _ & Hv & Ex1 & Ey1 & Ex2 & Ey2).
    rewrite (velocities_ok c s0 Hwf0 H1 H2) in Hv.
    injection Hv as Vx1 Vy1 Vx2 Vy2.
    rewrite predator_cells_zero in Vx1, Vy1
      by (intros; apply entry_zero_kernel; assumption).
    rewrite prey_cells_zero in Vx2, Vy2
      by (intros; apply entry_zero_kernel; assumption).
    destruct Hwf0 as [Hx1 Hy1 Hx2 Hy2].
    rewrite <- Vx1, euler_still in Ex1 by (rewrite length_combine; lia).
    rewrite <- Vy1, euler_still in Ey1 by (rewrite length_combine; lia).
    rewrite <- Vx2, euler_still in Ex2 by (rewrite length_combine; lia).
    rewrite <- Vy2, euler_still in Ey2 by (rewrite length_combine; lia).
    destruct (IH (bookkeeping (fst it) s') (counters_wf _ _ _ Hwf'))
      as (s & Hl & F1 & F2 & F3 & F4).
    exists s. cbn [for_loop]. unfold body at 1. rewrite Hs. cbn [bind].
    split; [exact Hl |]. cbn in F1, F2, F3, F4.
    repeat split; congruence.
Qed.

Lemma enumerate_snoc {A : Type} (l : list A) (a : A) :
  enumerate (l ++ [a]) = enumerate l ++ [(length l, a)].
Proof.
  unfold enumerate. rewrite length_app. simpl length.
  rewrite seq_app. simpl seq.
  rewrite combine_snoc by (rewrite length_seq; reflexivity). reflexivity.
Qed.

(** The loop counts its passes in [cnt] and leaves in [n] the last index. *)
Lemma loop_count (c : config) (ts : vec) (s0 : store) :
  wf c s0 -> (0 < N1 c)%nat -> (0 < N2 c)%nat ->
  exists s, for_loop (body c) (enumerate ts) s0 = Ok s /\ wf c s /\
            cnt s = (cnt s0 + length ts)%nat /\
            n_var s = match ts with
                      | [] => n_var s0
                      | _ :: _ => Some (length ts - 1)%nat
                      end.
Proof.
  intros Hwf0 H1 H2. induction ts as [|t ts IH] using rev_ind.
  - exists s0. cbn. split; [reflexivity |]. split; [exact Hwf0 |].
    split; [lia | reflexivity].
  - destruct IH as (s & Hs & Hwf & Hc & _).
    destruct (euler_step_ok c s Hwf H1 H2) as (s' & Hstep & Hwf' & Hc' & _).
    rewrite enumerate_snoc, for_loop_app, Hs. cbn [bind for_loop].
    unfold body. rewrite Hstep. cbn [bind].
    eexists. split; [reflexivity |].
    split; [apply counters_wf; exact Hwf' |].
    cbn [bookkeeping cnt n_var fst]. rewrite length_app. simpl length.
    split; [lia |].
    destruct ts; simpl; f_equal; lia.
Qed.

End DiscreteFacts.

(** * Whole runs, and the two models together *)

Module Runs.
Import Examples.

Lemma vsum_ones {A : Type} (l : list A) : vsum (map (fun _ => 1) l) = INR (length l).
Proof.
  induction l as [|x l IH].
  - reflexivity.
  - change (length (x :: l)) with (S (length l)). rewrite S_INR.
    simpl map. rewrite vsum_cons, IH. lra.
Qed.

Lemma linspace_two (a b : R) (num : Z) :
  (2 <= num)%Z ->
  exists x0 x1 rest,
    linspace a b num = Ok (x0 :: x1 :: rest) /\
    x1 - x0 = (b - a) / INR (Z.to_nat num - 1).
Proof.
  intros H. unfold linspace.
  destruct (Z.ltb_spec num 0) as [? | _]; [lia |].
  destruct (Z.to_nat num) as [|[|n]] eqn:En; try lia.
  cbn [seq map]. do 3 eexists. split; [reflexivity |].
  change (S (S n) - 1)%nat with (S n). cbn [INR].
  destruct n; field; try lra.
  pose proof (pos_INR (S n)). lra.
Qed.

(** The set-up goes through as soon as there are two cells and two times and
    the two initial densities have non-zero sums; it never looks at the order
    of [xmin] and [xmax] or at the sign of [tf]. *)
Lemma setup_total (c : Continuum.config) :
  (2 <= Continuum.Nx c)%Z -> (2 <= Continuum.Nt c)%Z ->
  (forall g, linspace (Continuum.xmin c) (Continuum.xmax c) (Continuum.Nx c)
             = Ok g ->
             vsum (map (Continuum.rho1_ini c) g) <> 0 /\
             vsum (map (Continuum.rho2_ini c) g) <> 0) ->
  exists e s0,
    Continuum.setup c = Ok (e, s0) /\
    Continuum.Dx e =
      (Continuum.xmax c - Continuum.xmin c)
      / INR (Z.to_nat (Continuum.Nx c) - 1).
Proof.
  intros HNx HNt Hsum. unfold Continuum.setup.
  destruct (linspace_two (Continuum.xmin c) (Continuum.xmax c) _ HNx)
    as (x0 & x1 & g & Hg & Hdx).
  apply Hsum in Hg as Hne. rewrite Hg.
  destruct (linspace_two 0 (Continuum.tf c) _ HNt)
    as (t0 & t1 & t & -> & Hdt).
  cbn [bind second_minus_first].
  rewrite !vdiv_scalar_ok by apply Hne. cbn [bind].
  do 2 eexists. split; [reflexivity |]. exact Hdx.
Qed.

Lemma uniform_sums (a b : R) (num : Z) (g : vec) :
  (0 < num)%Z -> linspace a b num = Ok g ->
  vsum (map (fun _ : R => 1) g) <> 0 /\ vsum (map (fun _ : R => 1) g) <> 0.
Proof.
  intros Hn H. apply linspace_length in H. destruct H as [_ H].
  rewrite vsum_ones, H.
  assert (0 < INR (Z.to_nat num)) by (apply lt_0_INR; lia). lra.
Qed.

(** C10, as it stands, fails: with [xmin = 1 >= xmax = -1] the set-up goes
    through and the loop body is executed for both times. *)
Lemma reversed_grid_runs :
  ContinuumSpec.invalid reversed_grid /\
  exists s, Continuum.run reversed_grid = Ok s /\
            ContinuumSpec.steps_done s = 2%nat.
Proof.
  split.
  - unfold ContinuumSpec.invalid. simpl. right. right. left. lra.
  - destruct (setup_total reversed_grid) as (e & s0 & Hsetup & HDx).
    + simpl. lia.
    + simpl. lia.
    + intros g Hg. apply (uniform_sums 1 (-1) 3 g); [lia | exact Hg].
    + destruct (ContinuumFacts.run_steps reversed_grid e s0 Hsetup)
        as (s & Hrun & Hsteps & _).
      * rewrite HDx. simpl. intros H0. lra.
      * exists s. split; [exact Hrun |]. rewrite Hsteps. reflexivity.
Qed.

(** C10, amended.  A non-positive [Nx] or [Nt] makes the set-up fail, so the
    run fails with the same error before the loop starts: [np.linspace]
    raises [ValueError] on a negative count, and [grid[1]], [T[1]] raise
    [IndexError] on an array shorter than 2. *)
Theorem bad_counts_fail_before_loop (c : Continuum.config) :
  (Continuum.Nx c <= 0)%Z \/ (Continuum.Nt c <= 0)%Z ->
  exists err,
    Continuum.setup c = Err err /\ Continuum.run c = Err err /\
    (err = ValueError \/ err = IndexError).
Proof.
  intros H. unfold Continuum.run.
  destruct (Continuum.setup c) as [[e s0] | err] eqn:Hsetup.
  - destruct (ContinuumFacts.setup_ok c e s0 Hsetup)
      as (_ & _ & _ & HNx & HNt & _). lia.
  - exists err. split; [reflexivity |]. split; [reflexivity |].
    unfold Continuum.setup in Hsetup.
    unfold linspace in Hsetup.
    destruct (Continuum.Nx c <? 0)%Z; [injection Hsetup as <-; auto |].
    cbn [bind] in Hsetup.
    match type of Hsetup with
    | context [second_minus_first ?g] =>
        destruct (second_minus_first g) as [dx|e1] eqn:E1
    end.
    2:{ cbn [bind] in Hsetup. injection Hsetup as <-.
        right. exact (second_minus_first_err _ _ E1). }
    cbn [bind] in Hsetup.
    destruct (Continuum.Nt c <? 0)%Z; [injection Hsetup as <-; auto |].
    cbn [bind] in Hsetup.
    match type of Hsetup with
    | context [second_minus_first ?g] =>
        destruct (second_minus_first g) as [dt|e2] eqn:E2
    end.
    2:{ cbn [bind] in Hsetup. injection Hsetup as <-.
        right. exact (second_minus_first_err _ _ E2). }
    exfalso.
    apply second_minus_first_ok in E1, E2.
    rewrite length_map, length_seq in E1, E2. lia.
Qed.

Lemma notebook_nT : Discrete.nT Discrete.notebook = Ok 1000%Z.
Proof.
  unfold Discrete.nT, py_div, Discrete.notebook. cbn [Discrete.T Discrete.dt].
  destruct (Req_dec_T 0.005 0) as [H | _]; [lra |].
  cbn [bind]. f_equal. unfold py_int.
  destruct (Rle_dec 0 (5 / 0.005)) as [_ | H]; [| lra].
  apply Zfloor_eq. lra.
Qed.

Lemma notebook_times :
  exists ts, Discrete.times Discrete.notebook = Ok ts /\ length ts = 1001%nat.
Proof.
  unfold Discrete.times. rewrite notebook_nT. cbn [bind].
  destruct (linspace 0 (Discrete.T Discrete.notebook) (1000 + 1)) as [ts|e]
    eqn:E.
  - exists ts. split; [reflexivity |].
    apply linspace_length in E. destruct E as [_ ->]. reflexivity.
  - unfold linspace in E. simpl in E. discriminate.
Qed.

(** C9.  A run of the continuum program passes through the loop body once
    for each of the [Nt] times, [n] ending at [Nt - 1].  The particle program
    as configured in the notebook ([dt = 0.005], [T = 5], so [nT = 1000])
    passes through its loop body, Euler step included, 1001 times: [n] ends
    at 1000 and [cnt] at 1001. *)
Theorem steps_of_a_run (c : Continuum.config) (px1 py1 px2 py2 : vec) :
  (2 <= Continuum.Nx c)%Z -> (2 <= Continuum.Nt c)%Z ->
  Continuum.xmin c <> Continuum.xmax c ->
  (forall g, linspace (Continuum.xmin c) (Continuum.xmax c) (Continuum.Nx c)
             = Ok g ->
             vsum (map (Continuum.rho1_ini c) g) <> 0 /\
             vsum (map (Continuum.rho2_ini c) g) <> 0) ->
  length px1 = 400%nat -> length py1 = 400%nat ->
  length px2 = 400%nat -> length py2 = 400%nat ->
  (exists s, Continuum.run c = Ok s /\
             ContinuumSpec.steps_done s = Z.to_nat (Continuum.Nt c) /\
             Continuum.n_var s = Some (Z.to_nat (Continuum.Nt c) - 1)%nat) /\
  Discrete.nT Discrete.notebook = Ok 1000%Z /\
  (exists s, Discrete.run Discrete.notebook px1 py1 px2 py2 = Ok s /\
             Discrete.cnt s = 1001%nat /\
             Discrete.n_var s = Some 1000%nat).
Proof.
  intros HNx HNt Hx Hsum L1 L2 L3 L4.
  split.
  { destruct (setup_total c HNx HNt Hsum) as (e & s0 & Hsetup & HDx).
    apply (ContinuumFacts.run_steps c e s0 Hsetup).
    rewrite HDx. intros H0.
    assert (0 < INR (Z.to_nat (Continuum.Nx c) - 1)) by (apply lt_0_INR; lia).
    apply Rmult_integral in H0. destruct H0 as [H0 | H0]; [lra |].
    apply Rinv_neq_0_compat in H0; [exact H0 | lra]. }
  split; [exact notebook_nT |].
  destruct notebook_times as (ts & Hts & Lts).
  destruct (DiscreteFacts.loop_count Discrete.notebook ts
              (Discrete.init Discrete.notebook px1 py1 px2 py2))
    as (s & Hs & _ & Hc & Hn).
  - constructor; assumption.
  - simpl. lia.
  - simpl. lia.
  - exists s. unfold Discrete.run. rewrite Hts. cbn [bind].
    split; [exact Hs |]. rewrite Hc, Lts.
    split; [reflexivity |].
    rewrite Hn. destruct ts as [|t ts]; [discriminate |].
    rewrite Lts. reflexivity.
Qed.

(** C8.  With potential derivatives that vanish everywhere, the densities
    of the continuum program after any number of iterations, and the
    positions of the particle program after any sequence of passes through
    its loop body, are the initial ones. *)
Theorem zero_interaction_degeneracy
    (c : Continuum.config) (e : Continuum.env) (n : nat)
    (s0 : Continuum.store) (k : nat)
    (d : Discrete.config) (l : list (nat * R)) (p0 : Discrete.store) :
  (ContinuumSpec.wf n s0 -> ContinuumSpec.kernels_from c e n s0 ->
   Continuum.e_beta e = Continuum.beta c -> Continuum.Dx e <> 0 ->
   (forall x, Continuum.dxW1 c x = 0) -> (forall x, Continuum.dxW2 c x = 0) ->
   (forall x, Continuum.dxK c x = 0) ->
   exists s, Continuum.iter e k s0 = Ok s /\
             Continuum.rho1 s = Continuum.rho1 s0 /\
             Continuum.rho2 s = Continuum.rho2 s0) /\
  (DiscreteSpec.wf d p0 -> (0 < Discrete.N1 d)%nat -> (0 < Discrete.N2 d)%nat ->
   (forall r, Discrete.s1prime d r = 0) -> (forall r, Discrete.s2prime d r = 0) ->
   (forall r, Discrete.kprime d r = 0) ->
   exists p, for_loop (Discrete.body d) l p0 = Ok p /\
             Discrete.x1 p = Discrete.x1 p0 /\ Discrete.y1 p = Discrete.y1 p0 /\
             Discrete.x2 p = Discrete.x2 p0 /\ Discrete.y2 p = Discrete.y2 p0).
Proof.
  split.
  - apply ContinuumFacts.iter_still.
  - apply DiscreteFacts.loop_still.
Qed.

End Runs.

(** * The binary64 lines evaluated *)

Module Binary64Facts.
Import Binary64.


(** The notebook's [int(5./0.005)] is 1000 in binary64 too. *)
Lemma notebook_nT_binary64 : nT notebook_T notebook_dt = Ok 1000%Z.
Proof. vm_compute. reflexivity. Qed.

(** [0.3/0.1] is rounded to a float below 3, which [int] truncates to 2. *)
Lemma rounded_quotient : nT short_T short_dt = Ok 2%Z.
Proof. vm_compute. reflexivity. Qed.

Lemma infinite_quotient :
  PrimFloat.eqb minute PrimFloat.zero = false /\
  FloatOps.Prim2SF (PrimFloat.div huge minute) = SpecFloat.S754_infinity false.
Proof. vm_compute. split; reflexivity. Qed.

End Binary64Facts.

(** * The theorems at concrete inputs *)

Module Witnesses.
Import Examples.

Lemma small_store_wf (f : R -> R) : ContinuumSpec.wf 3 (small_store f).
Proof. constructor; reflexivity. Qed.

Lemma small_Dx : Continuum.Dx small_env <> 0.
Proof. simpl. lra. Qed.

Lemma np_sign_pos (x : R) : 0 < x -> np_sign x = 1.
Proof. intros H. unfold np_sign. destruct (Rlt_dec 0 x); [reflexivity | lra]. Qed.

Lemma np_sign_neg (x : R) : x < 0 -> np_sign x = -1.
Proof.
  intros H. unfold np_sign.
  destruct (Rlt_dec 0 x); [lra |]. destruct (Rlt_dec x 0); [reflexivity | lra].
Qed.

Lemma np_sign_zero (x : R) : x = 0 -> np_sign x = 0.
Proof.
  intros H. unfold np_sign.
  destruct (Rlt_dec 0 x); [lra |]. destruct (Rlt_dec x 0); [lra | reflexivity].
Qed.

Lemma small_kernel :
  Continuum.kernel_matrix np_sign [-1; 0; 1] 3 =
  [[0; -1; -1]; [1; 0; -1]; [1; 1; 0]].
Proof.
  unfold Continuum.kernel_matrix, Continuum.tile_column, mmap, vsub.
  cbn [map map2 repeat].
  repeat match goal with
         | |- context [np_sign ?x] =>
             first [ rewrite (np_sign_zero x) by lra
                   | rewrite (np_sign_neg x) by lra
                   | rewrite (np_sign_pos x) by lra ]
         end.
  reflexivity.
Qed.

Lemma small_a1 :
  Continuum.a1 (Continuum.velocities small_env (small_store np_sign)) =
  [2; 1 / 2; - (3 / 2)].
Proof.
  cbn [Continuum.velocities Continuum.a1 small_store Continuum.W1p
       Continuum.Kp Continuum.rho1 Continuum.rho2].
  rewrite small_kernel.
  unfold vneg, vadd, dot, vmul, vsum.
  cbn [map map2 fold_left]. repeat (f_equal; try lra).
Qed.

Lemma small_a2 :
  Continuum.a2 (Continuum.velocities small_env (small_store np_sign)) =
  [0.7; 1 / 2; - 0.2].
Proof.
  cbn [Continuum.velocities Continuum.a2 small_store Continuum.W2p
       Continuum.Kp Continuum.rho1 Continuum.rho2 small_env
       Continuum.e_beta].
  rewrite small_kernel.
  unfold vneg, vsub, vscale, dot, vmul, vsum.
  cbn [map map2 fold_left]. repeat (f_equal; try lra).
Qed.

Lemma small_cfl :
  ContinuumSpec.cfl small_env
    (Continuum.a1 (Continuum.velocities small_env (small_store np_sign))) /\
  ContinuumSpec.cfl small_env
    (Continuum.a2 (Continuum.velocities small_env (small_store np_sign))).
Proof.
  rewrite small_a1, small_a2. unfold ContinuumSpec.cfl, ContinuumSpec.max_abs.
  cbn [map fold_right small_env Continuum.Dt Continuum.Dx].
  split.
  - assert (H : Rmax (Rabs 2) (Rmax (Rabs (1 / 2))
                  (Rmax (Rabs (- (3 / 2))) 0)) <= 2).
    { repeat apply Rmax_lub; try lra; unfold Rabs; destruct (Rcase_abs _); lra. }
    lra.
  - assert (H : Rmax (Rabs 0.7) (Rmax (Rabs (1 / 2))
                  (Rmax (Rabs (- 0.2)) 0)) <= 2).
    { repeat apply Rmax_lub; try lra; unfold Rabs; destruct (Rcase_abs _); lra. }
    lra.
Qed.

Lemma two_two_wf (c : Discrete.config) :
  Discrete.N1 c = 2%nat -> Discrete.N2 c = 2%nat ->
  DiscreteSpec.wf c (two_two_store c).
Proof. intros H1 H2. constructor; simpl; congruence. Qed.

Lemma mass_balance_witness :
  ContinuumSpec.wf 3 (small_store np_sign) /\ Continuum.Dx small_env <> 0 /\
  exists s',
    Continuum.step small_env (small_store np_sign) = Ok s' /\
    nth 0 (Continuum.rho1_dp s') 0 = 0 /\
    nth 2 (Continuum.rho1_gm s') 0 = 0 /\
    vsum (Continuum.rho1 s') <= vsum (Continuum.rho1 (small_store np_sign)).
Proof.
  split; [apply small_store_wf |]. split; [apply small_Dx |].
  destruct (ContinuumFacts.mass_balance small_env 3 (small_store np_sign)
              (small_store_wf np_sign) small_Dx)
    as (s' & Hs & (B1 & B2 & _) & _ & _ & Hle & _).
  exists s'. split; [exact Hs |]. split; [exact B1 |]. split; [exact B2 |].
  apply Hle; simpl; lra.
Defined.

Lemma mass_conserved_away_from_boundary_witness :
  ContinuumSpec.wf 3 (small_store np_sign) /\ Continuum.Dx small_env <> 0 /\
  ContinuumSpec.empty_boundary 3 (Continuum.rho1 (small_store np_sign)) /\
  exists s',
    Continuum.step small_env (small_store np_sign) = Ok s' /\
    vsum (Continuum.rho1 s') = vsum (Continuum.rho1 (small_store np_sign)).
Proof.
  split; [apply small_store_wf |]. split; [apply small_Dx |].
  assert (Hb : ContinuumSpec.empty_boundary 3
                 (Continuum.rho1 (small_store np_sign)))
    by (split; reflexivity).
  split; [exact Hb |].
  destruct (ContinuumFacts.mass_conserved_away_from_boundary small_env 3
              (small_store np_sign) 0 (small_store_wf np_sign) small_Dx)
    as (s & s' & Hit & Hs & Hc & _).
  injection Hit as <-.
  exists s'. split; [exact Hs |]. apply Hc. exact Hb.
Defined.

Lemma step_is_upwind_witness :
  ContinuumSpec.wf 3 (small_store np_sign) /\ Continuum.Dx small_env <> 0 /\
  exists s',
    Continuum.step small_env (small_store np_sign) = Ok s' /\
    Continuum.rho1 s' =
      ContinuumSpec.spec_update (1 / 4 / 1)
        (Continuum.a1 (Continuum.velocities small_env (small_store np_sign)))
        [0; 1; 0] 3.
Proof.
  split; [apply small_store_wf |]. split; [apply small_Dx |].
  destruct (ContinuumFacts.step_is_upwind small_env 3 (small_store np_sign)
              (small_store_wf np_sign) small_Dx)
    as (s' & Hs & E1 & _).
  exists s'. split; [exact Hs | exact E1].
Defined.

Lemma nonnegative_under_cfl_witness :
  ContinuumSpec.nonneg (Continuum.rho1 (small_store np_sign)) /\
  ContinuumSpec.nonneg (Continuum.rho2 (small_store np_sign)) /\
  exists s,
    Continuum.iter small_env 1 (small_store np_sign) = Ok s /\
    ContinuumSpec.nonneg (Continuum.rho1 s) /\
    ContinuumSpec.nonneg (Continuum.rho2 s).
Proof.
  assert (N1 : ContinuumSpec.nonneg (Continuum.rho1 (small_store np_sign)))
    by (repeat constructor; lra).
  assert (N2 : ContinuumSpec.nonneg (Continuum.rho2 (small_store np_sign)))
    by (repeat constructor; lra).
  split; [exact N1 |]. split; [exact N2 |].
  apply (ContinuumFacts.nonnegative_under_cfl small_env 3
           (small_store np_sign) 1 (small_store_wf np_sign)).
  - simpl. lra.
  - simpl. lra.
  - exact N1.
  - exact N2.
  - intros j s Hj Hit. assert (j = 0%nat) by lia. subst j.
    injection Hit as <-. apply small_cfl.
Defined.

Lemma velocity_fields_witness :
  ContinuumSpec.wf 3 (small_store np_sign) /\
  ContinuumSpec.kernels_from small_grid small_env 3 (small_store np_sign) /\
  nth 0 (Continuum.a1 (Continuum.velocities small_env (small_store np_sign))) 0
  = ContinuumSpec.spec_a1 small_grid [-1; 0; 1] [0; 1; 0] [0; 1 / 2; 1 / 2] 0.
Proof.
  split; [apply small_store_wf |].
  assert (HK : ContinuumSpec.kernels_from small_grid small_env 3
                 (small_store np_sign))
    by (repeat split; reflexivity).
  split; [exact HK |].
  destruct (ContinuumFacts.velocity_fields small_grid small_env 3
              (small_store np_sign) (small_store_wf np_sign) HK eq_refl)
    as (_ & _ & _ & Hcells & _).
  apply (Hcells 0%nat). lia.
Defined.


Lemma velocities_are_mean_gradients_witness :
  DiscreteSpec.wf two_two (two_two_store two_two) /\
  exists s',
    Discrete.step two_two (two_two_store two_two) = Ok s' /\
    nth 1 (Discrete.dx2 s') 0 =
      - DiscreteSpec.sum_grad (DiscreteSpec.grad_x Discrete.s2prime_nb)
          3 4 [0; 3] [0; 4] / INR 2
      + 0.3 * DiscreteSpec.sum_grad (DiscreteSpec.grad_x Discrete.kprime_nb)
                3 4 [0; 0] [0; 0] / INR 2.
Proof.
  split; [apply two_two_wf; reflexivity |].
  destruct (DiscreteFacts.velocities_are_mean_gradients two_two
              (two_two_store two_two) (two_two_wf two_two eq_refl eq_refl))
    as (s' & dxK & dyK & Hs & _ & _ & _ & _ & _ & Hprey & _).
  - simpl. lia.
  - simpl. lia.
  - exists s'. split; [exact Hs |].
    apply (Hprey 1%nat). simpl. lia.
Defined.

Lemma bad_counts_fail_before_loop_witness :
  (Continuum.Nx no_cell <= 0)%Z /\
  exists err, Continuum.setup no_cell = Err err /\
              Continuum.run no_cell = Err err.
Proof.
  assert (H : (Continuum.Nx no_cell <= 0)%Z) by (simpl; lia).
  split; [exact H |].
  destruct (Runs.bad_counts_fail_before_loop no_cell (or_introl H))
    as (err & H1 & H2 & _).
  exists err. split; [exact H1 | exact H2].
Defined.

Lemma steps_of_a_run_witness :
  (exists s, Continuum.run small_grid = Ok s /\
             ContinuumSpec.steps_done s = 2%nat /\
             Continuum.n_var s = Some 1%nat) /\
  Discrete.nT Discrete.notebook = Ok 1000%Z /\
  (exists s, Discrete.run Discrete.notebook (repeat 0 400) (repeat 0 400)
               (repeat 0 400) (repeat 0 400) = Ok s /\
             Discrete.cnt s = 1001%nat /\
             Discrete.n_var s = Some 1000%nat).
Proof.
  apply (Runs.steps_of_a_run small_grid (repeat 0 400) (repeat 0 400)
           (repeat 0 400) (repeat 0 400)).
  - simpl. lia.
  - simpl. lia.
  - simpl. lra.
  - intros g Hg. apply (Runs.uniform_sums (-1) 1 3 g); [lia | exact Hg].
  - apply repeat_length.
  - apply repeat_length.
  - apply repeat_length.
  - apply repeat_length.
Defined.

Lemma zero_interaction_degeneracy_witness :
  (exists s, Continuum.iter small_env 2 (small_store (fun _ => 0)) = Ok s /\
             Continuum.rho1 s = [0; 1; 0] /\
             Continuum.rho2 s = [0; 1 / 2; 1 / 2]) /\
  (exists p, for_loop (Discrete.body two_two_free) [(0%nat, 0); (1%nat, 0.005)]
               (two_two_store two_two_free) = Ok p /\
             Discrete.x1 p = [0; 0] /\ Discrete.y1 p = [0; 0] /\
             Discrete.x2 p = [0; 3] /\ Discrete.y2 p = [0; 4]).
Proof.
  destruct (Runs.zero_interaction_degeneracy no_interaction small_env 3
              (small_store (fun _ => 0)) 2
              two_two_free [(0%nat, 0); (1%nat, 0.005)]
              (two_two_store two_two_free)) as [Hc Hd].
  split.
  - apply Hc; try reflexivity.
    + apply small_store_wf.
    + repeat split; reflexivity.
    + apply small_Dx.
  - apply Hd; try reflexivity.
    + apply two_two_wf; reflexivity.
    + simpl. lia.
    + simpl. lia.
Defined.

End Witnesses.

(** * More on the continuum program *)

Module ContinuumMore.
Import Continuum ContinuumSpec MoreSpec.

Lemma np_div_zero (x : R) : np_div x 0 = Err NonFinite.
Proof. unfold np_div. destruct (Req_dec_T 0 0); [reflexivity | congruence]. Qed.

Lemma vdiv_scalar_zero (v : vec) :
  v <> [] -> vdiv_scalar v 0 = Err NonFinite.
Proof.
  destruct v as [|x v]; [congruence |]. intros _.
  unfold vdiv_scalar. simpl. rewrite np_div_zero. reflexivity.
Qed.

Lemma linspace_samples (a b : R) (num : Z) :
  (2 <= num)%Z -> linspace a b num = Ok (samples a b (Z.to_nat num)).
Proof.
  intros H. unfold linspace, samples.
  destruct (Z.ltb_spec num 0) as [? | _]; [lia |].
  destruct (Z.to_nat num) as [|[|n]] eqn:En; try lia. reflexivity.
Qed.

Lemma linspace_negative (a b : R) (num : Z) :
  (num < 0)%Z -> linspace a b num = Err ValueError.
Proof.
  intros H. unfold linspace.
  destruct (Z.ltb_spec num 0); [reflexivity | lia].
Qed.

Lemma linspace_short (a b : R) (num : Z) :
  (0 <= num < 2)%Z ->
  exists g, linspace a b num = Ok g /\ second_minus_first g = Err IndexError.
Proof.
  intros H. unfold linspace.
  destruct (Z.ltb_spec num 0); [lia |].
  destruct (Z.to_nat num) as [|[|n]] eqn:En; try lia;
    eexists; split; reflexivity.
Qed.

Lemma nth_samples (a b : R) (n i : nat) :
  (i < n)%nat ->
  nth i (samples a b n) 0 = a + INR i * ((b - a) / INR (n - 1)).
Proof. intros H. unfold samples. apply nth_map_seq. exact H. Qed.

Lemma samples_length (a b : R) (n : nat) : length (samples a b n) = n.
Proof. unfold samples. rewrite length_map, length_seq. reflexivity. Qed.

Lemma samples_step (a b : R) (n : nat) :
  (2 <= n)%nat ->
  second_minus_first (samples a b n) = Ok ((b - a) / INR (n - 1)).
Proof.
  intros H. unfold samples. destruct n as [|[|n]]; try lia.
  cbn [seq map second_minus_first]. f_equal. cbn [INR]. lra.
Qed.

Lemma samples_nonempty (a b : R) (n : nat) :
  (2 <= n)%nat -> map (fun _ : R => 0) (samples a b n) <> [].
Proof.
  intros H. unfold samples. destruct n as [|n]; [lia |]. discriminate.
Qed.

Lemma vsum_normalised (v : vec) : vsum v <> 0 -> vsum (normalised v) = 1.
Proof.
  intros H. unfold normalised.
  assert (E : forall w, vsum (map (fun x => x / vsum v) w) = vsum w / vsum v).
  { induction w as [|x w IH]; simpl.
    - rewrite vsum_nil. unfold Rdiv. ring.
    - rewrite !vsum_cons, IH. field. exact H. }
  rewrite E. field. exact H.
Qed.

Lemma vsum_nonneg (v : vec) : nonneg v -> 0 <= vsum v.
Proof.
  unfold nonneg. induction 1 as [|x v Hx Hv IH].
  - rewrite vsum_nil. lra.
  - rewrite vsum_cons. lra.
Qed.

Lemma normalised_nonneg (v : vec) :
  nonneg v -> vsum v <> 0 -> nonneg (normalised v).
Proof.
  intros Hv Hs. pose proof (vsum_nonneg v Hv) as H0.
  assert (Hp : 0 < vsum v) by lra.
  unfold nonneg, normalised in *. rewrite Forall_forall in *.
  intros y Hy. apply in_map_iff in Hy. destruct Hy as (x & <- & Hx).
  apply Rmult_le_pos; [apply Hv; exact Hx |].
  left. apply Rinv_0_lt_compat. exact Hp.
Qed.

(** The value of a set-up that goes through. *)
Lemma setup_value (c : config) :
  (2 <= Nx c)%Z -> (2 <= Nt c)%Z ->
  vsum (map (rho1_ini c) (samples (xmin c) (xmax c) (Z.to_nat (Nx c)))) <> 0 ->
  vsum (map (rho2_ini c) (samples (xmin c) (xmax c) (Z.to_nat (Nx c)))) <> 0 ->
  exists e s0,
    setup c = Ok (e, s0) /\
    grid e = samples (xmin c) (xmax c) (Z.to_nat (Nx c)) /\
    Dx e = (xmax c - xmin c) / INR (Z.to_nat (Nx c) - 1) /\
    T e = samples 0 (tf c) (Z.to_nat (Nt c)) /\
    Dt e = (tf c - 0) / INR (Z.to_nat (Nt c) - 1) /\
    rho1 s0 = normalised (map (rho1_ini c) (grid e)) /\
    rho2 s0 = normalised (map (rho2_ini c) (grid e)).
Proof.
  intros HNx HNt H1 H2. unfold setup.
  rewrite (linspace_samples _ _ _ HNx), (linspace_samples _ _ _ HNt).
  cbn [bind]. rewrite !samples_step by lia. cbn [bind].
  rewrite !vdiv_scalar_ok by assumption. cbn [bind].
  do 2 eexists. split; [reflexivity |]. cbn. repeat split; reflexivity.
Qed.

(** The outcome of the set-up, case by case: which configurations raise
    which exception, which ones produce nan in the normalisation, and which
    ones go through. *)
Theorem setup_outcome (c : config) :
  ((Nx c < 0)%Z -> setup c = Err ValueError) /\
  ((0 <= Nx c < 2)%Z -> setup c = Err IndexError) /\
  ((2 <= Nx c)%Z -> (Nt c < 0)%Z -> setup c = Err ValueError) /\
  ((2 <= Nx c)%Z -> (0 <= Nt c < 2)%Z -> setup c = Err IndexError) /\
  ((2 <= Nx c)%Z -> (2 <= Nt c)%Z ->
   vsum (map (rho1_ini c) (samples (xmin c) (xmax c) (Z.to_nat (Nx c)))) = 0 \/
   vsum (map (rho2_ini c) (samples (xmin c) (xmax c) (Z.to_nat (Nx c)))) = 0 ->
   setup c = Err NonFinite) /\
  ((2 <= Nx c)%Z -> (2 <= Nt c)%Z ->
   vsum (map (rho1_ini c) (samples (xmin c) (xmax c) (Z.to_nat (Nx c)))) <> 0 ->
   vsum (map (rho2_ini c) (samples (xmin c) (xmax c) (Z.to_nat (Nx c)))) <> 0 ->
   exists e s0, setup c = Ok (e, s0)).
Proof.
  split; [| split; [| split; [| split; [| split]]]].
  - intros H. unfold setup. rewrite linspace_negative by exact H. reflexivity.
  - intros H. unfold setup.
    destruct (linspace_short (xmin c) (xmax c) _ H) as (g & -> & Hg).
    cbn [bind]. rewrite Hg. reflexivity.
  - intros HNx H. unfold setup. rewrite (linspace_samples _ _ _ HNx).
    cbn [bind]. rewrite samples_step by lia. cbn [bind].
    rewrite linspace_negative by exact H. reflexivity.
  - intros HNx H. unfold setup. rewrite (linspace_samples _ _ _ HNx).
    cbn [bind]. rewrite samples_step by lia. cbn [bind].
    destruct (linspace_short 0 (tf c) _ H) as (g & -> & Hg).
    cbn [bind]. rewrite Hg. reflexivity.
  - intros HNx HNt H. unfold setup.
    rewrite (linspace_samples _ _ _ HNx), (linspace_samples _ _ _ HNt).
    cbn [bind]. rewrite !samples_step by lia. cbn [bind].
    assert (Hne : forall f : R -> R,
              map f (samples (xmin c) (xmax c) (Z.to_nat (Nx c))) <> []).
    { intros f. unfold samples.
      destruct (Z.to_nat (Nx c)) as [|n] eqn:En; [lia | discriminate]. }
    destruct (Req_dec_T (vsum (map (rho1_ini c)
                (samples (xmin c) (xmax c) (Z.to_nat (Nx c))))) 0) as [E1 | N1].
    + rewrite E1, vdiv_scalar_zero by apply Hne. reflexivity.
    + destruct H as [E1 | E2]; [contradiction |].
      rewrite (vdiv_scalar_ok _ _ N1). cbn [bind].
      rewrite E2, vdiv_scalar_zero by apply Hne. reflexivity.
  - intros HNx HNt H1 H2.
    destruct (setup_value c HNx HNt H1 H2) as (e & s0 & Hs & _).
    exists e, s0. exact Hs.
Qed.

(** A set-up that goes through yields the uniform grid from [xmin] to
    [xmax] with spacing [Dx = (xmax - xmin)/(Nx - 1)], the times from 0 to
    [tf] with [Dt = tf/(Nt - 1)], and two densities of sum 1, non-negative
    when the initial functions are. *)
Theorem setup_result (c : config) :
  (2 <= Nx c)%Z -> (2 <= Nt c)%Z ->
  vsum (map (rho1_ini c) (samples (xmin c) (xmax c) (Z.to_nat (Nx c)))) <> 0 ->
  vsum (map (rho2_ini c) (samples (xmin c) (xmax c) (Z.to_nat (Nx c)))) <> 0 ->
  exists e s0,
    setup c = Ok (e, s0) /\
    length (grid e) = Z.to_nat (Nx c) /\
    nth 0 (grid e) 0 = xmin c /\
    nth (Z.to_nat (Nx c) - 1) (grid e) 0 = xmax c /\
    (forall i, (i + 1 < Z.to_nat (Nx c))%nat ->
       nth (i + 1) (grid e) 0 - nth i (grid e) 0 = Dx e) /\
    Dx e = (xmax c - xmin c) / INR (Z.to_nat (Nx c) - 1) /\
    length (T e) = Z.to_nat (Nt c) /\
    nth 0 (T e) 0 = 0 /\
    nth (Z.to_nat (Nt c) - 1) (T e) 0 = tf c /\
    Dt e = tf c / INR (Z.to_nat (Nt c) - 1) /\
    vsum (rho1 s0) = 1 /\ vsum (rho2 s0) = 1 /\
    ((forall x, 0 <= rho1_ini c x) -> nonneg (rho1 s0)) /\
    ((forall x, 0 <= rho2_ini c x) -> nonneg (rho2 s0)).
Proof.
  intros HNx HNt H1 H2.
  destruct (setup_value c HNx HNt H1 H2)
    as (e & s0 & Hs & Eg & EDx & ET & EDt & E1 & E2).
  exists e, s0. split; [exact Hs |].
  assert (Hn : INR (Z.to_nat (Nx c) - 1) <> 0) by (apply not_0_INR; lia).
  assert (Hm : INR (Z.to_nat (Nt c) - 1) <> 0) by (apply not_0_INR; lia).
  rewrite Eg, ET, EDx, EDt, E1, E2, Eg.
  split; [apply samples_length |].
  split; [rewrite nth_samples by lia; simpl; lra |].
  split; [rewrite nth_samples by lia; field; exact Hn |].
  split.
  { intros i Hi. rewrite !nth_samples by lia. rewrite plus_INR. simpl. lra. }
  split; [reflexivity |].
  split; [apply samples_length |].
  split; [rewrite nth_samples by lia; simpl; lra |].
  split; [rewrite nth_samples by lia; field; exact Hm |].
  split; [unfold Rdiv; rewrite Rminus_0_r; reflexivity |].
  split; [apply vsum_normalised; exact H1 |].
  split; [apply vsum_normalised; exact H2 |].
  split; intros Hpos; apply normalised_nonneg; auto;
    unfold nonneg; apply Forall_forall; intros y Hy;
    apply in_map_iff in Hy; destruct Hy as (x & <- & _); apply Hpos.
Qed.

(** A grid reduced to one point, [xmin = xmax], is not rejected: the set-up
    goes through with [Dx = 0] and the first pass through the loop divides
    by it. *)
Theorem degenerate_grid (c : config) :
  (2 <= Nx c)%Z -> (2 <= Nt c)%Z -> xmin c = xmax c ->
  vsum (map (rho1_ini c) (samples (xmin c) (xmax c) (Z.to_nat (Nx c)))) <> 0 ->
  vsum (map (rho2_ini c) (samples (xmin c) (xmax c) (Z.to_nat (Nx c)))) <> 0 ->
  (exists e s0, setup c = Ok (e, s0) /\ Dx e = 0) /\
  run c = Err NonFinite.
Proof.
  intros HNx HNt Hx H1 H2.
  destruct (setup_value c HNx HNt H1 H2)
    as (e & s0 & Hs & _ & EDx & ET & _).
  assert (HDx : Dx e = 0).
  { rewrite EDx, Hx. unfold Rdiv. ring. }
  split; [exists e, s0; auto |].
  unfold run. rewrite Hs. cbn [bind fst snd]. unfold loop. rewrite ET.
  unfold samples. destruct (Z.to_nat (Nt c)) as [|m] eqn:Em; [lia |].
  cbn [seq map]. unfold enumerate. cbn [length seq combine for_loop].
  unfold body, step, update_rho1, upwind. rewrite HDx, np_div_zero.
  reflexivity.
Qed.

Lemma nth_error_enumerate {A : Type} (l : list A) (k : nat) (it : nat * A) :
  nth_error (enumerate l) k = Some it -> fst it = k /\ (k < length l)%nat.
Proof.
  intros H. unfold enumerate in H.
  assert (Hk : (k < length (combine (seq 0 (length l)) l))%nat).
  { apply nth_error_Some. congruence. }
  rewrite length_combine, length_seq in Hk.
  destruct l as [|d l']; [simpl in Hk; lia |].
  apply (nth_error_nth _ _ (0%nat, d)) in H.
  rewrite combine_nth in H by (rewrite length_seq; reflexivity).
  rewrite seq_nth in H by lia. subst it. split; [reflexivity | lia].
Qed.

Lemma figures_S (k : nat) :
  figures (S k) = (figures k + if (k mod 10 =? 0)%nat then 1 else 0)%nat.
Proof.
  unfold figures.
  pose proof (Nat.div_mod_eq k 10) as E.
  pose proof (Nat.mod_upper_bound k 10 ltac:(lia)) as B.
  pose proof (Nat.div_mod_eq (S k + 9) 10) as E1.
  pose proof (Nat.mod_upper_bound (S k + 9) 10 ltac:(lia)) as B1.
  pose proof (Nat.div_mod_eq (k + 9) 10) as E2.
  pose proof (Nat.mod_upper_bound (k + 9) 10 ltac:(lia)) as B2.
  destruct (Nat.eqb_spec (k mod 10) 0) as [H | H]; lia.
Qed.

(** After [k] passes through the loop body, [cpt] has counted the passes
    whose index is a multiple of 10. *)
Lemma iter_cpt (e : env) (n : nat) (s0 : store) (k : nat) :
  wf n s0 -> Dx e <> 0 -> (k <= length (T e))%nat ->
  exists s, iter e k s0 = Ok s /\ cpt s = (cpt s0 + figures k)%nat.
Proof.
  intros Hwf HDx Hk. induction k as [|k IH].
  - exists s0. split; [reflexivity |]. unfold figures. simpl. lia.
  - destruct IH as (s & Hs & Hc); [lia |].
    rewrite ContinuumFacts.iter_S.
    destruct (nth_error (enumerate (T e)) k) as [it|] eqn:Hit.
    + destruct (nth_error_enumerate _ _ _ Hit) as [Hfst _].
      destruct (ContinuumFacts.iter_ok e n s0 k Hwf HDx)
        as (s_ & Hs_ & Hwfs & _).
      assert (s_ = s) by congruence. subst s_.
      destruct (ContinuumFacts.step_ok e n s Hwfs HDx)
        as (s' & Hstep & _ & _ & _ & _ & Hcpt & _).
      rewrite Hs. cbn [bind]. unfold body. rewrite Hstep. cbn [bind].
      eexists. split; [reflexivity |]. cbn [bookkeeping cpt].
      rewrite Hfst, Hcpt, Hc, figures_S.
      destruct (k mod 10 =? 0)%nat; lia.
    + apply nth_error_None in Hit. unfold enumerate in Hit.
      rewrite length_combine, length_seq in Hit. lia.
Qed.

Lemma Dx_nonzero (c : config) :
  (2 <= Nx c)%Z -> xmin c <> xmax c ->
  (xmax c - xmin c) / INR (Z.to_nat (Nx c) - 1) <> 0.
Proof.
  intros HNx Hx H0.
  assert (Hn : INR (Z.to_nat (Nx c) - 1) <> 0) by (apply not_0_INR; lia).
  apply Rmult_integral in H0. destruct H0 as [H0 | H0]; [lra |].
  apply Rinv_neq_0_compat in H0; [exact H0 | exact Hn].
Qed.

(** A run on a grid with [xmin <> xmax] saves a figure for every tenth
    time, starting with the first: [cpt] ends at the number of multiples of
    10 below [Nt], which is [Nt/10] rounded up. *)
Theorem figures_saved (c : config) :
  (2 <= Nx c)%Z -> (2 <= Nt c)%Z -> xmin c <> xmax c ->
  vsum (map (rho1_ini c) (samples (xmin c) (xmax c) (Z.to_nat (Nx c)))) <> 0 ->
  vsum (map (rho2_ini c) (samples (xmin c) (xmax c) (Z.to_nat (Nx c)))) <> 0 ->
  exists s, run c = Ok s /\ cpt s = ((Z.to_nat (Nt c) + 9) / 10)%nat.
Proof.
  intros HNx HNt Hx H1 H2.
  destruct (setup_value c HNx HNt H1 H2)
    as (e & s0 & Hs & _ & EDx & ET & _).
  destruct (ContinuumFacts.setup_ok c e s0 Hs) as (Hwf & _ & _ & _ & _ & LT & _).
  assert (HDx : Dx e <> 0) by (rewrite EDx; apply Dx_nonzero; assumption).
  destruct (iter_cpt e _ s0 (length (T e)) Hwf HDx (Nat.le_refl _))
    as (s & Hit & Hc).
  rewrite ContinuumFacts.iter_all in Hit.
  exists s. unfold run. rewrite Hs. cbn [bind fst snd].
  split; [exact Hit |]. rewrite Hc, LT.
  unfold setup in Hs. unfold figures.
  assert (cpt s0 = 0%nat) as ->; [| reflexivity].
  apply bind_ok in Hs. destruct Hs as (? & _ & Hs).
  apply bind_ok in Hs. destruct Hs as (? & _ & Hs).
  apply bind_ok in Hs. destruct Hs as (? & _ & Hs).
  apply bind_ok in Hs. destruct Hs as (? & _ & Hs).
  apply bind_ok in Hs. destruct Hs as (? & _ & Hs).
  apply bind_ok in Hs. destruct Hs as (? & _ & Hs).
  injection Hs as _ <-. reflexivity.
Qed.

Lemma vsum_abs_le {A : Type} (f g : A -> R) (l : list A) :
  (forall x, Rabs (f x) <= g x) -> Rabs (vsum (map f l)) <= vsum (map g l).
Proof.
  intros H. induction l as [|x l IH]; simpl.
  - rewrite vsum_nil, Rabs_R0. lra.
  - rewrite !vsum_cons.
    eapply Rle_trans; [apply Rabs_triang |]. specialize (H x). lra.
Qed.

Lemma vsum_nth_seq (v : vec) :
  vsum (map (fun l => nth l v 0) (seq 0 (length v))) = vsum v.
Proof.
  rewrite (map_nth_seq (fun x => x) v 0), map_id. reflexivity.
Qed.

Lemma nonneg_nth (v : vec) (i : nat) : nonneg v -> 0 <= nth i v 0.
Proof.
  intros H. destruct (Nat.lt_ge_cases i (length v)) as [Hlt | Hge].
  - unfold nonneg in H. rewrite Forall_forall in H. apply H, nth_In, Hlt.
  - rewrite nth_overflow by exact Hge. lra.
Qed.

Lemma bounded_nonneg (M : R) (f : R -> R) : bounded_by M f -> 0 <= M.
Proof. intros H. eapply Rle_trans; [apply Rabs_pos | apply (H 0)]. Qed.

Lemma Rabs_sub_triang (a b : R) : Rabs (a - b) <= Rabs a + Rabs b.
Proof.
  unfold Rminus. eapply Rle_trans; [apply Rabs_triang |].
  rewrite Rabs_Ropp. lra.
Qed.

(** The velocities are bounded by the bounds of the kernel derivatives
    weighted by the masses: [|a1_i| <= M1 sum(rho1) + MK sum(rho2)] and
    [|a2_i| <= M2 sum(rho2) + |beta| MK sum(rho1)]. *)
Lemma velocities_bounded (c : config) (e : env) (n : nat) (s : store)
    (M1 M2 MK : R) (i : nat) :
  wf n s -> kernels_from c e n s -> e_beta e = beta c ->
  bounded_by M1 (dxW1 c) -> bounded_by M2 (dxW2 c) -> bounded_by MK (dxK c) ->
  nonneg (rho1 s) -> nonneg (rho2 s) ->
  Rabs (nth i (a1 (velocities e s)) 0)
    <= M1 * vsum (rho1 s) + MK * vsum (rho2 s) /\
  Rabs (nth i (a2 (velocities e s)) 0)
    <= M2 * vsum (rho2 s) + Rabs (beta c) * MK * vsum (rho1 s).
Proof.
  intros Hwf HK Hbeta B1 B2 BK N1 N2.
  pose proof (bounded_nonneg _ _ B1). pose proof (bounded_nonneg _ _ B2).
  pose proof (bounded_nonneg _ _ BK).
  pose proof (vsum_nonneg _ N1). pose proof (vsum_nonneg _ N2).
  pose proof (Rabs_pos (beta c)).
  destruct (ContinuumFacts.velocities_length e n s Hwf) as [La1 La2].
  destruct (Nat.lt_ge_cases i n) as [Hi | Hi].
  2:{ rewrite !nth_overflow by lia. rewrite Rabs_R0.
      split; repeat apply Rplus_le_le_0_compat;
        repeat apply Rmult_le_pos; assumption. }
  destruct (ContinuumFacts.velocities_spec c e n s i Hwf HK Hbeta Hi)
    as [-> ->].
  destruct HK as (Hg & _).
  unfold spec_a1, spec_a2. rewrite !Rabs_Ropp, Hg.
  rewrite <- (vsum_nth_seq (rho1 s)), <- (vsum_nth_seq (rho2 s)).
  rewrite (wf_rho1 _ _ Hwf), (wf_rho2 _ _ Hwf).
  rewrite (vsum_map_scale M1), (vsum_map_scale MK), (vsum_map_scale M2).
  rewrite Rmult_assoc, (vsum_map_scale MK), (vsum_map_scale (Rabs (beta c))).
  rewrite !vsum_map_add.
  split; apply vsum_abs_le; intros l.
  - pose proof (nonneg_nth _ l N1). pose proof (nonneg_nth _ l N2).
    eapply Rle_trans; [apply Rabs_triang |]. rewrite !Rabs_mult.
    rewrite (Rabs_right (nth l (rho1 s) 0)), (Rabs_right (nth l (rho2 s) 0))
      by lra.
    pose proof (B1 (nth i (grid e) 0 - nth l (grid e) 0)).
    pose proof (BK (nth i (grid e) 0 - nth l (grid e) 0)). nra.
  - pose proof (nonneg_nth _ l N1). pose proof (nonneg_nth _ l N2).
    eapply Rle_trans; [apply Rabs_sub_triang |]. rewrite !Rabs_mult.
    rewrite (Rabs_right (nth l (rho1 s) 0)), (Rabs_right (nth l (rho2 s) 0))
      by lra.
    pose proof (B2 (nth i (grid e) 0 - nth l (grid e) 0)).
    pose proof (BK (nth i (grid e) 0 - nth l (grid e) 0)).
    pose proof (Rabs_pos (dxK c (nth i (grid e) 0 - nth l (grid e) 0))).
    assert (Rabs (beta c)
            * (nth l (rho1 s) 0
               * Rabs (dxK c (nth i (grid e) 0 - nth l (grid e) 0)))
            <= Rabs (beta c) * (MK * nth l (rho1 s) 0)).
    { apply Rmult_le_compat_l; [assumption | nra]. }
    nra.
Qed.

Lemma max_abs_le (a : vec) (B : R) :
  0 <= B -> (forall i, Rabs (nth i a 0) <= B) -> max_abs a <= B.
Proof.
  intros HB H. unfold max_abs. induction a as [|x a IH]; simpl.
  - exact HB.
  - apply Rmax_lub.
    + apply (H 0%nat).
    + apply IH. intros i. apply (H (S i)).
Qed.

(** For kernel derivatives bounded by [M1], [M2], [MK] and non-negative
    densities, [max(|a1|) <= M1 sum(rho1) + MK sum(rho2)] and
    [max(|a2|) <= M2 sum(rho2) + |beta| MK sum(rho1)]; so the CFL condition
    holds as soon as [Dt/Dx] times these bounds is at most 1. *)
Theorem velocity_bound (c : config) (e : env) (n : nat) (s : store)
    (M1 M2 MK : R) :
  wf n s -> kernels_from c e n s -> e_beta e = beta c ->
  bounded_by M1 (dxW1 c) -> bounded_by M2 (dxW2 c) -> bounded_by MK (dxK c) ->
  nonneg (rho1 s) -> nonneg (rho2 s) ->
  max_abs (a1 (velocities e s)) <= M1 * vsum (rho1 s) + MK * vsum (rho2 s) /\
  max_abs (a2 (velocities e s))
    <= M2 * vsum (rho2 s) + Rabs (beta c) * MK * vsum (rho1 s) /\
  (0 <= Dt e -> 0 < Dx e ->
   Dt e / Dx e * (M1 * vsum (rho1 s) + MK * vsum (rho2 s)) <= 1 ->
   Dt e / Dx e * (M2 * vsum (rho2 s) + Rabs (beta c) * MK * vsum (rho1 s)) <= 1 ->
   cfl e (a1 (velocities e s)) /\ cfl e (a2 (velocities e s))).
Proof.
  intros Hwf HK Hbeta B1 B2 BK N1 N2.
  pose proof (bounded_nonneg _ _ B1). pose proof (bounded_nonneg _ _ B2).
  pose proof (bounded_nonneg _ _ BK).
  pose proof (vsum_nonneg _ N1). pose proof (vsum_nonneg _ N2).
  pose proof (Rabs_pos (beta c)).
  assert (A1 : max_abs (a1 (velocities e s))
               <= M1 * vsum (rho1 s) + MK * vsum (rho2 s)).
  { apply max_abs_le.
    - repeat apply Rplus_le_le_0_compat; repeat apply Rmult_le_pos; assumption.
    - intros i.
      apply (velocities_bounded c e n s M1 M2 MK i); assumption. }
  assert (A2 : max_abs (a2 (velocities e s))
               <= M2 * vsum (rho2 s) + Rabs (beta c) * MK * vsum (rho1 s)).
  { apply max_abs_le.
    - repeat apply Rplus_le_le_0_compat; repeat apply Rmult_le_pos; assumption.
    - intros i.
      apply (velocities_bounded c e n s M1 M2 MK i); assumption. }
  split; [exact A1 |]. split; [exact A2 |].
  intros HDt HDx C1 C2.
  assert (Hlam : 0 <= Dt e / Dx e).
  { apply Rmult_le_pos; [exact HDt |]. left. apply Rinv_0_lt_compat. exact HDx. }
  unfold cfl.
  replace (Dt e * max_abs (a1 (velocities e s)) / Dx e)
    with (Dt e / Dx e * max_abs (a1 (velocities e s))) by (field; lra).
  replace (Dt e * max_abs (a2 (velocities e s)) / Dx e)
    with (Dt e / Dx e * max_abs (a2 (velocities e s))) by (field; lra).
  split; nra.
Qed.

(** With bounded kernel derivatives and [Dt/Dx] small enough for the
    initial masses, every prefix of the loop keeps the two densities
    non-negative and their sums at most the initial ones: the CFL condition
    holds by itself along the run. *)
Lemma stable_iter (c : config) (e : env) (n : nat) (s0 : store)
    (M1 M2 MK : R) (k : nat) :
  wf n s0 -> kernels_from c e n s0 -> e_beta e = beta c ->
  bounded_by M1 (dxW1 c) -> bounded_by M2 (dxW2 c) -> bounded_by MK (dxK c) ->
  nonneg (rho1 s0) -> nonneg (rho2 s0) ->
  0 <= Dt e -> 0 < Dx e ->
  Dt e / Dx e * (M1 * vsum (rho1 s0) + MK * vsum (rho2 s0)) <= 1 ->
  Dt e / Dx e * (M2 * vsum (rho2 s0) + Rabs (beta c) * MK * vsum (rho1 s0)) <= 1 ->
  exists s, iter e k s0 = Ok s /\
            nonneg (rho1 s) /\ nonneg (rho2 s) /\
            vsum (rho1 s) <= vsum (rho1 s0) /\
            vsum (rho2 s) <= vsum (rho2 s0).
Proof.
  intros Hwf0 HK0 Hbeta B1 B2 BK N10 N20 HDt HDx C1 C2.
  assert (HDx' : Dx e <> 0) by lra.
  assert (Hlam : 0 <= Dt e / Dx e).
  { apply Rmult_le_pos; [exact HDt |]. left. apply Rinv_0_lt_compat. exact HDx. }
  pose proof (bounded_nonneg _ _ B1). pose proof (bounded_nonneg _ _ B2).
  pose proof (bounded_nonneg _ _ BK). pose proof (Rabs_pos (beta c)).
  induction k as [|k (s & Hs & N1 & N2 & S1 & S2)].
  - exists s0. split; [reflexivity |]. repeat split; auto; lra.
  - rewrite ContinuumFacts.iter_S.
    destruct (nth_error _ k) as [it|]; [| exists s; auto].
    destruct (ContinuumFacts.iter_ok e n s0 k Hwf0 HDx')
      as (s_ & Hs_ & Hwf & W1 & W2 & W3).
    assert (s_ = s) by congruence. subst s_.
    assert (HK : kernels_from c e n s).
    { destruct HK0 as (Hg & E1 & E2 & E3). unfold kernels_from.
      rewrite W1, W2, W3. auto. }
    destruct (ContinuumFacts.step_ok e n s Hwf HDx')
      as (s' & Hstep & _ & _ & _ & _ & _ & _ & _ & _ & E1 & E2).
    destruct (ContinuumFacts.velocities_length e n s Hwf) as [La1 La2].
    pose proof (vsum_nonneg _ N1). pose proof (vsum_nonneg _ N2).
    rewrite Hs. cbn [bind]. unfold body. rewrite Hstep. cbn [bind].
    eexists. split; [reflexivity |]. cbn [bookkeeping rho1 rho2].
    rewrite E1, E2.
    assert (L1 : forall i, Dt e / Dx e * Rabs (nth i (a1 (velocities e s)) 0) <= 1).
    { intros i.
      destruct (velocities_bounded c e n s M1 M2 MK i Hwf HK Hbeta B1 B2 BK
                  N1 N2) as [Hb _].
      assert (M1 * vsum (rho1 s) + MK * vsum (rho2 s)
              <= M1 * vsum (rho1 s0) + MK * vsum (rho2 s0)) by nra.
      pose proof (Rabs_pos (nth i (a1 (velocities e s)) 0)). nra. }
    assert (L2 : forall i, Dt e / Dx e * Rabs (nth i (a2 (velocities e s)) 0) <= 1).
    { intros i.
      destruct (velocities_bounded c e n s M1 M2 MK i Hwf HK Hbeta B1 B2 BK
                  N1 N2) as [_ Hb].
      assert (Rabs (beta c) * MK * vsum (rho1 s)
              <= Rabs (beta c) * MK * vsum (rho1 s0)).
      { apply Rmult_le_compat_l; [apply Rmult_le_pos; assumption | exact S1]. }
      assert (M2 * vsum (rho2 s) <= M2 * vsum (rho2 s0)) by nra.
      pose proof (Rabs_pos (nth i (a2 (velocities e s)) 0)). nra. }
    split; [apply ContinuumFacts.spec_update_nonneg; assumption |].
    split; [apply ContinuumFacts.spec_update_nonneg; assumption |].
    rewrite !(ContinuumFacts.vsum_spec_update e n)
      by (auto using wf_rho1, wf_rho2).
    pose proof (ContinuumFacts.outflow_nonneg n (a1 (velocities e s)) (rho1 s)
                  (nonneg_nth _ _ N1) (nonneg_nth _ _ N1)).
    pose proof (ContinuumFacts.outflow_nonneg n (a2 (velocities e s)) (rho2 s)
                  (nonneg_nth _ _ N2) (nonneg_nth _ _ N2)).
    split; nra.
Qed.

(** A whole run, from the parameters: with non-negative initial functions,
    kernel derivatives bounded by [M1], [M2], [MK], a grid with
    [xmin < xmax], [tf >= 0], and [Dt/Dx] times [M1 + MK] and times
    [M2 + |beta| MK] at most 1, the run goes through all its iterations and
    after each of them the densities are non-negative with sums at most 1. *)
Theorem stable_run (c : config) (M1 M2 MK : R) :
  (2 <= Nx c)%Z -> (2 <= Nt c)%Z -> xmin c < xmax c -> 0 <= tf c ->
  vsum (map (rho1_ini c) (samples (xmin c) (xmax c) (Z.to_nat (Nx c)))) <> 0 ->
  vsum (map (rho2_ini c) (samples (xmin c) (xmax c) (Z.to_nat (Nx c)))) <> 0 ->
  (forall x, 0 <= rho1_ini c x) -> (forall x, 0 <= rho2_ini c x) ->
  bounded_by M1 (dxW1 c) -> bounded_by M2 (dxW2 c) -> bounded_by MK (dxK c) ->
  tf c / INR (Z.to_nat (Nt c) - 1)
    / ((xmax c - xmin c) / INR (Z.to_nat (Nx c) - 1)) * (M1 + MK) <= 1 ->
  tf c / INR (Z.to_nat (Nt c) - 1)
    / ((xmax c - xmin c) / INR (Z.to_nat (Nx c) - 1))
    * (M2 + Rabs (beta c) * MK) <= 1 ->
  exists e s0,
    setup c = Ok (e, s0) /\
    (forall k, exists s,
       iter e k s0 = Ok s /\ nonneg (rho1 s) /\ nonneg (rho2 s) /\
       vsum (rho1 s) <= 1 /\ vsum (rho2 s) <= 1) /\
    (exists s,
       run c = Ok s /\ nonneg (rho1 s) /\ nonneg (rho2 s) /\
       vsum (rho1 s) <= 1 /\ vsum (rho2 s) <= 1).
Proof.
  intros HNx HNt Hx Htf H1 H2 P1 P2 B1 B2 BK C1 C2.
  destruct (setup_value c HNx HNt H1 H2)
    as (e & s0 & Hs & Eg & EDx & ET & EDt & E1 & E2).
  destruct (ContinuumFacts.setup_ok c e s0 Hs)
    as (Hwf & HK & Hbeta & _).
  assert (Hn : 0 < INR (Z.to_nat (Nx c) - 1)) by (apply lt_0_INR; lia).
  assert (Hm : 0 < INR (Z.to_nat (Nt c) - 1)) by (apply lt_0_INR; lia).
  assert (HDx : 0 < Dx e).
  { rewrite EDx. apply Rmult_lt_0_compat; [lra |].
    apply Rinv_0_lt_compat. exact Hn. }
  assert (HDt : 0 <= Dt e).
  { rewrite EDt, Rminus_0_r. apply Rmult_le_pos; [exact Htf |].
    left. apply Rinv_0_lt_compat. exact Hm. }
  assert (S1 : vsum (rho1 s0) = 1) by (rewrite E1; apply vsum_normalised; rewrite Eg; exact H1).
  assert (S2 : vsum (rho2 s0) = 1) by (rewrite E2; apply vsum_normalised; rewrite Eg; exact H2).
  assert (N1 : nonneg (rho1 s0)).
  { rewrite E1. apply normalised_nonneg; [| rewrite Eg; exact H1].
    unfold nonneg. apply Forall_forall. intros y Hy.
    apply in_map_iff in Hy. destruct Hy as (x & <- & _). apply P1. }
  assert (N2 : nonneg (rho2 s0)).
  { rewrite E2. apply normalised_nonneg; [| rewrite Eg; exact H2].
    unfold nonneg. apply Forall_forall. intros y Hy.
    apply in_map_iff in Hy. destruct Hy as (x & <- & _). apply P2. }
  assert (All : forall k, exists s,
            iter e k s0 = Ok s /\ nonneg (rho1 s) /\ nonneg (rho2 s) /\
            vsum (rho1 s) <= 1 /\ vsum (rho2 s) <= 1).
  { intros k.
    destruct (stable_iter c e _ s0 M1 M2 MK k Hwf HK Hbeta B1 B2 BK N1 N2
                HDt HDx) as (s & Hit & A & B & C & D).
    - rewrite S1, S2, EDt, EDx, Rminus_0_r, !Rmult_1_r. exact C1.
    - rewrite S1, S2, EDt, EDx, Rminus_0_r, !Rmult_1_r. exact C2.
    - exists s. rewrite S1 in C. rewrite S2 in D. auto. }
  exists e, s0. split; [exact Hs |]. split; [exact All |].
  destruct (All (length (T e))) as (s & Hit & R).
  rewrite ContinuumFacts.iter_all in Hit.
  exists s. unfold run. rewrite Hs. cbn [bind fst snd]. auto.
Qed.

Lemma vsum_rev (v : vec) : vsum (rev v) = vsum v.
Proof.
  induction v as [|x v IH]; simpl; [reflexivity |].
  rewrite vsum_app, vsum_cons, vsum_cons, vsum_nil, IH. lra.
Qed.

Lemma rev_seq_0 (n : nat) :
  rev (seq 0 n) = map (fun l => (n - 1 - l)%nat) (seq 0 n).
Proof.
  apply (nth_ext _ _ 0%nat 0%nat).
  - rewrite length_rev, length_map. reflexivity.
  - intros i Hi. rewrite length_rev, length_seq in Hi.
    rewrite rev_nth by (rewrite length_seq; exact Hi).
    rewrite length_seq, seq_nth by lia.
    rewrite (nth_indep _ 0%nat ((fun l => (n - 1 - l)%nat) 0%nat))
      by (rewrite length_map, length_seq; exact Hi).
    rewrite (map_nth (fun l => (n - 1 - l)%nat)), seq_nth by exact Hi. lia.
Qed.

(** A sum over the cells may be read from the last cell to the first. *)
Lemma vsum_seq_rev (g : nat -> R) (n : nat) :
  vsum (map g (seq 0 n)) = vsum (map (fun l => g (n - 1 - l)%nat) (seq 0 n)).
Proof.
  rewrite <- (vsum_rev (map g (seq 0 n))), <- map_rev, rev_seq_0, map_map.
  reflexivity.
Qed.

Lemma nth_mirror (v : vec) (n i : nat) :
  length v = n -> (i < n)%nat -> nth i (mirror v) 0 = nth (n - 1 - i) v 0.
Proof.
  intros <- Hi. unfold mirror. rewrite rev_nth by exact Hi.
  f_equal. lia.
Qed.

Lemma cell_outside (v : vec) (n : nat) (j : Z) :
  length v = n -> (j < 0 \/ Z.of_nat n <= j)%Z -> cell v j = 0.
Proof.
  intros Hv Hj. unfold cell. destruct (Z.ltb_spec j 0); [reflexivity |].
  apply nth_overflow. lia.
Qed.

(** Cells of mirrored arrays, inside and just outside the domain. *)
Lemma cell_mirrored (v v' : vec) (n : nat) (sg : R) (j : Z) :
  length v = n -> length v' = n ->
  (forall i, (i < n)%nat -> nth i v' 0 = sg * nth (n - 1 - i) v 0) ->
  cell v' j = sg * cell v (Z.of_nat n - 1 - j).
Proof.
  intros Hv Hv' H.
  destruct (Z_lt_le_dec j 0) as [Hneg | Hpos].
  - rewrite (cell_outside v' n j), (cell_outside v n) by (auto; lia). ring.
  - destruct (Z_lt_le_dec j (Z.of_nat n)) as [Hin | Hout].
    + replace j with (Z.of_nat (Z.to_nat j)) at 1 by lia.
      replace (Z.of_nat n - 1 - j)%Z with (Z.of_nat (n - 1 - Z.to_nat j))
        by lia.
      rewrite !ContinuumFacts.cell_of_nat. apply H. lia.
    + rewrite (cell_outside v' n j), (cell_outside v n) by (auto; lia). ring.
Qed.

(** The upwind update of the mirrored density moved by the opposite
    mirrored velocity is the mirrored update. *)
Lemma spec_update_mirror (lam : R) (a a' rho rho' : vec) (n : nat) :
  length a = n -> length a' = n -> length rho = n -> length rho' = n ->
  (forall i, (i < n)%nat -> nth i a' 0 = -1 * nth (n - 1 - i) a 0) ->
  (forall i, (i < n)%nat -> nth i rho' 0 = 1 * nth (n - 1 - i) rho 0) ->
  spec_update lam a' rho' n = mirror (spec_update lam a rho n).
Proof.
  intros La La' Lr Lr' Ha Hr. apply (nth_ext _ _ 0 0).
  - unfold mirror. rewrite length_rev, !ContinuumFacts.spec_update_length.
    reflexivity.
  - intros i Hi. rewrite ContinuumFacts.spec_update_length in Hi.
    rewrite (nth_mirror _ n) by (auto using ContinuumFacts.spec_update_length).
    rewrite !ContinuumFacts.nth_spec_update by lia.
    rewrite (Hr i Hi). unfold spec_flux.
    rewrite !(cell_mirrored a a' n (-1)) by assumption.
    rewrite !(cell_mirrored rho rho' n 1) by assumption.
    replace (Z.of_nat n - 1 - Z.of_nat i)%Z with (Z.of_nat (n - 1 - i)) by lia.
    replace (Z.of_nat n - 1 - (Z.of_nat i + 1))%Z
      with (Z.of_nat (n - 1 - i) - 1)%Z by lia.
    replace (Z.of_nat n - 1 - (Z.of_nat i - 1))%Z
      with (Z.of_nat (n - 1 - i) + 1)%Z by lia.
    replace (Z.of_nat n - 1 - (Z.of_nat i - 1 + 1))%Z
      with (Z.of_nat (n - 1 - i)) by lia.
    replace (Z.of_nat (n - 1 - i) - 1 + 1)%Z with (Z.of_nat (n - 1 - i)) by lia.
    rewrite !ContinuumFacts.cell_of_nat.
    replace (-1 * nth (n - 1 - i) a 0) with (- nth (n - 1 - i) a 0) by ring.
    replace (- (-1 * cell a (Z.of_nat (n - 1 - i) - 1)))
      with (cell a (Z.of_nat (n - 1 - i) - 1)) by ring.
    replace (-1 * cell a (Z.of_nat (n - 1 - i) + 1))
      with (- cell a (Z.of_nat (n - 1 - i) + 1)) by ring.
    replace (- - nth (n - 1 - i) a 0) with (nth (n - 1 - i) a 0) by ring.
    ring.
Qed.

Lemma samples_symmetric (a b : R) (n : nat) :
  (2 <= n)%nat -> symmetric_grid (samples a b n) n (a + b).
Proof.
  intros Hn i Hi. rewrite !nth_samples by lia.
  assert (H0 : INR (n - 1) <> 0) by (apply not_0_INR; lia).
  replace (n - 1 - i)%nat with ((n - 1) - i)%nat by lia.
  rewrite minus_INR by lia. field. exact H0.
Qed.

(** With the same odd kernel for both species, no coupling and a symmetric
    grid, the velocity of the mirrored density is the opposite mirrored
    velocity. *)
Lemma velocities_mirror (c : config) (e : env) (n : nat) (s : store) (C : R)
    (i : nat) :
  wf n s -> kernels_from c e n s -> e_beta e = beta c ->
  odd (dxW1 c) -> (forall x, dxW2 c x = dxW1 c x) -> (forall x, dxK c x = 0) ->
  symmetric_grid (grid e) n C -> rho2 s = mirror (rho1 s) ->
  (i < n)%nat ->
  nth i (a2 (velocities e s)) 0 = -1 * nth (n - 1 - i) (a1 (velocities e s)) 0.
Proof.
  intros Hwf HK Hbeta Hodd HW HK0 Hsym Hmir Hi.
  destruct (ContinuumFacts.velocities_spec c e n s i Hwf HK Hbeta Hi)
    as [_ ->].
  destruct (ContinuumFacts.velocities_spec c e n s (n - 1 - i) Hwf HK Hbeta)
    as [-> _]; [lia |].
  destruct HK as (Hg & _). pose proof (wf_rho1 _ _ Hwf) as L1.
  unfold spec_a1, spec_a2. rewrite Hg.
  rewrite (vsum_seq_rev (fun l => nth l (rho1 s) 0 * _ + _) n).
  replace (-1 * - vsum (map (fun l : nat =>
             nth (n - 1 - l) (rho1 s) 0
             * dxW1 c (nth (n - 1 - i) (grid e) 0 - nth (n - 1 - l) (grid e) 0)
             + nth (n - 1 - l) (rho2 s) 0
               * dxK c (nth (n - 1 - i) (grid e) 0
                        - nth (n - 1 - l) (grid e) 0)) (seq 0 n)))
    with (- vsum (map (fun l : nat =>
             - (nth (n - 1 - l) (rho1 s) 0
             * dxW1 c (nth (n - 1 - i) (grid e) 0 - nth (n - 1 - l) (grid e) 0)
             + nth (n - 1 - l) (rho2 s) 0
               * dxK c (nth (n - 1 - i) (grid e) 0
                        - nth (n - 1 - l) (grid e) 0))) (seq 0 n)))
    by (rewrite vsum_map_opp; ring).
  f_equal. f_equal. apply map_ext_in. intros l Hl. apply in_seq in Hl.
  rewrite !HK0, HW, Hmir, (nth_mirror _ n) by (auto; lia).
  rewrite (Hsym i) by lia. rewrite (Hsym l) by lia.
  replace (C - nth i (grid e) 0 - (C - nth l (grid e) 0))
    with (- (nth i (grid e) 0 - nth l (grid e) 0)) by ring.
  rewrite Hodd. ring.
Qed.

(** Mirror images stay mirror images through every prefix of the loop. *)
Lemma mirror_iter (c : config) (e : env) (n : nat) (s0 : store) (C : R)
    (k : nat) :
  wf n s0 -> kernels_from c e n s0 -> e_beta e = beta c -> Dx e <> 0 ->
  odd (dxW1 c) -> (forall x, dxW2 c x = dxW1 c x) -> (forall x, dxK c x = 0) ->
  symmetric_grid (grid e) n C -> rho2 s0 = mirror (rho1 s0) ->
  exists s, iter e k s0 = Ok s /\ rho2 s = mirror (rho1 s).
Proof.
  intros Hwf0 HK0 Hbeta HDx Hodd HW HKz Hsym Hm0.
  induction k as [|k (s & Hs & Hm)].
  - exists s0. split; [reflexivity | exact Hm0].
  - rewrite ContinuumFacts.iter_S.
    destruct (nth_error _ k) as [it|]; [| exists s; auto].
    destruct (ContinuumFacts.iter_ok e n s0 k Hwf0 HDx)
      as (s_ & Hs_ & Hwf & W1 & W2 & W3).
    assert (s_ = s) by congruence. subst s_.
    assert (HK : kernels_from c e n s).
    { destruct HK0 as (Hg & E1 & E2 & E3). unfold kernels_from.
      rewrite W1, W2, W3. auto. }
    destruct (ContinuumFacts.step_ok e n s Hwf HDx)
      as (s' & Hstep & _ & _ & _ & _ & _ & _ & _ & _ & E1 & E2).
    destruct (ContinuumFacts.velocities_length e n s Hwf) as [La1 La2].
    rewrite Hs. cbn [bind]. unfold body. rewrite Hstep. cbn [bind].
    eexists. split; [reflexivity |]. cbn [bookkeeping rho1 rho2].
    rewrite E1, E2.
    apply spec_update_mirror; auto using wf_rho1, wf_rho2.
    + intros i Hi. apply (velocities_mirror c e n s C i); assumption.
    + intros i Hi. rewrite Hm, (nth_mirror _ n) by (auto using wf_rho1). ring.
Qed.

Lemma normalised_mirror (v : vec) : normalised (mirror v) = mirror (normalised v).
Proof.
  unfold normalised, mirror. rewrite vsum_rev, map_rev. reflexivity.
Qed.

(** A whole run, from the parameters: when both species have the same odd
    kernel derivative, there is no coupling ([K' = 0]) and the second
    initial function is the first one mirrored about the middle of
    [[xmin, xmax]], the second density is the mirror image of the first
    after every iteration. *)
Theorem mirror_run (c : config) :
  (2 <= Nx c)%Z -> (2 <= Nt c)%Z -> xmin c <> xmax c ->
  vsum (map (rho1_ini c) (samples (xmin c) (xmax c) (Z.to_nat (Nx c)))) <> 0 ->
  odd (dxW1 c) -> (forall x, dxW2 c x = dxW1 c x) -> (forall x, dxK c x = 0) ->
  (forall x, rho2_ini c x = rho1_ini c (xmin c + xmax c - x)) ->
  exists e s0,
    setup c = Ok (e, s0) /\
    rho2 s0 = mirror (rho1 s0) /\
    (forall k, exists s, iter e k s0 = Ok s /\ rho2 s = mirror (rho1 s)) /\
    (exists s, run c = Ok s /\ rho2 s = mirror (rho1 s)).
Proof.
  intros HNx HNt Hx H1 Hodd HW HKz Hini.
  pose proof (samples_symmetric (xmin c) (xmax c) (Z.to_nat (Nx c))
                ltac:(lia)) as Hsym.
  set (g := samples (xmin c) (xmax c) (Z.to_nat (Nx c))) in *.
  assert (Hmap : map (rho2_ini c) g = mirror (map (rho1_ini c) g)).
  { apply (nth_ext _ _ 0 0).
    - unfold mirror. rewrite length_rev, !length_map. reflexivity.
    - intros i Hi. rewrite length_map in Hi. unfold g in Hi.
      rewrite samples_length in Hi.
      rewrite (nth_mirror _ (Z.to_nat (Nx c)))
        by (rewrite ?length_map; unfold g; rewrite ?samples_length; auto).
      rewrite !nth_map_0
        by (unfold g; rewrite samples_length; lia).
      rewrite Hini, (Hsym i Hi). reflexivity. }
  assert (H2 : vsum (map (rho2_ini c) g) <> 0).
  { rewrite Hmap. unfold mirror. rewrite vsum_rev. exact H1. }
  destruct (setup_value c HNx HNt H1 H2)
    as (e & s0 & Hs & Eg & EDx & ET & EDt & E1 & E2).
  destruct (ContinuumFacts.setup_ok c e s0 Hs) as (Hwf & HK & Hbeta & _).
  assert (HDx : Dx e <> 0) by (rewrite EDx; apply Dx_nonzero; assumption).
  assert (Hm0 : rho2 s0 = mirror (rho1 s0)).
  { rewrite E1, E2, Eg. fold g. rewrite Hmap. apply normalised_mirror. }
  assert (Hsym' : symmetric_grid (grid e) (Z.to_nat (Nx c)) (xmin c + xmax c))
    by (rewrite Eg; exact Hsym).
  assert (All : forall k, exists s,
            iter e k s0 = Ok s /\ rho2 s = mirror (rho1 s)).
  { intros k.
    apply (mirror_iter c e (Z.to_nat (Nx c)) s0 (xmin c + xmax c) k);
      assumption. }
  exists e, s0. split; [exact Hs |]. split; [exact Hm0 |].
  split; [exact All |].
  destruct (All (length (T e))) as (s & Hit & Hm).
  rewrite ContinuumFacts.iter_all in Hit.
  exists s. unfold run. rewrite Hs. cbn [bind fst snd]. auto.
Qed.

(** Where every cell has either no velocity or no density, nothing flows. *)
Lemma spec_update_no_flux (lam : R) (a rho : vec) (n : nat) :
  length rho = n -> (forall j, nth j a 0 = 0 \/ nth j rho 0 = 0) ->
  spec_update lam a rho n = rho.
Proof.
  intros Hrho H. apply (nth_ext _ _ 0 0).
  - rewrite ContinuumFacts.spec_update_length. auto.
  - intros i Hi. rewrite ContinuumFacts.spec_update_length in Hi.
    rewrite ContinuumFacts.nth_spec_update by exact Hi.
    assert (Hc : forall j, Rmax (cell a j) 0 * cell rho j = 0 /\
                           Rmax (- cell a j) 0 * cell rho j = 0).
    { intros j. unfold cell. destruct (j <? 0)%Z.
      - rewrite Ropp_0, Rmax_left by lra. lra.
      - destruct (H (Z.to_nat j)) as [-> | ->].
        + rewrite Ropp_0, Rmax_left by lra. lra.
        + lra. }
    unfold spec_flux.
    rewrite (proj1 (Hc (Z.of_nat i))), (proj2 (Hc (Z.of_nat i + 1)%Z)).
    rewrite (proj1 (Hc (Z.of_nat i - 1)%Z)), (proj2 (Hc (Z.of_nat i - 1 + 1)%Z)).
    lra.
Qed.

(** Both species gathered in one and the same cell [m] stay there: when
    the three kernel derivatives vanish at 0 the velocities vanish in that
    cell, and no iteration changes the densities. *)
Theorem concentrated_steady (c : config) (e : env) (n : nat) (s0 : store)
    (m k : nat) :
  wf n s0 -> kernels_from c e n s0 -> e_beta e = beta c -> Dx e <> 0 ->
  dxW1 c 0 = 0 -> dxW2 c 0 = 0 -> dxK c 0 = 0 ->
  (forall l, l <> m -> nth l (rho1 s0) 0 = 0 /\ nth l (rho2 s0) 0 = 0) ->
  exists s, iter e k s0 = Ok s /\ rho1 s = rho1 s0 /\ rho2 s = rho2 s0.
Proof.
  intros Hwf0 HK0 Hbeta HDx Z1 Z2 ZK Hsupp.
  induction k as [|k (s & Hs & R1 & R2)].
  - exists s0. split; [reflexivity | auto].
  - rewrite ContinuumFacts.iter_S.
    destruct (nth_error _ k) as [it|]; [| exists s; auto].
    destruct (ContinuumFacts.iter_ok e n s0 k Hwf0 HDx)
      as (s_ & Hs_ & Hwf & W1 & W2 & W3).
    assert (s_ = s) by congruence. subst s_.
    assert (HK : kernels_from c e n s).
    { destruct HK0 as (Hg & E1 & E2 & E3). unfold kernels_from.
      rewrite W1, W2, W3. auto. }
    destruct (ContinuumFacts.step_ok e n s Hwf HDx)
      as (s' & Hstep & _ & _ & _ & _ & _ & _ & _ & _ & E1 & E2).
    destruct (ContinuumFacts.velocities_length e n s Hwf) as [La1 La2].
    assert (Vm : nth m (a1 (velocities e s)) 0 = 0 /\
                 nth m (a2 (velocities e s)) 0 = 0).
    { destruct (Nat.lt_ge_cases m n) as [Hm | Hm].
      - destruct (ContinuumFacts.velocities_spec c e n s m Hwf HK Hbeta Hm)
          as [-> ->].
        unfold spec_a1, spec_a2.
        rewrite !vsum_map_zero; [lra | |]; intros l; rewrite R1, R2;
          destruct (Nat.eq_dec l m) as [-> | Hne];
          try (rewrite Rminus_diag, ?Z1, ?Z2, ?ZK; lra);
          destruct (Hsupp l Hne) as [-> ->]; lra.
      - rewrite !nth_overflow by lia. auto. }
    rewrite Hs. cbn [bind]. unfold body. rewrite Hstep. cbn [bind].
    eexists. split; [reflexivity |]. cbn [bookkeeping rho1 rho2].
    rewrite E1, E2, !spec_update_no_flux; auto using wf_rho1, wf_rho2;
      intros j; destruct (Nat.eq_dec j m) as [-> | Hne];
      try (left; apply Vm); right; rewrite ?R1, ?R2; apply Hsupp; exact Hne.
Qed.

End ContinuumMore.

(** * More on the particle program *)

Module DiscreteMore.
Import Discrete DiscreteSpec MoreSpec.

Lemma sqrt_square (dx dy : R) :
  sqrt (dx ^ 2 + dy ^ 2) * sqrt (dx ^ 2 + dy ^ 2) = dx ^ 2 + dy ^ 2.
Proof. apply sqrt_sqrt. nra. Qed.

Lemma entry_apart (fprime : R -> R) (dx dy : R) :
  0 < sqrt (dx ^ 2 + dy ^ 2) ->
  entry_x fprime dx dy
    = dx / sqrt (dx ^ 2 + dy ^ 2) * fprime (sqrt (dx ^ 2 + dy ^ 2)) /\
  entry_y fprime dx dy
    = dy / sqrt (dx ^ 2 + dy ^ 2) * fprime (sqrt (dx ^ 2 + dy ^ 2)) /\
  (entry_x fprime dx dy) ^ 2 + (entry_y fprime dx dy) ^ 2
    = (fprime (sqrt (dx ^ 2 + dy ^ 2))) ^ 2.
Proof.
  intros Hr. unfold entry_x, entry_y.
  rewrite (DiscreteFacts.avoid_zero_id _ Hr).
  pose proof (sqrt_square dx dy) as Hs.
  set (r := sqrt (dx ^ 2 + dy ^ 2)) in *.
  split; [field; lra |]. split; [field; lra |].
  replace ((dx * fprime r / r) ^ 2 + (dy * fprime r / r) ^ 2)
    with ((dx ^ 2 + dy ^ 2) * (fprime r) ^ 2 / (r * r)) by (field; lra).
  rewrite <- Hs. field. lra.
Qed.

Lemma entry_x_odd (fprime : R -> R) (dx dy : R) :
  entry_x fprime (- dx) (- dy) = - entry_x fprime dx dy.
Proof.
  rewrite !DiscreteFacts.entry_x_grad. apply DiscreteFacts.grad_x_odd.
Qed.

Lemma entry_y_odd (fprime : R -> R) (dx dy : R) :
  entry_y fprime (- dx) (- dy) = - entry_y fprime dx dy.
Proof.
  rewrite !DiscreteFacts.entry_y_grad. apply DiscreteFacts.grad_y_odd.
Qed.

(** Sums over pairs: the order of the two sums, and the sum of an
    antisymmetric table. *)
Lemma vsum_swap {A B : Type} (h : A -> B -> R) (P : list A) (Q : list B) :
  vsum (map (fun p => vsum (map (h p) Q)) P) =
  vsum (map (fun q => vsum (map (fun p => h p q) P)) Q).
Proof.
  induction P as [|p P IH]; simpl.
  - rewrite vsum_nil. symmetry. apply vsum_map_zero. intros q. apply vsum_nil.
  - rewrite vsum_cons, IH, vsum_map_add. f_equal. apply map_ext.
    intros q. rewrite vsum_cons. reflexivity.
Qed.

Lemma vsum_antisymmetric {A : Type} (h : A -> A -> R) (P : list A) :
  (forall p q, h p q = - h q p) ->
  vsum (map (fun p => vsum (map (h p) P)) P) = 0.
Proof.
  intros H.
  assert (E : vsum (map (fun p => vsum (map (h p) P)) P) =
              - vsum (map (fun p => vsum (map (h p) P)) P)).
  { rewrite vsum_swap at 1. rewrite <- vsum_map_opp. f_equal.
    apply map_ext. intros q. rewrite <- vsum_map_opp. f_equal.
    apply map_ext. intros p. apply H. }
  lra.
Qed.

Lemma outer_shape {A B : Type} (h : A -> B -> R) (P : list A) (Q : list B) :
  length (outer h P Q) = length P /\
  Forall (fun row => length row = length Q) (outer h P Q).
Proof.
  unfold outer. split; [apply length_map |].
  apply Forall_forall. intros row Hrow. apply in_map_iff in Hrow.
  destruct Hrow as (p & <- & _). apply length_map.
Qed.

(** The entries of a block of interactions for a pair of distinct points:
    the unit vector from the second point to the first, times the
    derivative at their distance; the two entries of a pair have the norm
    of that derivative. *)
Theorem interaction_entries (fprime : R -> R) (xa ya : vec) (na : nat)
    (xb yb : vec) (nb : nat) :
  length xa = na -> length ya = na -> length xb = nb -> length yb = nb ->
  exists dxS dyS,
    interactions fprime xa ya na xb yb nb = Ok (dxS, dyS) /\
    length dxS = na /\ length dyS = na /\
    Forall (fun row => length row = nb) dxS /\
    Forall (fun row => length row = nb) dyS /\
    forall i j, (i < na)%nat -> (j < nb)%nat ->
      0 < dist (nth i xa 0) (nth i ya 0) (nth j xb 0) (nth j yb 0) ->
      nth j (nth i dxS []) 0 =
        (nth i xa 0 - nth j xb 0)
        / dist (nth i xa 0) (nth i ya 0) (nth j xb 0) (nth j yb 0)
        * fprime (dist (nth i xa 0) (nth i ya 0) (nth j xb 0) (nth j yb 0)) /\
      nth j (nth i dyS []) 0 =
        (nth i ya 0 - nth j yb 0)
        / dist (nth i xa 0) (nth i ya 0) (nth j xb 0) (nth j yb 0)
        * fprime (dist (nth i xa 0) (nth i ya 0) (nth j xb 0) (nth j yb 0)) /\
      (nth j (nth i dxS []) 0) ^ 2 + (nth j (nth i dyS []) 0) ^ 2 =
        (fprime (dist (nth i xa 0) (nth i ya 0) (nth j xb 0) (nth j yb 0))) ^ 2.
Proof.
  intros Hxa Hya Hxb Hyb.
  do 2 eexists. split; [apply DiscreteFacts.interactions_ok; assumption |].
  assert (LP : length (combine xa ya) = na) by (rewrite length_combine; lia).
  assert (LQ : length (combine xb yb) = nb) by (rewrite length_combine; lia).
  split; [rewrite (proj1 (outer_shape _ _ _)); exact LP |].
  split; [rewrite (proj1 (outer_shape _ _ _)); exact LP |].
  split; [rewrite <- LQ; apply outer_shape |].
  split; [rewrite <- LQ; apply outer_shape |].
  intros i j Hi Hj Hr.
  rewrite !(DiscreteFacts.nth_outer _ _ _ i j (0, 0) (0, 0)) by lia.
  rewrite !DiscreteFacts.nth_points by lia. cbn [fst snd].
  apply entry_apart. exact Hr.
Qed.

(** The interactions inside one species are antisymmetric, entry [(i, j)]
    being the opposite of entry [(j, i)], and so add up to 0 over the whole
    matrix. *)
Theorem self_interactions_cancel (fprime : R -> R) (xa ya : vec) (na : nat) :
  length xa = na -> length ya = na ->
  exists dxS dyS,
    interactions fprime xa ya na xa ya na = Ok (dxS, dyS) /\
    (forall i j, (i < na)%nat -> (j < na)%nat ->
       nth j (nth i dxS []) 0 = - nth i (nth j dxS []) 0 /\
       nth j (nth i dyS []) 0 = - nth i (nth j dyS []) 0) /\
    vsum (sum_axis1 dxS) = 0 /\ vsum (sum_axis1 dyS) = 0.
Proof.
  intros Hxa Hya.
  do 2 eexists. split; [apply DiscreteFacts.interactions_ok; assumption |].
  assert (LP : length (combine xa ya) = na) by (rewrite length_combine; lia).
  split.
  - intros i j Hi Hj.
    rewrite !(DiscreteFacts.nth_outer _ _ _ i j (0, 0) (0, 0)) by lia.
    rewrite !(DiscreteFacts.nth_outer _ _ _ j i (0, 0) (0, 0)) by lia.
    rewrite <- entry_x_odd, <- entry_y_odd.
    split; f_equal; ring.
  - rewrite !DiscreteFacts.sum_axis1_outer.
    split; apply vsum_antisymmetric; intros p q.
    + rewrite <- entry_x_odd. f_equal; ring.
    + rewrite <- entry_y_odd. f_equal; ring.
Qed.

Lemma vsum_map_lin {A : Type} (f g : A -> R) (a b : R) (P : list A) :
  vsum (map (fun p => - f p / a - g p / b) P) =
  - vsum (map f P) / a - vsum (map g P) / b.
Proof.
  induction P as [|p P IH]; simpl.
  - rewrite !vsum_nil. unfold Rdiv. ring.
  - rewrite !vsum_cons, IH. unfold Rdiv. ring.
Qed.

Lemma vsum_euler (h : R) (x v : vec) :
  length x = length v -> vsum (vadd x (vscale h v)) = vsum x + h * vsum v.
Proof.
  intros H. rewrite vsum_vadd, vsum_vscale; [reflexivity |].
  unfold vscale. rewrite length_map. exact H.
Qed.

(** The sums of the four velocity vectors of a step: the interactions
    inside a species cancel, and what is left of the prey's sum over [N2]
    is [alpha] times what is left of the predators' sum over [N1]. *)
Lemma velocity_sums (c : config) (s : store) :
  wf c s -> (0 < N1 c)%nat -> (0 < N2 c)%nat ->
  exists s',
    step c s = Ok s' /\ wf c s' /\
    length (dx1 s') = N1 c /\ length (dy1 s') = N1 c /\
    length (dx2 s') = N2 c /\ length (dy2 s') = N2 c /\
    x1 s' = vadd (x1 s) (vscale (dt c) (dx1 s')) /\
    y1 s' = vadd (y1 s) (vscale (dt c) (dy1 s')) /\
    x2 s' = vadd (x2 s) (vscale (dt c) (dx2 s')) /\
    y2 s' = vadd (y2 s) (vscale (dt c) (dy2 s')) /\
    vsum (dx2 s') / INR (N2 c) = alpha c * (vsum (dx1 s') / INR (N1 c)) /\
    vsum (dy2 s') / INR (N2 c) = alpha c * (vsum (dy1 s') / INR (N1 c)).
Proof.
  intros Hwf H1 H2.
  destruct (DiscreteFacts.euler_step_ok c s Hwf H1 H2)
    as (s' & Hs & Hwf' & _ & _ & _ & Hv & Ex1 & Ey1 & Ex2 & Ey2).
  rewrite (DiscreteFacts.velocities_ok c s Hwf H1 H2) in Hv.
  injection Hv as Vx1 Vy1 Vx2 Vy2.
  destruct Hwf as [Hx1 Hy1 Hx2 Hy2].
  assert (LP1 : length (combine (x1 s) (y1 s)) = N1 c)
    by (rewrite length_combine; lia).
  assert (LP2 : length (combine (x2 s) (y2 s)) = N2 c)
    by (rewrite length_combine; lia).
  exists s'. split; [exact Hs |]. split; [exact Hwf' |].
  split; [rewrite <- Vx1; unfold predator_cells; rewrite length_map; exact LP1 |].
  split; [rewrite <- Vy1; unfold predator_cells; rewrite length_map; exact LP1 |].
  split; [rewrite <- Vx2; unfold prey_cells; rewrite length_map; exact LP2 |].
  split; [rewrite <- Vy2; unfold prey_cells; rewrite length_map; exact LP2 |].
  split; [exact Ex1 |]. split; [exact Ey1 |].
  split; [exact Ex2 |]. split; [exact Ey2 |].
  pose proof (DiscreteFacts.INR_pos_neq _ H1) as I1.
  pose proof (DiscreteFacts.INR_pos_neq _ H2) as I2.
  rewrite <- Vx1, <- Vy1, <- Vx2, <- Vy2. unfold predator_cells, prey_cells.
  assert (Esc : forall (al : R) (f : R * R -> R) (P : list (R * R)),
            vsum (map (fun q => al * f q) P) = al * vsum (map f P)).
  { intros. symmetry. apply vsum_map_scale. }
  split.
  - rewrite (vsum_map_lin _ _ (INR (N1 c)) (INR (N2 c))).
    rewrite (vsum_map_lin
               (fun q => vsum (map (fun q' =>
                  entry_x (s2prime c) (fst q - fst q') (snd q - snd q'))
                  (combine (x2 s) (y2 s))))
               (fun q => alpha c * vsum (map (fun p =>
                  entry_x (kprime c) (fst p - fst q) (snd p - snd q))
                  (combine (x1 s) (y1 s))))
               (INR (N2 c)) (INR (N1 c))).
    rewrite !vsum_antisymmetric
      by (intros p q; rewrite <- entry_x_odd; f_equal; ring).
    rewrite Esc.
    rewrite (vsum_swap (fun p q =>
               entry_x (kprime c) (fst p - fst q) (snd p - snd q))).
    field. split; assumption.
  - rewrite (vsum_map_lin _ _ (INR (N1 c)) (INR (N2 c))).
    rewrite (vsum_map_lin
               (fun q => vsum (map (fun q' =>
                  entry_y (s2prime c) (fst q - fst q') (snd q - snd q'))
                  (combine (x2 s) (y2 s))))
               (fun q => alpha c * vsum (map (fun p =>
                  entry_y (kprime c) (fst p - fst q) (snd p - snd q))
                  (combine (x1 s) (y1 s))))
               (INR (N2 c)) (INR (N1 c))).
    rewrite !vsum_antisymmetric
      by (intros p q; rewrite <- entry_y_odd; f_equal; ring).
    rewrite Esc.
    rewrite (vsum_swap (fun p q =>
               entry_y (kprime c) (fst p - fst q) (snd p - snd q))).
    field. split; assumption.
Qed.

(** Through any sequence of passes of the loop body, the centre of mass of
    the prey minus [alpha] times the centre of mass of the predators stays
    where it was, in both coordinates. *)
Theorem centre_of_mass_invariant (c : config) (l : list (nat * R))
    (s0 : store) :
  wf c s0 -> (0 < N1 c)%nat -> (0 < N2 c)%nat ->
  exists s,
    for_loop (body c) l s0 = Ok s /\
    vsum (x2 s) / INR (N2 c) - alpha c * (vsum (x1 s) / INR (N1 c)) =
      vsum (x2 s0) / INR (N2 c) - alpha c * (vsum (x1 s0) / INR (N1 c)) /\
    vsum (y2 s) / INR (N2 c) - alpha c * (vsum (y1 s) / INR (N1 c)) =
      vsum (y2 s0) / INR (N2 c) - alpha c * (vsum (y1 s0) / INR (N1 c)).
Proof.
  intros Hwf0 H1 H2. revert s0 Hwf0.
  induction l as [|it l IH]; intros s0 Hwf0.
  - exists s0. split; [reflexivity | split; reflexivity].
  - destruct (velocity_sums c s0 Hwf0 H1 H2)
      as (s' & Hs & Hwf' & L1 & L2 & L3 & L4 & Ex1 & Ey1 & Ex2 & Ey2
          & Sx & Sy).
    destruct (IH (bookkeeping (fst it) s')
                (DiscreteFacts.counters_wf _ _ _ Hwf'))
      as (s & Hl & Ix & Iy).
    exists s. cbn [for_loop]. unfold body at 1. rewrite Hs. cbn [bind].
    split; [exact Hl |].
    cbn [bookkeeping x1 x2 y1 y2] in Ix, Iy.
    destruct Hwf0 as [Hx1 Hy1 Hx2 Hy2].
    pose proof (DiscreteFacts.INR_pos_neq _ H1) as I1.
    pose proof (DiscreteFacts.INR_pos_neq _ H2) as I2.
    rewrite Ix, Iy, Ex1, Ey1, Ex2, Ey2.
    rewrite !vsum_euler by congruence.
    split.
    + replace ((vsum (x2 s0) + dt c * vsum (dx2 s')) / INR (N2 c))
        with (vsum (x2 s0) / INR (N2 c)
              + dt c * (vsum (dx2 s') / INR (N2 c))) by (field; assumption).
      replace ((vsum (x1 s0) + dt c * vsum (dx1 s')) / INR (N1 c))
        with (vsum (x1 s0) / INR (N1 c)
              + dt c * (vsum (dx1 s') / INR (N1 c))) by (field; assumption).
      rewrite Sx. ring.
    + replace ((vsum (y2 s0) + dt c * vsum (dy2 s')) / INR (N2 c))
        with (vsum (y2 s0) / INR (N2 c)
              + dt c * (vsum (dy2 s') / INR (N2 c))) by (field; assumption).
      replace ((vsum (y1 s0) + dt c * vsum (dy1 s')) / INR (N1 c))
        with (vsum (y1 s0) / INR (N1 c)
              + dt c * (vsum (dy1 s') / INR (N1 c))) by (field; assumption).
      rewrite Sy. ring.
Qed.

Lemma combine_map2 {A B C D : Type} (f : A -> C) (g : B -> D) (xs : list A)
    (ys : list B) :
  combine (map f xs) (map g ys) =
  map (fun p => (f (fst p), g (snd p))) (combine xs ys).
Proof.
  revert ys. induction xs as [|x xs IH]; intros [|y ys]; simpl; auto.
  f_equal. apply IH.
Qed.

Lemma predator_cells_translate (gS gK : R -> R -> R) (n1 n2 : nat)
    (tx ty : R) (P1 P2 : list (R * R)) :
  predator_cells gS gK n1 n2
    (map (fun p => (fst p + tx, snd p + ty)) P1)
    (map (fun p => (fst p + tx, snd p + ty)) P2) =
  predator_cells gS gK n1 n2 P1 P2.
Proof.
  unfold predator_cells. rewrite !map_map. apply map_ext. intros p.
  cbn [fst snd]. rewrite !map_map. f_equal; f_equal; [f_equal |]; f_equal; apply map_ext;
    intros q; cbn [fst snd]; f_equal; ring.
Qed.

Lemma prey_cells_translate (al : R) (gS gK : R -> R -> R) (n1 n2 : nat)
    (tx ty : R) (P1 P2 : list (R * R)) :
  prey_cells al gS gK n1 n2
    (map (fun p => (fst p + tx, snd p + ty)) P1)
    (map (fun p => (fst p + tx, snd p + ty)) P2) =
  prey_cells al gS gK n1 n2 P1 P2.
Proof.
  unfold prey_cells. rewrite !map_map. apply map_ext. intros p.
  cbn [fst snd]. rewrite !map_map.
  f_equal; f_equal; [f_equal | f_equal]; f_equal; apply map_ext;
    intros q; cbn [fst snd]; f_equal; ring.
Qed.

Lemma vadd_map_shift (t : R) (u v : vec) :
  vadd (map (fun x => x + t) u) v = map (fun x => x + t) (vadd u v).
Proof.
  unfold vadd. revert v. induction u as [|a u IH]; intros [|b v]; simpl; auto.
  rewrite IH. f_equal. ring.
Qed.

Lemma translate_wf (c : config) (tx ty : R) (s : store) :
  wf c s -> wf c (translate tx ty s).
Proof. intros []. constructor; cbn; rewrite length_map; assumption. Qed.

(** The step commutes with translations: moving all the particles by the
    same vector before a step gives the same velocities and the same new
    positions moved by that vector. *)
Theorem step_translation (c : config) (s : store) (tx ty : R) :
  wf c s -> (0 < N1 c)%nat -> (0 < N2 c)%nat ->
  exists s',
    step c s = Ok s' /\
    step c (translate tx ty s) = Ok (translate tx ty s').
Proof.
  intros Hwf H1 H2.
  pose proof (translate_wf c tx ty s Hwf) as Hwft.
  unfold step.
  rewrite (DiscreteFacts.velocities_ok c s Hwf H1 H2).
  rewrite (DiscreteFacts.velocities_ok c _ Hwft H1 H2).
  cbn [bind translate x1 y1 x2 y2].
  rewrite !combine_map2, !predator_cells_translate, !prey_cells_translate.
  eexists. split; [reflexivity |].
  unfold translate. cbn [x1 y1 x2 y2 dx1 dy1 dx2 dy2 cnt cnt_sav n_var].
  rewrite !vadd_map_shift. reflexivity.
Qed.

Lemma coordinate_le_norm (dx dy : R) :
  Rabs dx <= sqrt (dx ^ 2 + dy ^ 2) /\ Rabs dy <= sqrt (dx ^ 2 + dy ^ 2).
Proof.
  pose proof (sqrt_square dx dy) as Hs.
  pose proof (sqrt_pos (dx ^ 2 + dy ^ 2)) as Hp.
  set (r := sqrt (dx ^ 2 + dy ^ 2)) in *.
  split; unfold Rabs; destruct (Rcase_abs _); nra.
Qed.

(** An entry is at most the bound of the derivative. *)
Lemma entry_bounded (M : R) (fprime : R -> R) (dx dy : R) :
  bounded_by M fprime ->
  Rabs (entry_x fprime dx dy) <= M /\ Rabs (entry_y fprime dx dy) <= M.
Proof.
  intros HB. pose proof (ContinuumMore.bounded_nonneg _ _ HB) as HM.
  pose proof (sqrt_pos (dx ^ 2 + dy ^ 2)) as Hp.
  destruct (Req_dec_T (sqrt (dx ^ 2 + dy ^ 2)) 0) as [H0 | Hn].
  - destruct (DiscreteFacts.norm_zero dx dy H0) as [-> ->].
    destruct (DiscreteFacts.entry_coincident fprime) as [-> ->].
    rewrite Rabs_R0. auto.
  - assert (Hr : 0 < sqrt (dx ^ 2 + dy ^ 2)) by lra.
    destruct (entry_apart fprime dx dy Hr) as (-> & -> & _).
    destruct (coordinate_le_norm dx dy) as [Cx Cy].
    pose proof (HB (sqrt (dx ^ 2 + dy ^ 2))) as Hf.
    set (r := sqrt (dx ^ 2 + dy ^ 2)) in *.
    pose proof (Rabs_pos (fprime r)). pose proof (Rabs_pos dx).
    pose proof (Rabs_pos dy).
    assert (Hi : 0 < / r) by (apply Rinv_0_lt_compat; exact Hr).
    unfold Rdiv. rewrite !Rabs_mult, (Rabs_right (/ r)) by lra.
    assert (Ux : Rabs dx * / r <= 1).
    { apply (Rmult_le_reg_r r); [exact Hr |].
      rewrite Rmult_assoc, Rinv_l by lra. lra. }
    assert (Uy : Rabs dy * / r <= 1).
    { apply (Rmult_le_reg_r r); [exact Hr |].
      rewrite Rmult_assoc, Rinv_l by lra. lra. }
    assert (0 <= Rabs dx * / r) by (apply Rmult_le_pos; lra).
    assert (0 <= Rabs dy * / r) by (apply Rmult_le_pos; lra).
    split; nra.
Qed.

Lemma vsum_bounded {A : Type} (f : A -> R) (M : R) (l : list A) :
  (forall x, Rabs (f x) <= M) -> Rabs (vsum (map f l)) <= INR (length l) * M.
Proof.
  intros H.
  eapply Rle_trans; [apply (ContinuumMore.vsum_abs_le f (fun _ => M)); exact H |].
  induction l as [|x l IH].
  - simpl. rewrite vsum_nil. lra.
  - change (length (x :: l)) with (S (length l)). rewrite S_INR. simpl map.
    rewrite vsum_cons. lra.
Qed.

Lemma mean_bounded {A : Type} (f : A -> R) (M : R) (l : list A) (n : nat) :
  length l = n -> (0 < n)%nat -> (forall x, Rabs (f x) <= M) ->
  Rabs (vsum (map f l) / INR n) <= M.
Proof.
  intros <- Hn H. pose proof (vsum_bounded f M l H) as Hb.
  assert (Hp : 0 < INR (length l)) by (apply lt_0_INR; exact Hn).
  unfold Rdiv. rewrite Rabs_mult, (Rabs_right (/ INR (length l))).
  2:{ apply Rle_ge. left. apply Rinv_0_lt_compat. exact Hp. }
  apply (Rmult_le_reg_r (INR (length l))); [exact Hp |].
  rewrite Rmult_assoc, Rinv_l by lra. lra.
Qed.

(** With derivatives bounded by [M1], [M2], [MK], no coordinate of a
    velocity exceeds [M1 + MK] for a predator and [M2 + |alpha| MK] for a
    prey, so no coordinate moves by more than [|dt|] times that in a
    step. *)
Theorem speed_bound (c : config) (s : store) (M1 M2 MK : R) :
  wf c s -> (0 < N1 c)%nat -> (0 < N2 c)%nat ->
  bounded_by M1 (s1prime c) -> bounded_by M2 (s2prime c) ->
  bounded_by MK (kprime c) ->
  exists s',
    step c s = Ok s' /\
    (forall i, (i < N1 c)%nat ->
       Rabs (nth i (dx1 s') 0) <= M1 + MK /\
       Rabs (nth i (dy1 s') 0) <= M1 + MK /\
       Rabs (nth i (x1 s') 0 - nth i (x1 s) 0) <= Rabs (dt c) * (M1 + MK) /\
       Rabs (nth i (y1 s') 0 - nth i (y1 s) 0) <= Rabs (dt c) * (M1 + MK)) /\
    (forall j, (j < N2 c)%nat ->
       Rabs (nth j (dx2 s') 0) <= M2 + Rabs (alpha c) * MK /\
       Rabs (nth j (dy2 s') 0) <= M2 + Rabs (alpha c) * MK /\
       Rabs (nth j (x2 s') 0 - nth j (x2 s) 0)
         <= Rabs (dt c) * (M2 + Rabs (alpha c) * MK) /\
       Rabs (nth j (y2 s') 0 - nth j (y2 s) 0)
         <= Rabs (dt c) * (M2 + Rabs (alpha c) * MK)).
Proof.
  intros Hwf H1 H2 B1 B2 BK.
  destruct (velocity_sums c s Hwf H1 H2)
    as (s' & Hs & _ & L1 & L2 & L3 & L4 & Ex1 & Ey1 & Ex2 & Ey2 & _).
  destruct (DiscreteFacts.euler_step_ok c s Hwf H1 H2)
    as (s_ & Hs_ & _ & _ & _ & _ & Hv & _).
  assert (s_ = s') by congruence. subst s_.
  rewrite (DiscreteFacts.velocities_ok c s Hwf H1 H2) in Hv.
  injection Hv as Vx1 Vy1 Vx2 Vy2.
  destruct Hwf as [Hx1 Hy1 Hx2 Hy2].
  assert (LP1 : length (combine (x1 s) (y1 s)) = N1 c)
    by (rewrite length_combine; lia).
  assert (LP2 : length (combine (x2 s) (y2 s)) = N2 c)
    by (rewrite length_combine; lia).
  assert (Move : forall h x v i, length x = length v ->
            nth i (vadd x (vscale h v)) 0 - nth i x 0 = h * nth i v 0).
  { intros h x v i Hl. rewrite nth_vadd, nth_vscale.
    - ring.
    - unfold vscale. rewrite length_map. exact Hl. }
  assert (Pred : forall (ex eK : R -> R -> R) i,
            (forall a b, Rabs (ex a b) <= M1) ->
            (forall a b, Rabs (eK a b) <= MK) -> (i < N1 c)%nat ->
            Rabs (nth i (predator_cells ex eK (N1 c) (N2 c)
                          (combine (x1 s) (y1 s)) (combine (x2 s) (y2 s))) 0)
            <= M1 + MK).
  { intros ex eK i Hex HeK Hi. unfold predator_cells.
    rewrite (DiscreteFacts.nth_map_default _ _ i (0, 0)) by lia.
    eapply Rle_trans; [apply ContinuumMore.Rabs_sub_triang |].
    unfold Rdiv at 1. rewrite <- Ropp_mult_distr_l, Rabs_Ropp.
    apply Rplus_le_compat.
    - apply (mean_bounded _ M1 _ (N1 c)); auto.
    - apply (mean_bounded _ MK _ (N2 c)); auto. }
  assert (Prey : forall (ex eK : R -> R -> R) j,
            (forall a b, Rabs (ex a b) <= M2) ->
            (forall a b, Rabs (eK a b) <= MK) -> (j < N2 c)%nat ->
            Rabs (nth j (prey_cells (alpha c) ex eK (N1 c) (N2 c)
                          (combine (x1 s) (y1 s)) (combine (x2 s) (y2 s))) 0)
            <= M2 + Rabs (alpha c) * MK).
  { intros ex eK j Hex HeK Hj. unfold prey_cells.
    rewrite (DiscreteFacts.nth_map_default _ _ j (0, 0)) by lia.
    eapply Rle_trans; [apply ContinuumMore.Rabs_sub_triang |].
    unfold Rdiv at 1. rewrite <- Ropp_mult_distr_l, Rabs_Ropp.
    apply Rplus_le_compat.
    - apply (mean_bounded _ M2 _ (N2 c)); auto.
    - unfold Rdiv. rewrite Rmult_assoc, Rabs_mult.
      apply Rmult_le_compat_l; [apply Rabs_pos |].
      apply (mean_bounded _ MK _ (N1 c)); auto. }
  exists s'. split; [exact Hs |].
  pose proof (Rabs_pos (dt c)) as Hdt.
  split.
  - intros i Hi.
    assert (Bx : Rabs (nth i (dx1 s') 0) <= M1 + MK).
    { rewrite <- Vx1. apply Pred; auto; intros; apply entry_bounded; assumption. }
    assert (By : Rabs (nth i (dy1 s') 0) <= M1 + MK).
    { rewrite <- Vy1. apply Pred; auto; intros; apply entry_bounded; assumption. }
    split; [exact Bx |]. split; [exact By |].
    rewrite Ex1, Ey1, !Move, !Rabs_mult by congruence.
    split; apply Rmult_le_compat_l; assumption.
  - intros j Hj.
    assert (Bx : Rabs (nth j (dx2 s') 0) <= M2 + Rabs (alpha c) * MK).
    { rewrite <- Vx2. apply Prey; auto; intros; apply entry_bounded; assumption. }
    assert (By : Rabs (nth j (dy2 s') 0) <= M2 + Rabs (alpha c) * MK).
    { rewrite <- Vy2. apply Prey; auto; intros; apply entry_bounded; assumption. }
    split; [exact Bx |]. split; [exact By |].
    rewrite Ex2, Ey2, !Move, !Rabs_mult by congruence.
    split; apply Rmult_le_compat_l; assumption.
Qed.

Lemma interactions_empty_l (fprime : R -> R) (xb yb : vec) (nb : nat) :
  interactions fprime [] [] 0 xb yb nb = Ok ([], []).
Proof. reflexivity. Qed.

Lemma repeat_nil_rows (n : nat) :
  sum_axis1 (repeat [] n) = repeat 0 n.
Proof. induction n as [|n IH]; simpl; [reflexivity |]. rewrite IH. reflexivity. Qed.

(** A species without any particle: with nobody at all the step does
    nothing; with one species empty and the other not, the mean over the
    empty species is 0/0 and the step produces nan. *)
Theorem empty_population (c : config) (s : store) :
  wf c s ->
  (N1 c = 0%nat -> N2 c = 0%nat ->
   exists s', step c s = Ok s' /\
              x1 s' = [] /\ y1 s' = [] /\ x2 s' = [] /\ y2 s' = []) /\
  (N1 c = 0%nat -> (0 < N2 c)%nat -> step c s = Err NonFinite) /\
  ((0 < N1 c)%nat -> N2 c = 0%nat -> step c s = Err NonFinite).
Proof.
  intros [Hx1 Hy1 Hx2 Hy2].
  split; [| split].
  - intros E1 E2. rewrite E1 in *. rewrite E2 in *.
    apply length_zero_iff_nil in Hx1, Hy1, Hx2, Hy2.
    unfold step, velocities. rewrite Hx1, Hy1, Hx2, Hy2, E1, E2.
    eexists. split; [reflexivity |]. repeat split; reflexivity.
  - intros E1 H2. rewrite E1 in *.
    apply length_zero_iff_nil in Hx1, Hy1. rename Hx1 into X1, Hy1 into Y1.
    unfold step, velocities. rewrite X1, Y1, E1.
    rewrite interactions_empty_l. cbn [bind fst snd].
    rewrite interactions_empty_l. cbn [bind fst snd].
    rewrite (DiscreteFacts.interactions_ok (s2prime c) (x2 s) (y2 s) (N2 c)
               (x2 s) (y2 s) (N2 c)) by assumption.
    cbn [bind fst snd].
    unfold predator_velocity at 1. cbn [sum_axis1 map vneg vdiv_scalar mapM bind vsub map2].
    unfold predator_velocity at 1. cbn [sum_axis1 map vneg vdiv_scalar mapM bind vsub map2].
    unfold prey_velocity at 1.
    rewrite DiscreteFacts.sum_axis1_outer. unfold vneg. rewrite map_map.
    rewrite vdiv_scalar_ok by (apply DiscreteFacts.INR_pos_neq; exact H2).
    cbn [bind]. unfold transpose. cbn [map].
    destruct (N2 c) as [|m] eqn:Em; [lia |].
    cbn [seq map sum_axis1 vscale]. unfold vdiv_scalar. cbn [mapM INR].
    rewrite ContinuumMore.np_div_zero. reflexivity.
  - intros H1 E2. rewrite E2 in *.
    apply length_zero_iff_nil in Hx2, Hy2. rename Hx2 into X2, Hy2 into Y2.
    unfold step, velocities. rewrite X2, Y2, E2.
    rewrite (DiscreteFacts.interactions_ok (s1prime c) (x1 s) (y1 s) (N1 c)
               (x1 s) (y1 s) (N1 c)) by assumption.
    cbn [bind fst snd].
    rewrite (DiscreteFacts.interactions_ok (kprime c) (x1 s) (y1 s) (N1 c)
               [] [] 0) by (auto).
    cbn [bind fst snd].
    rewrite interactions_empty_l. cbn [bind fst snd].
    unfold predator_velocity at 1.
    rewrite !DiscreteFacts.sum_axis1_outer. unfold vneg. rewrite map_map.
    rewrite vdiv_scalar_ok by (apply DiscreteFacts.INR_pos_neq; exact H1).
    cbn [bind combine]. 
    destruct (x1 s) as [|a xs] eqn:X1; [simpl in Hx1; lia |].
    destruct (y1 s) as [|b ys] eqn:Y1; [simpl in Hy1; lia |].
    cbn [combine map]. unfold vdiv_scalar. cbn [mapM INR].
    rewrite ContinuumMore.np_div_zero. reflexivity.
Qed.

(** The loop counts its passes in [cnt], a figure for every tenth pass in
    [cnt_sav], and leaves in [n] the last index. *)
Lemma loop_counters (c : config) (ts : vec) (s0 : store) :
  wf c s0 -> (0 < N1 c)%nat -> (0 < N2 c)%nat ->
  cnt s0 = 0%nat -> cnt_sav s0 = 0%nat ->
  exists s, for_loop (body c) (enumerate ts) s0 = Ok s /\ wf c s /\
            cnt s = length ts /\ cnt_sav s = figures (length ts) /\
            ((0 < length ts)%nat -> n_var s = Some (length ts - 1)%nat).
Proof.
  intros Hwf0 H1 H2 C0 S0. induction ts as [|t ts IH] using rev_ind.
  - exists s0. cbn. split; [reflexivity |]. split; [exact Hwf0 |].
    split; [exact C0 |]. split; [exact S0 | lia].
  - destruct IH as (s & Hs & Hwf & Hc & Hsav & _).
    destruct (DiscreteFacts.euler_step_ok c s Hwf H1 H2)
      as (s' & Hstep & Hwf' & Hc' & Hsav' & _).
    rewrite DiscreteFacts.enumerate_snoc, for_loop_app, Hs.
    cbn [bind for_loop]. unfold body. rewrite Hstep. cbn [bind].
    eexists. split; [reflexivity |].
    split; [apply DiscreteFacts.counters_wf; exact Hwf' |].
    cbn [bookkeeping cnt cnt_sav n_var fst]. rewrite length_app. simpl length.
    rewrite Hc', Hsav', Hc, Hsav.
    replace (length ts + 1)%nat with (S (length ts)) by lia.
    split; [reflexivity |].
    split; [rewrite ContinuumMore.figures_S;
            destruct (length ts mod 10 =? 0)%nat; lia |].
    intros _. f_equal. lia.
Qed.

Lemma linspace_nonneg (a b : R) (num : Z) :
  (0 <= num)%Z ->
  exists ts, linspace a b num = Ok ts /\ length ts = Z.to_nat num.
Proof.
  intros H. unfold linspace. destruct (Z.ltb_spec num 0); [lia |].
  eexists. split; [reflexivity |]. rewrite length_map, length_seq. reflexivity.
Qed.

(** The outcome of a run of the particle program, case by case, with the
    count of passes computed in binary64 as the program does.  [dt = 0]
    raises [ZeroDivisionError]; a quotient [T/dt] that is [nan] raises
    [ValueError] and one that is infinite [OverflowError], in [int];
    [int(T/dt) + 1 < 0] raises [ValueError] in [linspace]: all before any
    step.  Otherwise, with [N1 = N2 > 0] particles in each species, the loop
    body is executed [int(T/dt) + 1] times, a figure is saved for every
    tenth pass starting with the first, and [n] ends at [int(T/dt)]. *)
Theorem run_outcome (c : config) (Tf dtf : PrimFloat.float)
    (px1 py1 px2 py2 : vec) :
  (PrimFloat.eqb dtf PrimFloat.zero = true ->
   Binary64.run c Tf dtf px1 py1 px2 py2 = Err ZeroDivisionError) /\
  (PrimFloat.eqb dtf PrimFloat.zero = false ->
   FloatOps.Prim2SF (PrimFloat.div Tf dtf) = SpecFloat.S754_nan ->
   Binary64.run c Tf dtf px1 py1 px2 py2 = Err ValueError) /\
  (forall sg, PrimFloat.eqb dtf PrimFloat.zero = false ->
   FloatOps.Prim2SF (PrimFloat.div Tf dtf) = SpecFloat.S754_infinity sg ->
   Binary64.run c Tf dtf px1 py1 px2 py2 = Err OverflowError) /\
  (forall n, Binary64.nT Tf dtf = Ok n -> (n + 1 < 0)%Z ->
   Binary64.run c Tf dtf px1 py1 px2 py2 = Err ValueError) /\
  (forall n, Binary64.nT Tf dtf = Ok n -> (0 <= n + 1)%Z ->
   N1 c = N2 c -> (0 < N1 c)%nat ->
   length px1 = N1 c -> length py1 = N1 c ->
   length px2 = N1 c -> length py2 = N1 c ->
   exists s,
     Binary64.run c Tf dtf px1 py1 px2 py2 = Ok s /\
     cnt s = Z.to_nat (n + 1) /\
     cnt_sav s = ((cnt s + 9) / 10)%nat /\
     ((0 < cnt s)%nat -> n_var s = Some (cnt s - 1)%nat)).
Proof.
  split; [| split; [| split; [| split]]].
  - intros H. unfold PrimFloat.zero in H.
    unfold Binary64.run, Binary64.nT, Binary64.py_div. rewrite H. reflexivity.
  - intros H Hq. unfold PrimFloat.zero in H.
    unfold Binary64.run, Binary64.nT, Binary64.py_div. rewrite H. cbn [bind].
    unfold Binary64.py_int. rewrite Hq. reflexivity.
  - intros sg H Hq. unfold PrimFloat.zero in H.
    unfold Binary64.run, Binary64.nT, Binary64.py_div. rewrite H. cbn [bind].
    unfold Binary64.py_int. rewrite Hq. reflexivity.
  - intros n Hn Hneg. unfold Binary64.run. rewrite Hn. cbn [bind].
    rewrite ContinuumMore.linspace_negative by exact Hneg. reflexivity.
  - intros n Hn Hpos E12 H1 L1 L2 L3 L4. unfold Binary64.run.
    rewrite Hn. cbn [bind].
    destruct (linspace_nonneg 0 (T c) _ Hpos) as (ts & -> & Lts).
    cbn [bind].
    destruct (loop_counters c ts (init c px1 py1 px2 py2))
      as (s & Hs & _ & Hc & Hsav & Hcn); auto.
    { constructor; cbn; congruence. }
    { lia. }
    exists s. split; [exact Hs |]. rewrite Hc, Hsav, Lts.
    split; [reflexivity |]. split; [reflexivity |].
    rewrite <- Lts. exact Hcn.
Qed.

Lemma notebook_potentials_bounded :
  bounded_by 0.1 s1prime_nb /\ bounded_by 0.1 s2prime_nb /\
  bounded_by 1 kprime_nb.
Proof.
  unfold bounded_by, s1prime_nb, s2prime_nb, kprime_nb, Reqb, Rgtb, b2r.
  repeat split; intros x;
    destruct (Req_dec_T x 0), (Rgt_dec x 0);
    unfold Rabs; destruct (Rcase_abs _); lra.
Qed.

Lemma vsum_map_zero_in {A : Type} (g : A -> R) (l : list A) :
  (forall x, In x l -> g x = 0) -> vsum (map g l) = 0.
Proof.
  intros H. induction l as [|x l IH]; simpl.
  - apply vsum_nil.
  - rewrite vsum_cons, IH by (intros y Hy; apply H; right; exact Hy).
    rewrite (H x) by (left; reflexivity). lra.
Qed.

Lemma in_cluster (a b : R) (n : nat) (p : R * R) :
  In p (combine (repeat a n) (repeat b n)) -> p = (a, b).
Proof.
  destruct p as [x y]. intros H.
  pose proof (in_combine_l _ _ _ _ H) as Hx.
  pose proof (in_combine_r _ _ _ _ H) as Hy.
  apply repeat_spec in Hx, Hy. congruence.
Qed.

(** When all the particles of both species sit at one point, each pair is
    coincident, every velocity is 0 whatever the potentials are, and no
    sequence of passes through the loop body moves anything. *)
Theorem cluster_steady (c : config) (l : list (nat * R)) (a b : R)
    (s0 : store) :
  (0 < N1 c)%nat -> (0 < N2 c)%nat ->
  x1 s0 = repeat a (N1 c) -> y1 s0 = repeat b (N1 c) ->
  x2 s0 = repeat a (N2 c) -> y2 s0 = repeat b (N2 c) ->
  exists s, for_loop (body c) l s0 = Ok s /\
            x1 s = x1 s0 /\ y1 s = y1 s0 /\ x2 s = x2 s0 /\ y2 s = y2 s0.
Proof.
  intros H1 H2. revert s0.
  induction l as [|it l IH]; intros s0 X1 Y1 X2 Y2.
  - exists s0. split; [reflexivity | auto].
  - assert (Hwf0 : wf c s0).
    { constructor; rewrite ?X1, ?Y1, ?X2, ?Y2; apply repeat_length. }
    destruct (DiscreteFacts.euler_step_ok c s0 Hwf0 H1 H2)
      as (s' & Hs & Hwf' & _ & _ & _ & Hv & Ex1 & Ey1 & Ex2 & Ey2).
    rewrite (DiscreteFacts.velocities_ok c s0 Hwf0 H1 H2) in Hv.
    injection Hv as Vx1 Vy1 Vx2 Vy2.
    assert (Z : forall (f : R -> R) (p q : R * R),
              In p (combine (x1 s0) (y1 s0)) \/ In p (combine (x2 s0) (y2 s0)) ->
              In q (combine (x1 s0) (y1 s0)) \/ In q (combine (x2 s0) (y2 s0)) ->
              entry_x f (fst p - fst q) (snd p - snd q) = 0 /\
              entry_y f (fst p - fst q) (snd p - snd q) = 0).
    { intros f p q Hp Hq. rewrite X1, Y1, X2, Y2 in Hp, Hq.
      assert (p = (a, b)) as -> by (destruct Hp; eapply in_cluster; eauto).
      assert (q = (a, b)) as -> by (destruct Hq; eapply in_cluster; eauto).
      cbn [fst snd]. rewrite !Rminus_diag.
      apply DiscreteFacts.entry_coincident. }
    assert (P0 : forall ex eK : (R -> R) -> R -> R -> R,
              (ex = entry_x \/ ex = entry_y) ->
              forall f g,
              predator_cells (ex f) (ex g) (N1 c) (N2 c)
                (combine (x1 s0) (y1 s0)) (combine (x2 s0) (y2 s0)) =
              map (fun _ => 0) (combine (x1 s0) (y1 s0)) /\
              prey_cells (alpha c) (ex f) (ex g) (N1 c) (N2 c)
                (combine (x1 s0) (y1 s0)) (combine (x2 s0) (y2 s0)) =
              map (fun _ => 0) (combine (x2 s0) (y2 s0))).
    { intros ex _ Hex f g. unfold predator_cells, prey_cells.
      split; apply map_ext_in; intros p Hp;
        rewrite !vsum_map_zero_in; try (unfold Rdiv; ring);
        intros q Hq; destruct Hex as [-> | ->]; apply Z; auto. }
    destruct (P0 entry_x entry_x (or_introl eq_refl) (s1prime c) (kprime c))
      as [Px1 _].
    destruct (P0 entry_y entry_y (or_intror eq_refl) (s1prime c) (kprime c))
      as [Py1 _].
    destruct (P0 entry_x entry_x (or_introl eq_refl) (s2prime c) (kprime c))
      as [_ Px2].
    destruct (P0 entry_y entry_y (or_intror eq_refl) (s2prime c) (kprime c))
      as [_ Py2].
    rewrite Px1 in Vx1. rewrite Py1 in Vy1. rewrite Px2 in Vx2.
    rewrite Py2 in Vy2.
    destruct Hwf0 as [Hx1 Hy1 Hx2 Hy2].
    rewrite <- Vx1, DiscreteFacts.euler_still in Ex1
      by (rewrite length_combine; lia).
    rewrite <- Vy1, DiscreteFacts.euler_still in Ey1
      by (rewrite length_combine; lia).
    rewrite <- Vx2, DiscreteFacts.euler_still in Ex2
      by (rewrite length_combine; lia).
    rewrite <- Vy2, DiscreteFacts.euler_still in Ey2
      by (rewrite length_combine; lia).
    destruct (IH (bookkeeping (fst it) s')) as (s & Hl & F1 & F2 & F3 & F4);
      try (cbn [bookkeeping x1 y1 x2 y2]; congruence).
    exists s. cbn [for_loop]. unfold body at 1. rewrite Hs. cbn [bind].
    split; [exact Hl |]. cbn in F1, F2, F3, F4.
    repeat split; congruence.
Qed.

(** One predator chasing one prey at distance [r > 0]: a step multiplies
    the vector from the predator to the prey by
    [1 - dt (1 - alpha) k'(r) / r]. *)
Theorem pursuit_step (c : config) (s : store) (p q u v : R) :
  N1 c = 1%nat -> N2 c = 1%nat ->
  x1 s = [p] -> y1 s = [q] -> x2 s = [u] -> y2 s = [v] ->
  0 < dist p q u v ->
  exists p' q' u' v' s',
    step c s = Ok s' /\
    x1 s' = [p'] /\ y1 s' = [q'] /\ x2 s' = [u'] /\ y2 s' = [v'] /\
    u' - p' = (u - p) * (1 - dt c * (1 - alpha c)
                               * kprime c (dist p q u v) / dist p q u v) /\
    v' - q' = (v - q) * (1 - dt c * (1 - alpha c)
                               * kprime c (dist p q u v) / dist p q u v).
Proof.
  intros E1 E2 X1 Y1 X2 Y2 Hr.
  assert (Hwf : wf c s).
  { constructor; rewrite ?X1, ?Y1, ?X2, ?Y2, ?E1, ?E2; reflexivity. }
  assert (H1 : (0 < N1 c)%nat) by lia. assert (H2 : (0 < N2 c)%nat) by lia.
  destruct (DiscreteFacts.euler_step_ok c s Hwf H1 H2)
    as (s' & Hs & _ & _ & _ & _ & Hv & Ex1 & Ey1 & Ex2 & Ey2).
  rewrite (DiscreteFacts.velocities_ok c s Hwf H1 H2) in Hv.
  injection Hv as Vx1 Vy1 Vx2 Vy2.
  rewrite X1, Y1, X2, Y2, E1, E2 in *.
  unfold predator_cells in Vx1, Vy1. unfold prey_cells in Vx2, Vy2.
  cbn [combine map fst snd INR] in Vx1, Vy1, Vx2, Vy2.
  rewrite !vsum_cons, !vsum_nil, !Rminus_diag in Vx1, Vy1, Vx2, Vy2.
  destruct (DiscreteFacts.entry_coincident (s1prime c)) as [Cx1 Cy1].
  destruct (DiscreteFacts.entry_coincident (s2prime c)) as [Cx2 Cy2].
  rewrite Cx1 in Vx1. rewrite Cy1 in Vy1.
  rewrite Cx2 in Vx2. rewrite Cy2 in Vy2.
  unfold dist in *.
  destruct (entry_apart (kprime c) (p - u) (q - v) Hr) as (Kx & Ky & _).
  rewrite Kx in Vx1, Vx2. rewrite Ky in Vy1, Vy2.
  rewrite <- Vx1 in Ex1. rewrite <- Vy1 in Ey1.
  rewrite <- Vx2 in Ex2. rewrite <- Vy2 in Ey2.
  cbn [vadd vscale map map2] in Ex1, Ey1, Ex2, Ey2.
  do 4 eexists. exists s'. split; [exact Hs |].
  split; [exact Ex1 |]. split; [exact Ey1 |].
  split; [exact Ex2 |]. split; [exact Ey2 |].
  split; field; lra.
Qed.

End DiscreteMore.

(** * The further theorems at concrete inputs *)

Module MoreWitnesses.
Import Examples MoreSpec.

Lemma np_sign_bounded : bounded_by 1 np_sign.
Proof.
  intros x. unfold np_sign.
  destruct (Rlt_dec 0 x); [| destruct (Rlt_dec x 0)];
    unfold Rabs; destruct (Rcase_abs _); lra.
Qed.

Lemma np_sign_odd : odd np_sign.
Proof.
  intros x. unfold np_sign.
  destruct (Rlt_dec 0 (- x)), (Rlt_dec 0 x), (Rlt_dec (- x) 0),
    (Rlt_dec x 0); lra.
Qed.

Lemma uniform_sum (a b : R) (n : nat) :
  (0 < n)%nat -> vsum (map (fun _ : R => 1) (samples a b n)) <> 0.
Proof.
  intros H. rewrite Runs.vsum_ones, ContinuumMore.samples_length.
  assert (0 < INR n) by (apply lt_0_INR; exact H). lra.
Qed.

Lemma vsum_ge_nth (v : vec) (i : nat) :
  ContinuumSpec.nonneg v -> nth i v 0 <= vsum v.
Proof.
  unfold ContinuumSpec.nonneg. intros H. revert i.
  induction H as [|x v Hx Hv IH]; intros i.
  - destruct i; simpl; rewrite vsum_nil; lra.
  - pose proof (ContinuumMore.vsum_nonneg v Hv).
    rewrite vsum_cons. destruct i as [|i]; simpl; [lra |].
    specialize (IH i). lra.
Qed.

Lemma indicator_nonneg (lo hi x : R) :
  0 <= 1 * b2r (Rgtb x lo) * b2r (Rltb x hi).
Proof.
  unfold b2r. destruct (Rgtb x lo), (Rltb x hi); lra.
Qed.

Lemma indicator_inside (lo hi x : R) :
  lo < x < hi -> 1 * b2r (Rgtb x lo) * b2r (Rltb x hi) = 1.
Proof.
  intros H. unfold b2r, Rgtb, Rltb.
  destruct (Rgt_dec x lo), (Rlt_dec x hi); lra.
Qed.

(** An indicator that holds a point of the grid has a non-zero sum. *)
Lemma indicator_sum (lo hi a b : R) (n i : nat) :
  (i < n)%nat ->
  lo < a + INR i * ((b - a) / INR (n - 1)) < hi ->
  vsum (map (fun x => 1 * b2r (Rgtb x lo) * b2r (Rltb x hi)) (samples a b n))
  <> 0.
Proof.
  intros Hi Hin.
  assert (N : ContinuumSpec.nonneg
                (map (fun x => 1 * b2r (Rgtb x lo) * b2r (Rltb x hi))
                     (samples a b n))).
  { unfold ContinuumSpec.nonneg. apply Forall_forall. intros y Hy.
    apply in_map_iff in Hy. destruct Hy as (x & <- & _).
    apply indicator_nonneg. }
  pose proof (vsum_ge_nth _ i N) as H.
  rewrite (nth_map_0 (fun x => 1 * b2r (Rgtb x lo) * b2r (Rltb x hi))) in H
    by (rewrite ContinuumMore.samples_length; exact Hi).
  rewrite ContinuumMore.nth_samples, indicator_inside in H by assumption.
  lra.
Qed.

Lemma notebook_sums :
  vsum (map (Continuum.rho1_ini Continuum.notebook)
          (samples (-1) 1 (Z.to_nat 256))) <> 0 /\
  vsum (map (Continuum.rho2_ini Continuum.notebook)
          (samples (-1) 1 (Z.to_nat 256))) <> 0.
Proof.
  change (Z.to_nat 256) with 256%nat.
  split.
  - apply (indicator_sum _ _ _ _ 256 2); [lia |].
    rewrite !INR_IZR_INZ.
    change (Z.of_nat 2) with 2%Z. change (Z.of_nat (256 - 1)) with 255%Z.
    lra.
  - apply (indicator_sum _ _ _ _ 256 127); [lia |].
    rewrite !INR_IZR_INZ.
    change (Z.of_nat 127) with 127%Z. change (Z.of_nat (256 - 1)) with 255%Z.
    lra.
Qed.

Lemma setup_outcome_witness :
  Continuum.setup no_cell = Err IndexError /\
  exists e s0, Continuum.setup small_grid = Ok (e, s0).
Proof.
  destruct (ContinuumMore.setup_outcome no_cell) as (_ & H2 & _).
  destruct (ContinuumMore.setup_outcome small_grid) as (_ & _ & _ & _ & _ & H6).
  split.
  - apply H2. simpl. lia.
  - apply H6.
    + simpl. lia.
    + simpl. lia.
    + apply uniform_sum. simpl. lia.
    + apply uniform_sum. simpl. lia.
Defined.

Lemma setup_result_witness :
  exists e s0,
    Continuum.setup small_grid = Ok (e, s0) /\
    nth 0 (Continuum.grid e) 0 = -1 /\ nth 2 (Continuum.grid e) 0 = 1 /\
    Continuum.Dx e = (1 - -1) / INR 2 /\
    vsum (Continuum.rho1 s0) = 1 /\ vsum (Continuum.rho2 s0) = 1.
Proof.
  destruct (ContinuumMore.setup_result small_grid)
    as (e & s0 & Hs & _ & G0 & Gl & _ & HDx & _ & _ & _ & _ & S1 & S2 & _).
  - simpl. lia.
  - simpl. lia.
  - apply uniform_sum. simpl. lia.
  - apply uniform_sum. simpl. lia.
  - exists e, s0. repeat split; assumption.
Defined.

Lemma degenerate_grid_witness :
  Continuum.xmin point_grid = Continuum.xmax point_grid /\
  Continuum.run point_grid = Err NonFinite.
Proof.
  split; [reflexivity |].
  apply (ContinuumMore.degenerate_grid point_grid).
  - simpl. lia.
  - simpl. lia.
  - reflexivity.
  - apply uniform_sum. simpl. lia.
  - apply uniform_sum. simpl. lia.
Defined.

Lemma figures_saved_witness :
  exists s, Continuum.run small_grid = Ok s /\ Continuum.cpt s = 1%nat.
Proof.
  destruct (ContinuumMore.figures_saved small_grid) as (s & Hs & Hc).
  - simpl. lia.
  - simpl. lia.
  - simpl. lra.
  - apply uniform_sum. simpl. lia.
  - apply uniform_sum. simpl. lia.
  - exists s. split; [exact Hs | exact Hc].
Defined.

Lemma velocity_bound_witness :
  ContinuumSpec.max_abs
    (Continuum.a1 (Continuum.velocities small_env (small_store np_sign)))
  <= 1 * vsum [0; 1; 0] + 1 * vsum [0; 1 / 2; 1 / 2].
Proof.
  destruct (ContinuumMore.velocity_bound small_grid small_env 3
              (small_store np_sign) 1 1 1) as (H & _).
  - apply Witnesses.small_store_wf.
  - repeat split; reflexivity.
  - reflexivity.
  - apply np_sign_bounded.
  - apply np_sign_bounded.
  - apply np_sign_bounded.
  - repeat constructor; lra.
  - repeat constructor; lra.
  - exact H.
Defined.

Lemma stable_run_witness :
  exists s,
    Continuum.run Continuum.notebook = Ok s /\
    ContinuumSpec.nonneg (Continuum.rho1 s) /\
    ContinuumSpec.nonneg (Continuum.rho2 s) /\
    vsum (Continuum.rho1 s) <= 1 /\ vsum (Continuum.rho2 s) <= 1.
Proof.
  destruct (ContinuumMore.stable_run Continuum.notebook 1 1 1)
    as (e & s0 & _ & _ & H).
  - simpl. lia.
  - simpl. lia.
  - simpl. lra.
  - simpl. lra.
  - apply notebook_sums.
  - apply notebook_sums.
  - intros x. apply indicator_nonneg.
  - intros x. apply indicator_nonneg.
  - apply np_sign_bounded.
  - apply np_sign_bounded.
  - apply np_sign_bounded.
  - cbn [Continuum.notebook Continuum.tf Continuum.Nt Continuum.Nx
         Continuum.xmax Continuum.xmin].
    change (Z.to_nat 1000 - 1)%nat with 999%nat.
    change (Z.to_nat 256 - 1)%nat with 255%nat.
    rewrite !INR_IZR_INZ.
    change (Z.of_nat 999) with 999%Z. change (Z.of_nat 255) with 255%Z.
    lra.
  - cbn [Continuum.notebook Continuum.tf Continuum.Nt Continuum.Nx
         Continuum.xmax Continuum.xmin Continuum.beta].
    change (Z.to_nat 1000 - 1)%nat with 999%nat.
    change (Z.to_nat 256 - 1)%nat with 255%nat.
    rewrite !INR_IZR_INZ.
    change (Z.of_nat 999) with 999%Z. change (Z.of_nat 255) with 255%Z.
    rewrite (Rabs_right 0.3) by lra. lra.
  - exact H.
Defined.

Lemma mirror_run_witness :
  exists s, Continuum.run mirrored_pair = Ok s /\
            Continuum.rho2 s = mirror (Continuum.rho1 s).
Proof.
  destruct (ContinuumMore.mirror_run mirrored_pair) as (e & s0 & _ & _ & _ & H).
  - simpl. lia.
  - simpl. lia.
  - simpl. lra.
  - unfold samples. cbn [mirrored_pair Continuum.rho1_ini Continuum.xmin
                         Continuum.xmax Continuum.Nx].
    change (Z.to_nat 3) with 3%nat. cbn [seq map Nat.sub INR].
    rewrite !vsum_cons, vsum_nil. lra.
  - apply np_sign_odd.
  - reflexivity.
  - reflexivity.
  - intros x. simpl. lra.
  - exact H.
Defined.

Lemma apart_3_4 : 0 < dist 0 0 3 4.
Proof. unfold dist. apply sqrt_lt_R0. nra. Qed.

Lemma interaction_entries_witness :
  exists dxK dyK,
    Discrete.interactions Discrete.kprime_nb [0; 0] [0; 0] 2 [0; 3] [0; 4] 2
    = Ok (dxK, dyK) /\
    (nth 1 (nth 0 dxK []) 0) ^ 2 + (nth 1 (nth 0 dyK []) 0) ^ 2
    = (Discrete.kprime_nb (dist 0 0 3 4)) ^ 2.
Proof.
  destruct (DiscreteMore.interaction_entries Discrete.kprime_nb
              [0; 0] [0; 0] 2 [0; 3] [0; 4] 2 eq_refl eq_refl eq_refl eq_refl)
    as (dxK & dyK & H & _ & _ & _ & _ & He).
  exists dxK, dyK. split; [exact H |].
  apply (He 0%nat 1%nat); [lia | lia | exact apart_3_4].
Defined.

Lemma self_interactions_cancel_witness :
  exists dxS dyS,
    Discrete.interactions Discrete.s2prime_nb [0; 3] [0; 4] 2 [0; 3] [0; 4] 2
    = Ok (dxS, dyS) /\
    nth 1 (nth 0 dxS []) 0 = - nth 0 (nth 1 dxS []) 0 /\
    vsum (sum_axis1 dxS) = 0.
Proof.
  destruct (DiscreteMore.self_interactions_cancel Discrete.s2prime_nb
              [0; 3] [0; 4] 2 eq_refl eq_refl)
    as (dxS & dyS & H & Ha & Hs & _).
  exists dxS, dyS. split; [exact H |]. split; [| exact Hs].
  apply (Ha 0%nat 1%nat); lia.
Defined.

Lemma centre_of_mass_invariant_witness :
  exists s,
    for_loop (Discrete.body two_two) [(0%nat, 0); (1%nat, 0.005)]
      (two_two_store two_two) = Ok s /\
    vsum (Discrete.x2 s) / INR 2 - 0.3 * (vsum (Discrete.x1 s) / INR 2) =
    vsum [0; 3] / INR 2 - 0.3 * (vsum [0; 0] / INR 2).
Proof.
  destruct (DiscreteMore.centre_of_mass_invariant two_two
              [(0%nat, 0); (1%nat, 0.005)] (two_two_store two_two))
    as (s & Hs & Hx & _).
  - apply Witnesses.two_two_wf; reflexivity.
  - simpl. lia.
  - simpl. lia.
  - exists s. split; [exact Hs | exact Hx].
Defined.

Lemma step_translation_witness :
  exists s',
    Discrete.step two_two (two_two_store two_two) = Ok s' /\
    Discrete.step two_two (translate 1 (-2) (two_two_store two_two))
    = Ok (translate 1 (-2) s').
Proof.
  apply (DiscreteMore.step_translation two_two (two_two_store two_two) 1 (-2)).
  - apply Witnesses.two_two_wf; reflexivity.
  - simpl. lia.
  - simpl. lia.
Defined.

Lemma speed_bound_witness :
  exists s',
    Discrete.step two_two (two_two_store two_two) = Ok s' /\
    Rabs (nth 0 (Discrete.dx1 s') 0) <= 0.1 + 1 /\
    Rabs (nth 1 (Discrete.dx2 s') 0) <= 0.1 + Rabs 0.3 * 1.
Proof.
  destruct DiscreteMore.notebook_potentials_bounded as (B1 & B2 & BK).
  destruct (DiscreteMore.speed_bound two_two (two_two_store two_two)
              0.1 0.1 1) as (s' & Hs & Hp & Hq).
  - apply Witnesses.two_two_wf; reflexivity.
  - simpl. lia.
  - simpl. lia.
  - exact B1.
  - exact B2.
  - exact BK.
  - exists s'. split; [exact Hs |]. split.
    + apply (Hp 0%nat). simpl. lia.
    + apply (Hq 1%nat). simpl. lia.
Defined.

Lemma empty_population_witness :
  Discrete.step no_predator (Discrete.init no_predator [] [] [0; 3] [0; 4])
  = Err NonFinite.
Proof.
  destruct (DiscreteMore.empty_population no_predator
              (Discrete.init no_predator [] [] [0; 3] [0; 4])) as (_ & H & _).
  - constructor; reflexivity.
  - apply H; [reflexivity | simpl; lia].
Defined.

Lemma run_outcome_witness :
  Binary64.run Discrete.notebook Binary64.notebook_T PrimFloat.zero
    (repeat 0 400) (repeat 0 400) (repeat 0 400) (repeat 0 400)
  = Err ZeroDivisionError /\
  Binary64.run Discrete.notebook Binary64.huge Binary64.minute
    (repeat 0 400) (repeat 0 400) (repeat 0 400) (repeat 0 400)
  = Err OverflowError /\
  (exists s,
     Binary64.run Discrete.notebook Binary64.notebook_T Binary64.notebook_dt
       (repeat 0 400) (repeat 0 400) (repeat 0 400) (repeat 0 400) = Ok s /\
     Discrete.cnt s = 1001%nat /\ Discrete.cnt_sav s = 101%nat /\
     Discrete.n_var s = Some 1000%nat) /\
  (exists s,
     Binary64.run two_two Binary64.short_T Binary64.short_dt
       [0; 0] [0; 0] [0; 3] [0; 4] = Ok s /\
     Discrete.cnt s = 3%nat /\ Discrete.cnt_sav s = 1%nat).
Proof.
  split; [| split; [| split]].
  - apply (DiscreteMore.run_outcome Discrete.notebook Binary64.notebook_T
             PrimFloat.zero).
    vm_compute. reflexivity.
  - destruct Binary64Facts.infinite_quotient as [Hd Hq].
    destruct (DiscreteMore.run_outcome Discrete.notebook Binary64.huge
                Binary64.minute (repeat 0 400) (repeat 0 400) (repeat 0 400)
                (repeat 0 400)) as (_ & _ & H & _).
    exact (H false Hd Hq).
  - destruct (DiscreteMore.run_outcome Discrete.notebook Binary64.notebook_T
                Binary64.notebook_dt (repeat 0 400) (repeat 0 400)
                (repeat 0 400) (repeat 0 400)) as (_ & _ & _ & _ & H).
    destruct (H 1000%Z Binary64Facts.notebook_nT_binary64)
      as (s & Hs & Hc & Hsav & Hn); try apply repeat_length;
      try reflexivity; try (simpl; lia).
    change (Z.to_nat (1000 + 1)) with 1001%nat in Hc.
    exists s. split; [exact Hs |]. split; [exact Hc |].
    split; [rewrite Hsav, Hc; reflexivity |].
    rewrite Hn, Hc by (rewrite Hc; lia). reflexivity.
  - destruct (DiscreteMore.run_outcome two_two Binary64.short_T
                Binary64.short_dt [0; 0] [0; 0] [0; 3] [0; 4])
      as (_ & _ & _ & _ & H).
    destruct (H 2%Z Binary64Facts.rounded_quotient)
      as (s & Hs & Hc & Hsav & _); try reflexivity; try (simpl; lia).
    change (Z.to_nat (2 + 1)) with 3%nat in Hc.
    exists s. split; [exact Hs |]. split; [exact Hc |].
    rewrite Hsav, Hc. reflexivity.
Defined.

Lemma concentrated_steady_witness :
  exists s,
    Continuum.iter small_env 2 middle_store = Ok s /\
    Continuum.rho1 s = [0; 1; 0] /\ Continuum.rho2 s = [0; 1; 0].
Proof.
  apply (ContinuumMore.concentrated_steady small_grid small_env 3
           middle_store 1 2).
  - constructor; reflexivity.
  - repeat split; reflexivity.
  - reflexivity.
  - exact Witnesses.small_Dx.
  - apply Witnesses.np_sign_zero. reflexivity.
  - apply Witnesses.np_sign_zero. reflexivity.
  - apply Witnesses.np_sign_zero. reflexivity.
  - intros [|[|[|l]]] Hl; cbn [nth middle_store Continuum.rho1 Continuum.rho2];
      try (split; reflexivity).
    + congruence.
    + destruct l; split; reflexivity.
Defined.

Lemma cluster_steady_witness :
  exists s,
    for_loop (Discrete.body two_two) [(0%nat, 0); (1%nat, 0.005)]
      (Discrete.init two_two [1; 1] [2; 2] [1; 1] [2; 2]) = Ok s /\
    Discrete.x1 s = [1; 1] /\ Discrete.y1 s = [2; 2] /\
    Discrete.x2 s = [1; 1] /\ Discrete.y2 s = [2; 2].
Proof.
  apply (DiscreteMore.cluster_steady two_two [(0%nat, 0); (1%nat, 0.005)] 1 2
           (Discrete.init two_two [1; 1] [2; 2] [1; 1] [2; 2])).
  - simpl. lia.
  - simpl. lia.
  - reflexivity.
  - reflexivity.
  - reflexivity.
  - reflexivity.
Defined.

Lemma pursuit_step_witness :
  exists p' q' u' v' s',
    Discrete.step one_one (Discrete.init one_one [0] [0] [3] [4]) = Ok s' /\
    Discrete.x1 s' = [p'] /\ Discrete.y1 s' = [q'] /\
    Discrete.x2 s' = [u'] /\ Discrete.y2 s' = [v'] /\
    u' - p' = (3 - 0) * (1 - 0.005 * (1 - 0.3)
                             * Discrete.kprime_nb (dist 0 0 3 4) / dist 0 0 3 4) /\
    v' - q' = (4 - 0) * (1 - 0.005 * (1 - 0.3)
                             * Discrete.kprime_nb (dist 0 0 3 4) / dist 0 0 3 4).
Proof.
  apply (DiscreteMore.pursuit_step one_one
           (Discrete.init one_one [0] [0] [3] [4]) 0 0 3 4).
  - reflexivity.
  - reflexivity.
  - reflexivity.
  - reflexivity.
  - reflexivity.
  - reflexivity.
  - exact apart_3_4.
Defined.

End MoreWitnesses.
